(** * Label/bias co-occurrence matrices of [datasets/utils.py]

    A shallow embedding of [get_confusion_matrix] and
    [get_unsup_confusion_matrix].  The two functions allocate torch tensors,
    update them in place inside a loop over the zipped inputs, and derive
    further tensors by (allocating) elementwise operations.  The embedding
    keeps that shape:

    - tensor elements are an abstract [Scalar]; the instance the program runs
      on is IEEE-754 binary32 ([torch.zeros] has dtype float32), built on the
      standard library's [SpecFloat]; a second instance with exact rational
      arithmetic is used to separate what the algorithm does from what
      rounding does;
    - tensors live in a store, a variable of the program holds a location,
      and every torch operation says whether it writes in place or allocates;
    - [targets] and [biases] are the labels as the integers that [.long()]
      gives, and the loop runs over stdpp's [zip], which stops at the end of
      the shortest list as Python's does;
    - [sum] adds a row from left to right; torch fixes no order of addition,
      so [sums_to] describes the totals of every order and bracketing, and
      the statement on rounded row sums is made for all of them;
    - a Python exception (here only the [IndexError] of an out-of-range
      index and the [RuntimeError] of a negative size) is the [None] result. *)

From Stdlib Require Import ZArith List Bool Lia QArith Qcanon Qpower Lqa Permutation.
From Stdlib Require Import Floats.SpecFloat.
From stdpp Require Import base option list numbers.

Set Default Proof Using "Type".
Open Scope Z_scope.

(** ** Scalars *)

(** What the two functions need of a tensor element: the literals [0] and
    [1], [+] (from [+=] and [sum]), [/] and [==]. *)
Class Scalar (F : Type) := {
  s_zero : F;
  s_one : F;
  s_add : F → F → F;
  s_div : F → F → F;
  s_eqb : F → F → bool;
}.

(** IEEE-754 binary32: 24 bits of precision, exponents below 128. *)
Module B32.
Definition prec : Z := 24.
Definition emax : Z := 128.
Definition float32 : Type := spec_float.

Definition zero : float32 := S754_zero false.
Definition one : float32 := SFone prec emax.
Definition nan : float32 := S754_nan.
Definition add : float32 → float32 → float32 := SFadd prec emax.
Definition div : float32 → float32 → float32 := SFdiv prec emax.
Definition eqb : float32 → float32 → bool := SFeqb.

(** The float32 nearest to an integer (round to nearest, ties to even). *)
Definition of_Z (k : Z) : float32 := binary_normalize prec emax k 0 false.

(** [m * 2^e] for an integer [m], rounded the same way. *)
Definition of_bits (m e : Z) : float32 := binary_normalize prec emax m e false.

(** The integer a float32 stands for, when it is one. *)
Definition to_Z (x : float32) : option Z :=
  match x with
  | S754_zero _ => Some 0
  | S754_finite s m e =>
      if decide (0 ≤ e) then Some (cond_Zopp s (Z.pos m * 2 ^ e))
      else if decide ((Z.pos m) mod 2 ^ (- e) = 0)
           then Some (cond_Zopp s (Z.pos m / 2 ^ (- e)))
           else None
  | _ => None
  end.

(** The float32 of an integer [k] with [0 < k < 2^24], written out: a
    mantissa of 24 significant bits and the matching exponent. *)
Definition canon (k : Z) : float32 :=
  S754_finite false (Z.to_pos (k * 2 ^ (23 - Z.log2 k))) (Z.log2 k - 23).

(** A shift register of the rounding with no bit shifted out yet. *)
Definition exact (m : Z) : shr_record :=
  {| shr_m := m; shr_r := false; shr_s := false |}.

(** The largest count a float32 accumulator reaches by steps of one. *)
Definition max_count : Z := 2 ^ 24.
End B32.

#[export] Instance float32_scalar : Scalar B32.float32 := {|
  s_zero := B32.zero;
  s_one := B32.one;
  s_add := B32.add;
  s_div := B32.div;
  s_eqb := B32.eqb;
|}.

(** Exact arithmetic: a rational, or [None] for the result of a division by
    zero (which then propagates and compares unequal to everything, as a NaN
    does). *)
Module Exact.
Definition num : Type := option Qc.

Definition add (x y : num) : num :=
  match x, y with
  | Some a, Some b => Some (a + b)%Qc
  | _, _ => None
  end.

Definition div (x y : num) : num :=
  match x, y with
  | Some a, Some b => if decide (b = 0%Qc) then None else Some (a / b)%Qc
  | _, _ => None
  end.

Definition eqb (x y : num) : bool :=
  match x, y with
  | Some a, Some b => bool_decide (a = b)
  | _, _ => false
  end.

(** A natural number as a rational. *)
Definition of_nat (k : nat) : Qc := Q2Qc (inject_Z (Z.of_nat k)).
End Exact.

#[export] Instance exact_scalar : Scalar Exact.num := {|
  s_zero := Some 0%Qc;
  s_one := Some 1%Qc;
  s_add := Exact.add;
  s_div := Exact.div;
  s_eqb := Exact.eqb;
|}.

(** ** Tensors and the store *)

Abbreviation matrix F := (list (list F)).

(** A two-dimensional tensor of numbers, or of booleans (a mask). *)
Inductive tensor (F : Type) : Type :=
  | TNum (m : matrix F)
  | TMask (m : matrix bool).
Arguments TNum {F} m.
Arguments TMask {F} m.

Definition loc : Type := nat.
Abbreviation store F := (list (tensor F)).

(** Computations on the store that may raise. *)
Definition M (F A : Type) : Type := store F → option (A * store F).

#[export] Instance M_ret {F} : MRet (M F) := λ A a h, Some (a, h).
#[export] Instance M_bind {F} : MBind (M F) := λ A B k c h,
  match c h with
  | Some (a, h') => k a h'
  | None => None
  end.

Definition raise {F A} : M F A := λ _, None.

Definition alloc {F} (t : tensor F) : M F loc := λ h, Some (length h, h ++ [t]).

Definition load_num {F} (l : loc) : M F (matrix F) := λ h,
  match h !! l with
  | Some (TNum m) => Some (m, h)
  | _ => None
  end.

Definition load_mask {F} (l : loc) : M F (matrix bool) := λ h,
  match h !! l with
  | Some (TMask m) => Some (m, h)
  | _ => None
  end.

Definition store_num {F} (l : loc) (m : matrix F) : M F unit := λ h,
  match h !! l with
  | Some _ => Some (tt, <[l := TNum m]> h)
  | None => None
  end.

(** [for x in xs: body(x)] *)
Fixpoint for_each {F A} (xs : list A) (body : A → M F unit) : M F unit :=
  match xs with
  | [] => mret tt
  | x :: xs' => body x ;; for_each xs' body
  end.

(** ** The torch operations the two functions use *)

(** An integer index into a dimension of size [size]: negative indices count
    from the end, anything outside [-size, size) raises [IndexError]. *)
Definition index (size : nat) (i : Z) : option nat :=
  if decide (0 ≤ i < Z.of_nat size) then Some (Z.to_nat i)
  else if decide (- Z.of_nat size ≤ i < 0) then Some (Z.to_nat (i + Z.of_nat size))
  else None.

Section Torch.
Context {F : Type} `{Scalar F}.

(** [torch.zeros(r, c)]: a fresh tensor; a negative size raises. *)
Definition torch_zeros (r c : Z) : M F loc :=
  if decide (0 ≤ r ∧ 0 ≤ c)
  then alloc (TNum (replicate (Z.to_nat r) (replicate (Z.to_nat c) s_zero)))
  else raise.

(** The element update of [x[i, j] += v] on the value of [x]. *)
Definition iadd_matrix (m : matrix F) (i j : Z) (v : F) : option (matrix F) :=
  r ← index (length m) i;
  row ← m !! r;
  c ← index (length row) j;
  x ← row !! c;
  Some (<[r := <[c := s_add x v]> row]> m).

(** [x[i, j] += v]: writes the tensor at [x] in place. *)
Definition iadd_item (x : loc) (i j : Z) (v : F) : M F unit :=
  m ← load_num x;
  match iadd_matrix m i j v with
  | Some m' => store_num x m'
  | None => raise
  end.

(** The reduction of [sum]: the elements are added to [0] one after the
    other, in index order.  The order in which torch adds is the kernel's
    business and differs from this one on longer rows; it only matters where
    a sum is rounded.  [sums_to] below is the total in any order, and
    [sum_row] is one of them. *)
Definition sum_row (row : list F) : F := foldl s_add s_zero row.

(** [s] is a total of [row]: the elements added in some order and with some
    bracketing, accumulators starting from [0] allowed. *)
Inductive sums_to : list F → F → Prop :=
  | sums_to_nil : sums_to [] s_zero
  | sums_to_one x : sums_to [x] x
  | sums_to_add l l1 l2 s1 s2 :
      l ≡ₚ l1 ++ l2 → sums_to l1 s1 → sums_to l2 s2 → sums_to l (s_add s1 s2).

(** [x.sum(1).unsqueeze(1)]: a fresh column tensor of the row sums. *)
Definition sum_rows (m : matrix F) : matrix F := (λ row : list F, [sum_row row]) <$> m.

Definition sum1_unsqueeze1 (x : loc) : M F loc :=
  m ← load_num x;
  alloc (TNum (sum_rows m)).

(** [a / b] on two rows, where a row of [b] of length one is broadcast. *)
Definition div_row (ra rb : list F) : list F :=
  match rb with
  | [d] => (λ a, s_div a d) <$> ra
  | _ => zip_with s_div ra rb
  end.

Definition div_matrix (a b : matrix F) : matrix F := zip_with div_row a b.

(** [a / b]: a fresh tensor; [a] and [b] are not written. *)
Definition tensor_div (a b : loc) : M F loc :=
  ma ← load_num a;
  mb ← load_num b;
  alloc (TNum (div_matrix ma mb)).

(** [v / x] for a Python number [v]: a fresh tensor, [x.reciprocal() * v];
    the function calls it with [v = 1], where the product is exact. *)
Definition rdiv_matrix (v : F) (m : matrix F) : matrix F :=
  (λ row : list F, (λ a, s_div v a) <$> row) <$> m.

Definition scalar_rdiv (v : F) (x : loc) : M F loc :=
  m ← load_num x;
  alloc (TNum (rdiv_matrix v m)).

(** [x == v]: a fresh mask. *)
Definition eq_matrix (m : matrix F) (v : F) : matrix bool :=
  (λ row : list F, (λ a, s_eqb a v) <$> row) <$> m.

Definition tensor_eq (x : loc) (v : F) : M F loc :=
  m ← load_num x;
  alloc (TMask (eq_matrix m v)).

(** [x[mask] = v]: writes the tensor at [x] in place. *)
Definition fill_row (v : F) (row : list F) (mrow : list bool) : list F :=
  zip_with (λ a (b : bool), if b then v else a) row mrow.

Definition fill_matrix (m : matrix F) (mask : matrix bool) (v : F) : matrix F :=
  zip_with (fill_row v) m mask.

Definition masked_fill (x mask : loc) (v : F) : M F unit :=
  m ← load_num x;
  k ← load_mask mask;
  store_num x (fill_matrix m k v).

(** ** The two functions *)

(** [t.long()] and [p.long()] are the labels as integers: [targets] and
    [biases] are given as the lists of those integers. *)
Definition get_confusion_matrix (num_classes : Z) (targets biases : list Z)
  : M F (loc * loc * loc) :=
  confusion_matrix_org ← torch_zeros num_classes num_classes;
  confusion_matrix_org_by ← torch_zeros num_classes num_classes;
  for_each (zip targets biases) (λ '(t, p),
    iadd_item confusion_matrix_org p t s_one;;
    iadd_item confusion_matrix_org_by t p s_one);;
  row_sums ← sum1_unsqueeze1 confusion_matrix_org;
  confusion_matrix ← tensor_div confusion_matrix_org row_sums;
  row_sums_by ← sum1_unsqueeze1 confusion_matrix_org_by;
  confusion_matrix_by ← tensor_div confusion_matrix_org_by row_sums_by;
  mret (confusion_matrix_org, confusion_matrix, confusion_matrix_by).

(** [get_confusion_matrix] up to the end of its loop: the two accumulators
    before the normalization. *)
Definition get_confusion_matrix_loop (num_classes : Z) (targets biases : list Z)
  : M F (loc * loc) :=
  confusion_matrix_org ← torch_zeros num_classes num_classes;
  confusion_matrix_org_by ← torch_zeros num_classes num_classes;
  for_each (zip targets biases) (λ '(t, p),
    iadd_item confusion_matrix_org p t s_one;;
    iadd_item confusion_matrix_org_by t p s_one);;
  mret (confusion_matrix_org, confusion_matrix_org_by).

(** The assignments [confusion_matrix_org = ...] rebind the variable to the
    fresh tensor; each binding gets a name of its own here. *)
Definition get_unsup_confusion_matrix
    (num_classes : Z) (targets biases : list Z) (marginals : list F)
  : M F (loc * loc) :=
  confusion_matrix_org ← torch_zeros num_classes num_classes;
  confusion_matrix_cnt ← torch_zeros num_classes num_classes;
  for_each (zip targets (zip biases marginals)) (λ '(t, (p, m)),
    iadd_item confusion_matrix_org p t m;;
    iadd_item confusion_matrix_cnt p t s_one);;
  zero_idx ← tensor_eq confusion_matrix_org s_zero;
  cnt_zero ← tensor_eq confusion_matrix_cnt s_zero;
  masked_fill confusion_matrix_cnt cnt_zero s_one;;
  confusion_matrix_mean ← tensor_div confusion_matrix_org confusion_matrix_cnt;
  masked_fill confusion_matrix_mean zero_idx s_one;;
  confusion_matrix_inv ← scalar_rdiv s_one confusion_matrix_mean;
  masked_fill confusion_matrix_inv zero_idx s_zero;;
  row_sums ← sum1_unsqueeze1 confusion_matrix_inv;
  confusion_matrix ← tensor_div confusion_matrix_inv row_sums;
  mret (confusion_matrix_inv, confusion_matrix).

(** ** Calling the functions: run in an empty store, read the results *)

Definition read (h : store F) (l : loc) : option (matrix F) :=
  match h !! l with
  | Some (TNum m) => Some m
  | _ => None
  end.

Definition call3 (prog : M F (loc * loc * loc))
  : option (matrix F * matrix F * matrix F) :=
  '(l0, l1, l2, h) ← prog [];
  m0 ← read h l0; m1 ← read h l1; m2 ← read h l2;
  Some (m0, m1, m2).

Definition call2 (prog : M F (loc * loc)) : option (matrix F * matrix F) :=
  '(l0, l1, h) ← prog [];
  m0 ← read h l0; m1 ← read h l1;
  Some (m0, m1).
End Torch.

(** ** What the programs compute *)

(** The effect of a loop of [x[i, j] += v] on the value of one tensor. *)
Section Accumulate.
Context {F : Type} `{Scalar F}.

Fixpoint accumulate (m : matrix F) (exs : list (Z * Z * F)) : option (matrix F) :=
  match exs with
  | [] => Some m
  | (i, j, v) :: exs' => m' ← iadd_matrix m i j v; accumulate m' exs'
  end.

Definition zeros (n : nat) : matrix F := replicate n (replicate n s_zero).

(** The matrix [m] is [n] by [n]. *)
Definition square (n : nat) (m : matrix F) : Prop :=
  length m = n ∧ ∀ row, row ∈ m → length row = n.

Definition cell {A} (m : matrix A) (r c : nat) : option A := m !! r ≫= (.!! c).

(** An example addresses a cell of an [n] by [n] tensor. *)
Definition valid (n : nat) (ex : Z * Z * F) : Prop :=
  is_Some (index n ex.1.1) ∧ is_Some (index n ex.1.2).

(** The values that the loop adds to cell [(r, c)], in order. *)
Definition hits (n r c : nat) (exs : list (Z * Z * F)) : list F :=
  omap (λ ex, if decide (index n ex.1.1 = Some r ∧ index n ex.1.2 = Some c)
              then Some ex.2 else None) exs.
End Accumulate.
Arguments hits : simpl never.

(** ** The value of the two programs *)

Section Values.
Context {F : Type} `{Scalar F}.
Implicit Types (h : store F) (m : matrix F).

(** [x / x.sum(1).unsqueeze(1)] *)
Definition row_normalize (m : matrix F) : matrix F := div_matrix m (sum_rows m).

(** The surprise of a cell from its weighted sum and its count. *)
Definition surprise_of (w k : F) : F :=
  if s_eqb w s_zero then s_zero
  else s_div s_one (s_div w (if s_eqb k s_zero then s_one else k)).

(** The updates of the loop of [get_confusion_matrix] on each accumulator. *)
Definition org_updates (targets biases : list Z) : list (Z * Z * F) :=
  (λ x : Z * Z, (x.2, x.1, s_one)) <$> zip targets biases.
Definition by_updates (targets biases : list Z) : list (Z * Z * F) :=
  (λ x : Z * Z, (x.1, x.2, s_one)) <$> zip targets biases.

(** The value of a cell that the loop of counts has hit [k] times. *)
Definition count_float (k : nat) : F := foldl s_add s_zero (replicate k s_one).

(** The updates of the loop of [get_unsup_confusion_matrix]. *)
Definition sum_updates (targets biases : list Z) (marginals : list F)
  : list (Z * Z * F) :=
  (λ x : Z * (Z * F), (x.2.1, x.1, x.2.2)) <$> zip targets (zip biases marginals).
Definition cnt_updates (targets biases : list Z) (marginals : list F)
  : list (Z * Z * F) :=
  (λ x : Z * (Z * F), (x.2.1, x.1, s_one)) <$> zip targets (zip biases marginals).

(** The marginals of the examples with bias [b] and target [t], in order,
    their sum as the loop accumulates it, and their number. *)
Definition cell_marginals (b t : Z) (targets biases : list Z) (marginals : list F)
  : list F :=
  (λ ex : Z * (Z * F), ex.2.2)
    <$> filter (λ ex : Z * (Z * F), ex.2.1 = b ∧ ex.1 = t)
          (zip targets (zip biases marginals)).
Definition weighted_sum (b t : Z) (targets biases : list Z) (marginals : list F) : F :=
  foldl s_add s_zero (cell_marginals b t targets biases marginals).
Definition occurrences (b t : Z) (targets biases : list Z) (marginals : list F) : nat :=
  length (cell_marginals b t targets biases marginals).

(** The steps of [get_unsup_confusion_matrix] after the loop, on values. *)
Definition zero_mask (wsum : matrix F) : matrix bool := eq_matrix wsum s_zero.
Definition safe_count (cnt : matrix F) : matrix F :=
  fill_matrix cnt (eq_matrix cnt s_zero) s_one.
Definition mean_weight (wsum cnt : matrix F) : matrix F :=
  fill_matrix (div_matrix wsum (safe_count cnt)) (zero_mask wsum) s_one.
Definition surprise (wsum cnt : matrix F) : matrix F :=
  fill_matrix (rdiv_matrix s_one (mean_weight wsum cnt)) (zero_mask wsum) s_zero.
Definition confusion_value (n : Z) (targets biases : list Z)
  : option (matrix F * matrix F * matrix F) :=
  if decide (0 ≤ n) then
    raw ← accumulate (zeros (Z.to_nat n)) (org_updates targets biases);
    raw_by ← accumulate (zeros (Z.to_nat n)) (by_updates targets biases);
    Some (raw, row_normalize raw, row_normalize raw_by)
  else None.

Definition unsup_value (n : Z) (targets biases : list Z) (marginals : list F)
  : option (matrix F * matrix F) :=
  if decide (0 ≤ n) then
    wsum ← accumulate (zeros (Z.to_nat n)) (sum_updates targets biases marginals);
    cnt ← accumulate (zeros (Z.to_nat n)) (cnt_updates targets biases marginals);
    Some (surprise wsum cnt, row_normalize (surprise wsum cnt))
  else None.
End Values.

(** ** The words of the specification *)

(** A label is a class index in [[0, num_classes)]. *)
Definition in_range (n : Z) (i : Z) : Prop := 0 ≤ i < n.

(** The number of examples with bias [b] and target [t]. *)
Definition count (b t : Z) (targets biases : list Z) : nat :=
  length (filter (λ x : Z * Z, x.2 = b ∧ x.1 = t) (zip targets biases)).

(** The transpose of a matrix. *)
Definition transpose {A} (m : matrix A) : matrix A :=
  (λ c, omap (λ row : list A, row !! c) m) <$> seq 0 (length m).

(** One example more than a float32 count can tell apart. *)
Definition over_max_count : nat := Z.to_nat (B32.max_count + 1).

(** The sum of the entries of a float32 tensor whose entries are integers,
    as an integer. *)
Definition sum_Z (xs : list B32.float32) : option Z :=
  foldr (λ x acc, z ← B32.to_Z x; s ← acc; Some (z + s)) (Some 0) xs.
Definition total_Z (m : matrix B32.float32) : option Z := sum_Z (concat m).

(** ** Further words for the behaviour of the two functions *)

(** A label that torch accepts as an index into a dimension of size [n]. *)
Definition valid_label (n i : Z) : Prop := - n ≤ i < n.

(** The class a label addresses: a negative label counts from the end. *)
Definition wrap (n i : Z) : Z := if decide (i < 0) then i + n else i.

(** The number of examples with bias [b]. *)
Definition count_bias (b : Z) (targets biases : list Z) : nat :=
  length (filter (λ x : Z * Z, x.2 = b) (zip targets biases)).

(** The row of length [n] with [x] at position [t] and [+0.0] elsewhere. *)
Definition one_hot (n t : nat) (x : B32.float32) : list B32.float32 :=
  <[t := x]> (replicate n B32.zero).

(** The number of examples with target [t]. *)
Definition count_target (t : Z) (targets biases : list Z) : nat :=
  length (filter (λ x : Z * Z, x.1 = t) (zip targets biases)).

(** ** The real value of a float32 *)

(** The rational number a finite float32 stands for. *)
Definition to_Q (x : B32.float32) : option Q :=
  match x with
  | S754_zero _ => Some 0%Q
  | S754_finite s m e => Some (inject_Z (cond_Zopp s (Z.pos m)) * 2 ^ e)%Q
  | _ => None
  end.

(** The sum of the entries of a row as a rational number, without rounding. *)
Definition sum_Q (row : list B32.float32) : option Q :=
  foldr (λ x acc, q ← to_Q x; t ← acc; Some (q + t)%Q) (Some 0%Q) row.

(** The unit roundoff of float32, [2^-24]: the largest relative error of a
    rounding to nearest. *)
Definition unit_roundoff : Q := (2 ^ (-24))%Q.

(** What a location says of the remainder [r] of a division by [m]: where
    [r / m] lies with respect to one half. *)
Definition loc_sem (l : location) (r m : Z) : Prop :=
  match l with
  | loc_Exact => r = 0
  | loc_Inexact Lt => 0 < 2 * r < m
  | loc_Inexact Eq => 2 * r = m
  | loc_Inexact Gt => m < 2 * r
  end.

(** * Proofs *)

(** ** Running the store operations *)

Section StoreLemmas.
Context {F : Type} `{Scalar F}.
Implicit Types (h : store F) (m : matrix F).

Lemma bind_run {A B} (c : M F A) (k : A → M F B) h :
  (c ≫= k) h = match c h with Some (a, h') => k a h' | None => None end.
Proof. reflexivity. Qed.

Lemma load_num_run h l m : h !! l = Some (TNum m) → load_num l h = Some (m, h).
Proof. unfold load_num. by intros ->. Qed.

Lemma load_mask_run h l (k : matrix bool) :
  h !! l = Some (TMask k) → load_mask l h = Some (k, h).
Proof. unfold load_mask. by intros ->. Qed.

Lemma store_num_run h l m t :
  h !! l = Some t → store_num l m h = Some (tt, <[l := TNum m]> h).
Proof. unfold store_num. by intros ->. Qed.

Lemma iadd_item_run h x m i j v :
  h !! x = Some (TNum m) →
  iadd_item x i j v h =
    match iadd_matrix m i j v with
    | Some m' => Some (tt, <[x := TNum m']> h)
    | None => None
    end.
Proof.
  intros Hx. unfold iadd_item. rewrite bind_run, (load_num_run _ _ _ Hx).
  destruct (iadd_matrix m i j v); [|done]. by rewrite (store_num_run _ _ _ _ Hx).
Qed.

Lemma insert2_overwrite h (a b : loc) (x x' y y' : tensor F) :
  a ≠ b →
  <[b := y']> (<[a := x']> (<[b := y]> (<[a := x]> h))) = <[b := y']> (<[a := x']> h).
Proof.
  intros Hab. rewrite (list_insert_insert_ne _ a b x' y) by done.
  by rewrite list_insert_insert_eq, list_insert_insert_eq.
Qed.

(** A loop whose body updates two tensors in place is two accumulations. *)
Lemma for_each_iadd2 {A} (xs : list A) (body : A → M F unit)
    (e0 e1 : A → Z * Z * F) (a b : loc) h m0 m1 :
  (∀ x, body x = (iadd_item a (e0 x).1.1 (e0 x).1.2 (e0 x).2;;
                  iadd_item b (e1 x).1.1 (e1 x).1.2 (e1 x).2)) →
  a ≠ b → h !! a = Some (TNum m0) → h !! b = Some (TNum m1) →
  for_each xs body h =
    match accumulate m0 (e0 <$> xs), accumulate m1 (e1 <$> xs) with
    | Some m0', Some m1' => Some (tt, <[b := TNum m1']> (<[a := TNum m0']> h))
    | _, _ => None
    end.
Proof.
  intros Hbody Hab. revert h m0 m1.
  induction xs as [|x xs IH]; intros h m0 m1 Ha Hb; simpl.
  - rewrite !list_insert_id by (by rewrite ?list_insert_id). reflexivity.
  - rewrite bind_run, Hbody, bind_run, (iadd_item_run _ _ _ _ _ _ Ha).
    destruct (e0 x) as [[i0 j0] v0], (e1 x) as [[i1 j1] v1]; simpl.
    destruct (iadd_matrix m0 i0 j0 v0) as [m0x|]; simpl; [|done].
    rewrite (iadd_item_run _ _ m1); [|by rewrite list_lookup_insert_ne].
    destruct (iadd_matrix m1 i1 j1 v1) as [m1x|]; simpl;
      [|by case_match].
    assert (a < length h)%nat by by eapply lookup_lt_Some.
    assert (b < length h)%nat by by eapply lookup_lt_Some.
    rewrite (IH _ m0x m1x).
    + change (list_fmap A _ e0 xs) with (e0 <$> xs).
      change (list_fmap A _ e1 xs) with (e1 <$> xs).
      destruct (accumulate m0x (e0 <$> xs)); [|done].
      destruct (accumulate m1x (e1 <$> xs)); [|done].
      by rewrite insert2_overwrite.
    + rewrite list_lookup_insert_ne by done.
      by rewrite list_lookup_insert_eq.
    + by rewrite list_lookup_insert_eq by by rewrite length_insert.
Qed.
Lemma lookup_ext h (ext : store F) k : (h ++ ext) !! (length h + k)%nat = ext !! k.
Proof. rewrite lookup_app_r by lia. f_equal. lia. Qed.

Lemma lookup_ext0 h (ext : store F) : (h ++ ext) !! length h = ext !! 0%nat.
Proof. rewrite <- (lookup_ext h ext 0). f_equal. lia. Qed.

Lemma insert_ext0 h (ext : store F) t : <[length h := t]> (h ++ ext) = h ++ <[0%nat := t]> ext.
Proof. rewrite <- insert_app_r. f_equal. lia. Qed.

Lemma torch_zeros_run (n : Z) h :
  0 ≤ n →
  torch_zeros n n h = Some (length h, h ++ [TNum (zeros (Z.to_nat n))]).
Proof. intros Hn. unfold torch_zeros. by rewrite decide_True. Qed.

Lemma torch_zeros_neg (n : Z) h : n < 0 → torch_zeros (F:=F) n n h = None.
Proof. intros Hn. unfold torch_zeros. rewrite decide_False by lia. done. Qed.
End StoreLemmas.

Section Runs.
Context {F : Type} `{Scalar F}.
Implicit Types (h : store F) (m : matrix F).

Lemma sum1_unsqueeze1_run h x m :
  h !! x = Some (TNum m) →
  sum1_unsqueeze1 x h = Some (length h, h ++ [TNum (sum_rows m)]).
Proof. intros Hx. unfold sum1_unsqueeze1. by rewrite bind_run, (load_num_run _ _ _ Hx). Qed.

Lemma tensor_div_run h a b ma mb :
  h !! a = Some (TNum ma) → h !! b = Some (TNum mb) →
  tensor_div a b h = Some (length h, h ++ [TNum (div_matrix ma mb)]).
Proof.
  intros Ha Hb. unfold tensor_div.
  by rewrite bind_run, (load_num_run _ _ _ Ha), bind_run, (load_num_run _ _ _ Hb).
Qed.

Lemma scalar_rdiv_run h x m v :
  h !! x = Some (TNum m) →
  scalar_rdiv v x h = Some (length h, h ++ [TNum (rdiv_matrix v m)]).
Proof. intros Hx. unfold scalar_rdiv. by rewrite bind_run, (load_num_run _ _ _ Hx). Qed.

Lemma tensor_eq_run h x m v :
  h !! x = Some (TNum m) →
  tensor_eq x v h = Some (length h, h ++ [TMask (eq_matrix m v)]).
Proof. intros Hx. unfold tensor_eq. by rewrite bind_run, (load_num_run _ _ _ Hx). Qed.

Lemma masked_fill_run h x k m (mask : matrix bool) v :
  h !! x = Some (TNum m) → h !! k = Some (TMask mask) →
  masked_fill x k v h = Some (tt, <[x := TNum (fill_matrix m mask v)]> h).
Proof.
  intros Hx Hk. unfold masked_fill.
  rewrite bind_run, (load_num_run _ _ _ Hx), bind_run, (load_mask_run _ _ _ Hk).
  by rewrite (store_num_run _ _ _ _ Hx).
Qed.

Ltac lookup_store :=
  first [ by rewrite lookup_ext0 | by rewrite lookup_ext ].
Ltac tidy_store :=
  rewrite <- ?app_assoc, ?length_app, ?insert_ext0, ?insert_app_r; simpl.

Lemma get_confusion_matrix_run (n : Z) (targets biases : list Z) h :
  get_confusion_matrix n targets biases h =
    if decide (0 ≤ n) then
      match accumulate (zeros (Z.to_nat n)) (org_updates targets biases),
            accumulate (zeros (Z.to_nat n)) (by_updates targets biases) with
      | Some raw, Some raw_by =>
          Some ((length h, length h + 3, length h + 5)%nat,
                h ++ [TNum raw; TNum raw_by;
                      TNum (sum_rows raw); TNum (row_normalize raw);
                      TNum (sum_rows raw_by); TNum (row_normalize raw_by)])
      | _, _ => None
      end
    else None.
Proof.
  unfold get_confusion_matrix. case_decide as Hn.
  2: { by rewrite bind_run, torch_zeros_neg by lia. }
  rewrite bind_run, torch_zeros_run by done.
  rewrite bind_run, torch_zeros_run by done.
  tidy_store. rewrite bind_run.
  rewrite (for_each_iadd2 _ _ (λ x : Z * Z, (x.2, x.1, s_one))
             (λ x : Z * Z, (x.1, x.2, s_one)) (length h) (length h + 1)%nat _
             (zeros (Z.to_nat n)) (zeros (Z.to_nat n)));
    [| by intros [t p] | lia | lookup_store | lookup_store].
  fold (org_updates targets biases) (by_updates targets biases).
  destruct (accumulate _ (org_updates _ _)) as [raw|]; [|done].
  destruct (accumulate _ (by_updates _ _)) as [raw_by|]; [|done].
  tidy_store.
  rewrite bind_run, (sum1_unsqueeze1_run _ _ raw) by lookup_store. tidy_store.
  rewrite bind_run, (tensor_div_run _ _ _ raw (sum_rows raw)) by lookup_store.
  tidy_store.
  rewrite bind_run, (sum1_unsqueeze1_run _ _ raw_by) by lookup_store. tidy_store.
  rewrite bind_run, (tensor_div_run _ _ _ raw_by (sum_rows raw_by)) by lookup_store.
  tidy_store. reflexivity.
Qed.

Lemma get_confusion_matrix_loop_run (n : Z) (targets biases : list Z) h :
  get_confusion_matrix_loop n targets biases h =
    if decide (0 ≤ n) then
      match accumulate (zeros (Z.to_nat n)) (org_updates targets biases),
            accumulate (zeros (Z.to_nat n)) (by_updates targets biases) with
      | Some raw, Some raw_by =>
          Some ((length h, length h + 1)%nat, h ++ [TNum raw; TNum raw_by])
      | _, _ => None
      end
    else None.
Proof.
  unfold get_confusion_matrix_loop. case_decide as Hn.
  2: { by rewrite bind_run, torch_zeros_neg by lia. }
  rewrite bind_run, torch_zeros_run by done.
  rewrite bind_run, torch_zeros_run by done.
  tidy_store. rewrite bind_run.
  rewrite (for_each_iadd2 _ _ (λ x : Z * Z, (x.2, x.1, s_one))
             (λ x : Z * Z, (x.1, x.2, s_one)) (length h) (length h + 1)%nat _
             (zeros (Z.to_nat n)) (zeros (Z.to_nat n)));
    [| by intros [t p] | lia | lookup_store | lookup_store].
  fold (org_updates targets biases) (by_updates targets biases).
  destruct (accumulate _ (org_updates _ _)) as [raw|]; [|done].
  destruct (accumulate _ (by_updates _ _)) as [raw_by|]; [|done].
  tidy_store. reflexivity.
Qed.

Lemma get_unsup_confusion_matrix_run
    (n : Z) (targets biases : list Z) (marginals : list F) h :
  get_unsup_confusion_matrix n targets biases marginals h =
    if decide (0 ≤ n) then
      match accumulate (zeros (Z.to_nat n)) (sum_updates targets biases marginals),
            accumulate (zeros (Z.to_nat n)) (cnt_updates targets biases marginals) with
      | Some wsum, Some cnt =>
          Some ((length h + 5, length h + 7)%nat,
                h ++ [TNum wsum; TNum (safe_count cnt);
                      TMask (zero_mask wsum); TMask (eq_matrix cnt s_zero);
                      TNum (mean_weight wsum cnt); TNum (surprise wsum cnt);
                      TNum (sum_rows (surprise wsum cnt));
                      TNum (row_normalize (surprise wsum cnt))])
      | _, _ => None
      end
    else None.
Proof.
  unfold get_unsup_confusion_matrix. case_decide as Hn.
  2: { by rewrite bind_run, torch_zeros_neg by lia. }
  rewrite bind_run, torch_zeros_run by done.
  rewrite bind_run, torch_zeros_run by done.
  tidy_store. rewrite bind_run.
  rewrite (for_each_iadd2 _ _ (λ x : Z * (Z * F), (x.2.1, x.1, x.2.2))
             (λ x : Z * (Z * F), (x.2.1, x.1, s_one))
             (length h) (length h + 1)%nat _
             (zeros (Z.to_nat n)) (zeros (Z.to_nat n)));
    [| by intros [t [p m]] | lia | lookup_store | lookup_store].
  fold (sum_updates targets biases marginals) (cnt_updates targets biases marginals).
  destruct (accumulate _ (sum_updates _ _ _)) as [wsum|]; [|done].
  destruct (accumulate _ (cnt_updates _ _ _)) as [cnt|]; [|done].
  tidy_store.
  rewrite bind_run, (tensor_eq_run _ _ wsum) by lookup_store. tidy_store.
  rewrite bind_run, (tensor_eq_run _ _ cnt) by lookup_store. tidy_store.
  rewrite bind_run, (masked_fill_run _ _ _ cnt (eq_matrix cnt s_zero))
    by lookup_store. tidy_store.
  rewrite bind_run, (tensor_div_run _ _ _ wsum (safe_count cnt)) by lookup_store.
  tidy_store.
  rewrite bind_run, (masked_fill_run _ _ _ (div_matrix wsum (safe_count cnt))
                       (zero_mask wsum)) by lookup_store. tidy_store.
  rewrite bind_run, (scalar_rdiv_run _ _ (mean_weight wsum cnt)) by lookup_store.
  tidy_store.
  rewrite bind_run, (masked_fill_run _ _ _ (rdiv_matrix s_one (mean_weight wsum cnt))
                       (zero_mask wsum)) by lookup_store. tidy_store.
  rewrite bind_run, (sum1_unsqueeze1_run _ _ (surprise wsum cnt)) by lookup_store.
  tidy_store.
  rewrite bind_run, (tensor_div_run _ _ _ (surprise wsum cnt)
                       (sum_rows (surprise wsum cnt))) by lookup_store.
  tidy_store. reflexivity.
Qed.

(** The results of a call. *)
Lemma call_get_confusion_matrix n targets biases :
  call3 (get_confusion_matrix n targets biases) = confusion_value n targets biases.
Proof.
  unfold call3, confusion_value. rewrite get_confusion_matrix_run.
  case_decide; [|done].
  destruct (accumulate _ (org_updates _ _)) as [raw|]; [|done].
  destruct (accumulate _ (by_updates _ _)) as [raw_by|]; [|done].
  reflexivity.
Qed.

Lemma call_get_unsup_confusion_matrix n targets biases marginals :
  call2 (get_unsup_confusion_matrix n targets biases marginals)
  = unsup_value n targets biases marginals.
Proof.
  unfold call2, unsup_value. rewrite get_unsup_confusion_matrix_run.
  case_decide; [|done].
  destruct (accumulate _ (sum_updates _ _ _)) as [wsum|]; [|done].
  destruct (accumulate _ (cnt_updates _ _ _)) as [cnt|]; [|done].
  reflexivity.
Qed.
End Runs.

(** ** Cells of an accumulated tensor *)

Section Cells.
Context {F : Type} `{Scalar F}.
Implicit Types (m : matrix F) (exs : list (Z * Z * F)).

Lemma index_lt n i r : index n i = Some r → (r < n)%nat.
Proof. unfold index. repeat case_decide; intros [= <-]; lia. Qed.

Lemma index_in_range n i : 0 ≤ i < Z.of_nat n → index n i = Some (Z.to_nat i).
Proof. intros Hi. unfold index. by rewrite decide_True. Qed.

Lemma square_zeros n : square n (zeros n).
Proof.
  unfold zeros. split; [by rewrite length_replicate|].
  intros row [-> _]%elem_of_replicate. by rewrite length_replicate.
Qed.

Lemma cell_zeros n r c :
  (r < n)%nat → (c < n)%nat → cell (zeros n) r c = Some s_zero.
Proof.
  intros Hr Hc. unfold cell, zeros.
  rewrite lookup_replicate_2 by done. simpl. by rewrite lookup_replicate_2.
Qed.

Lemma square_lookup n m r row : square n m → m !! r = Some row → length row = n.
Proof. intros [_ Hrows] Hr. apply Hrows. by eapply list_elem_of_lookup_2. Qed.

Lemma square_cell_is_Some n m r c :
  square n m → (r < n)%nat → (c < n)%nat → is_Some (cell m r c).
Proof.
  intros Hsq Hr Hc. unfold cell.
  destruct (lookup_lt_is_Some_2 m r) as [row Hrow]; [by rewrite (proj1 Hsq)|].
  rewrite Hrow. simpl. apply lookup_lt_is_Some_2.
  by rewrite (square_lookup _ _ _ _ Hsq Hrow).
Qed.

(** Two square matrices with the same cells are the same matrix. *)
Lemma matrix_eq {A} n (m1 m2 : matrix A) :
  length m1 = n → length m2 = n →
  (∀ row, row ∈ m1 → length row = n) → (∀ row, row ∈ m2 → length row = n) →
  (∀ r c, (r < n)%nat → (c < n)%nat → cell m1 r c = cell m2 r c) →
  m1 = m2.
Proof.
  intros L1 L2 R1 R2 Hcell. apply (list_eq_same_length _ _ n); [done..|].
  intros r row1 row2 Hr Hrow1 Hrow2.
  apply (list_eq_same_length _ _ n).
  - apply R2. by eapply list_elem_of_lookup_2.
  - apply R1. by eapply list_elem_of_lookup_2.
  - intros c x1 x2 Hc Hx1 Hx2.
    specialize (Hcell r c Hr Hc). unfold cell in Hcell.
    rewrite Hrow1, Hrow2 in Hcell. simpl in Hcell. congruence.
Qed.

(** One update of a square matrix. *)
Lemma iadd_matrix_square n m i j v :
  square n m →
  iadd_matrix m i j v =
    r ← index n i; c ← index n j; x ← cell m r c;
    row ← m !! r; Some (<[r := <[c := s_add x v]> row]> m).
Proof.
  intros Hsq. unfold iadd_matrix, cell. rewrite (proj1 Hsq).
  destruct (index n i) as [r|]; [simpl|done].
  destruct (m !! r) as [row|] eqn:Hrow; simpl.
  - rewrite (square_lookup _ _ _ _ Hsq Hrow).
    destruct (index n j) as [c|]; [simpl|done]. by destruct (row !! c).
  - by destruct (index n j).
Qed.

Lemma iadd_matrix_Some n m i j v :
  square n m → valid n (i, j, v) →
  ∃ r c x row, index n i = Some r ∧ index n j = Some c ∧ cell m r c = Some x
    ∧ m !! r = Some row
    ∧ iadd_matrix m i j v = Some (<[r := <[c := s_add x v]> row]> m).
Proof.
  intros Hsq [[r Hr] [c Hc]]; simpl in *.
  destruct (square_cell_is_Some n m r c Hsq) as [x Hx]; eauto using index_lt.
  pose proof Hx as Hx'. unfold cell in Hx'.
  destruct (m !! r) as [row|] eqn:Hrow; [|done].
  exists r, c, x, row. repeat split; try done.
  rewrite (iadd_matrix_square n) by done. rewrite Hr; simpl. rewrite Hc; simpl.
  rewrite Hx; simpl. by rewrite Hrow.
Qed.

Lemma iadd_matrix_None n m i j v :
  square n m → ¬ valid n (i, j, v) → iadd_matrix m i j v = None.
Proof.
  intros Hsq Hnv. rewrite (iadd_matrix_square n) by done.
  destruct (index n i) as [r|] eqn:Hr; [simpl|done].
  destruct (index n j) as [c|] eqn:Hc; [simpl|done].
  destruct Hnv. split; simpl; by eexists.
Qed.

Lemma square_insert n m r c row y :
  square n m → m !! r = Some row → square n (<[r := <[c := y]> row]> m).
Proof.
  intros Hsq Hrow. split; [by rewrite length_insert, (proj1 Hsq)|].
  intros row' [k Hk]%list_elem_of_lookup_1.
  apply list_lookup_insert_Some in Hk as [(-> & <- & _)|[_ Hk]].
  - by rewrite length_insert, (square_lookup _ _ _ _ Hsq Hrow).
  - by eapply square_lookup.
Qed.

Lemma cell_insert n m r c row y r' c' :
  square n m → m !! r = Some row → (c < n)%nat →
  cell (<[r := <[c := y]> row]> m) r' c' =
    if decide (r' = r ∧ c' = c) then Some y else cell m r' c'.
Proof.
  intros Hsq Hrow Hc. unfold cell.
  assert (r < length m)%nat by by eapply lookup_lt_Some.
  assert (length row = n) as Hlen by by eapply square_lookup.
  destruct (decide (r' = r)) as [->|Hne].
  - rewrite list_lookup_insert_eq by done. simpl.
    destruct (decide (c' = c)) as [->|Hnc].
    + rewrite decide_True by done. by rewrite list_lookup_insert_eq by lia.
    + rewrite decide_False by (intros [_ ?]; done).
      rewrite list_lookup_insert_ne by done. by rewrite Hrow.
  - rewrite decide_False by (intros [? _]; done). by rewrite list_lookup_insert_ne.
Qed.

Lemma hits_cons n r c i j v exs :
  hits n r c ((i, j, v) :: exs) =
    if decide (index n i = Some r ∧ index n j = Some c)
    then v :: hits n r c exs else hits n r c exs.
Proof. unfold hits. simpl. by case_decide. Qed.

(** The loop succeeds exactly when every example addresses a cell. *)
Lemma accumulate_is_Some n m exs :
  square n m → Forall (valid n) exs → is_Some (accumulate m exs).
Proof.
  intros Hsq Hall. revert m Hsq.
  induction Hall as [|[[i j] v] exs Hv _ IH]; intros m Hsq; simpl; [by eexists|].
  destruct (iadd_matrix_Some n m i j v Hsq Hv)
    as (r & c & x & row & _ & _ & _ & Hrow & ->).
  simpl. apply IH. by apply square_insert.
Qed.

Lemma accumulate_None n m exs :
  square n m → ¬ Forall (valid n) exs → accumulate m exs = None.
Proof.
  intros Hsq Hnall. revert m Hsq.
  induction exs as [|[[i j] v] exs IH]; intros m Hsq; simpl.
  { destruct Hnall. constructor. }
  destruct (decide (valid n (i, j, v))) as [Hv|Hv].
  - destruct (iadd_matrix_Some n m i j v Hsq Hv)
      as (r & c & x & row & _ & _ & _ & Hrow & ->).
    simpl. apply IH; [|by apply square_insert].
    intros Hall. apply Hnall. by constructor.
  - by rewrite (iadd_matrix_None n).
Qed.

(** Each cell ends as its start value plus the values added to it. *)
Lemma accumulate_cell n m exs m' :
  square n m → accumulate m exs = Some m' →
  square n m' ∧
  ∀ r c x, cell m r c = Some x → cell m' r c = Some (foldl s_add x (hits n r c exs)).
Proof.
  revert m. induction exs as [|[[i j] v] exs IH]; intros m Hsq; simpl.
  { intros [= <-]. done. }
  destruct (decide (valid n (i, j, v))) as [Hv|Hv];
    [|by rewrite (iadd_matrix_None n)].
  destruct (iadd_matrix_Some n m i j v Hsq Hv)
    as (r & c & x & row & Hi & Hj & Hx & Hrow & ->).
  simpl. intros Hacc.
  destruct (IH _ (square_insert n m r c row _ Hsq Hrow) Hacc) as [Hsq' Hcells].
  split; [done|]. intros r' c' x' Hx'.
  rewrite hits_cons, Hi, Hj.
  rewrite (Hcells r' c' (if decide (r' = r ∧ c' = c) then s_add x v else x')).
  - destruct (decide (r' = r ∧ c' = c)) as [[-> ->]|Hne].
    + rewrite decide_True by done. simpl. rewrite Hx in Hx'. by injection Hx' as ->.
    + rewrite decide_False; [done|]. intros [[= ->] [= ->]]. by apply Hne.
  - rewrite (cell_insert n) by eauto using index_lt.
    case_decide as Hd; [done|]. done.
Qed.
End Cells.

(** ** Integers in float32 *)

Section Float32Integers.
Import B32.

Lemma digits2_pos_size p : digits2_pos p = Pos.size p.
Proof. induction p; simpl; congruence. Qed.

Lemma digits2_log2 p : Z.pos (digits2_pos p) = Z.log2 (Z.pos p) + 1.
Proof.
  rewrite digits2_pos_size. destruct p; simpl; lia.
Qed.

Lemma iter_pos_nat {A} (f : A → A) p x : SpecFloat.iter_pos f p x = Nat.iter (Pos.to_nat p) f x.
Proof.
  revert x. induction p as [p IH|p IH|]; intros x; cbn [SpecFloat.iter_pos].
  - rewrite !IH, Pos2Nat.inj_xI, <- Nat.iter_succ_r, <- Nat.iter_add.
    f_equal. lia.
  - rewrite !IH, Pos2Nat.inj_xO, <- Nat.iter_add. f_equal. lia.
  - reflexivity.
Qed.

Lemma shr_1_exact m : 0 < m → shr_1 (exact (2 * m)) = exact m.
Proof. destruct m; try lia. reflexivity. Qed.

Lemma iter_shr_1_exact (n : nat) m :
  0 < m → Nat.iter n shr_1 (exact (m * 2 ^ Z.of_nat n)) = exact m.
Proof.
  intros Hm. induction n as [|n IH].
  - simpl. f_equal. lia.
  - rewrite Nat.iter_succ_r.
    replace (m * 2 ^ Z.of_nat (S n)) with (2 * (m * 2 ^ Z.of_nat n)).
    + rewrite shr_1_exact by lia. done.
    + rewrite Nat2Z.inj_succ, Z.pow_succ_r by lia. lia.
Qed.

Lemma shr_exact m e s :
  0 < m → 0 ≤ s → shr (exact (m * 2 ^ s)) e s = (exact m, e + s).
Proof.
  intros Hm Hs. destruct s as [|s|s]; try lia.
  - by rewrite Z.pow_0_r, Z.mul_1_r, Z.add_0_r.
  - cbn [shr]. rewrite iter_pos_nat.
    rewrite <- (positive_nat_Z s) at 1. by rewrite iter_shr_1_exact.
Qed.

Lemma Zdigits2_log2 m : 0 < m → Zdigits2 m = Z.log2 m + 1.
Proof. destruct m; try lia. intros _. apply digits2_log2. Qed.

Lemma round_aux_exact m e s :
  2 ^ 23 ≤ m < 2 ^ 24 → 0 ≤ s → -149 ≤ e + s ≤ 104 →
  binary_round_aux prec emax false (m * 2 ^ s) e loc_Exact
  = S754_finite false (Z.to_pos m) (e + s).
Proof.
  intros Hm Hs He.
  assert (Z.log2 m = 23) as Hlog by (apply Z.log2_unique; lia).
  unfold binary_round_aux, shr_fexp; cbn [shr_record_of_loc].
  rewrite Zdigits2_log2 by nia.
  rewrite Z.log2_mul_pow2, Hlog by lia.
  replace (fexp prec emax (s + 23 + 1 + e) - e) with s
    by (unfold fexp, SpecFloat.emin, prec, emax; lia).
  change {| shr_m := m * 2 ^ s; shr_r := false; shr_s := false |}
    with (exact (m * 2 ^ s)).
  rewrite shr_exact by lia.
  cbn [exact shr_m loc_of_shr_record round_nearest_even shr_record_of_loc].
  rewrite Zdigits2_log2, Hlog by lia.
  replace (fexp prec emax (23 + 1 + (e + s)) - (e + s)) with 0
    by (unfold fexp, SpecFloat.emin, prec, emax; lia).
  cbn [shr shr_m]. destruct m as [|p|p]; try lia.
  rewrite (proj2 (Z.leb_le _ _)) by (unfold prec, emax; lia). done.
Qed.

Lemma pos_iter_xO p d : Z.pos (Pos.iter xO p d) = Z.pos p * 2 ^ Z.pos d.
Proof.
  change (Pos.iter xO p d) with (shift_pos d p).
  rewrite shift_pos_correct, Zpower_pos_is_exp_pos || idtac.
  rewrite shift_pos_correct. rewrite <- Z.pow_pos_fold. lia.
Qed.

Lemma canon_mantissa k :
  0 < k < 2 ^ 24 →
  0 ≤ Z.log2 k ≤ 23 ∧ 2 ^ 23 ≤ k * 2 ^ (23 - Z.log2 k) < 2 ^ 24.
Proof.
  intros Hk. pose proof (Z.log2_spec k ltac:(lia)) as Hspec.
  assert (0 ≤ Z.log2 k) by apply Z.log2_nonneg.
  assert (Z.log2 k < 24) by (apply Z.log2_lt_pow2; lia).
  split; [lia|].
  replace (2 ^ 23) with (2 ^ Z.log2 k * 2 ^ (23 - Z.log2 k))
    by (rewrite <- Z.pow_add_r by lia; f_equal; lia).
  replace (2 ^ 24) with (2 ^ Z.succ (Z.log2 k) * 2 ^ (23 - Z.log2 k))
    by (rewrite <- Z.pow_add_r by lia; f_equal; lia).
  assert (0 < 2 ^ (23 - Z.log2 k)) by (apply Z.pow_pos_nonneg; lia).
  nia.
Qed.

(** Rounding [k * 2^j * 2^(-j)] gives the float32 of [k]. *)
Lemma binary_round_canon k j :
  0 < k < 2 ^ 24 → 0 ≤ j →
  binary_round prec emax false (Z.to_pos (k * 2 ^ j)) (- j) = canon k.
Proof.
  intros Hk Hj. destruct (canon_mantissa k Hk) as [HL Hm].
  assert (0 < 2 ^ j) by (apply Z.pow_pos_nonneg; lia).
  unfold binary_round, canon.
  rewrite digits2_log2, Z2Pos.id, Z.log2_mul_pow2 by nia.
  replace (fexp prec emax (j + Z.log2 k + 1 + - j)) with (Z.log2 k - 23)
    by (unfold fexp, SpecFloat.emin, prec, emax; lia).
  unfold shl_align.
  destruct (Z.log2 k - 23 - - j) as [|d|d] eqn:Hd.
  - rewrite Z2Pos.id by nia.
    replace j with (23 - Z.log2 k) by lia.
    replace (k * 2 ^ (23 - Z.log2 k)) with (k * 2 ^ (23 - Z.log2 k) * 2 ^ 0) at 1 by lia.
    rewrite round_aux_exact by lia. f_equal. lia.
  - rewrite Z2Pos.id by nia.
    replace (k * 2 ^ j) with (k * 2 ^ (23 - Z.log2 k) * 2 ^ Z.pos d).
    + rewrite round_aux_exact by lia. f_equal. lia.
    + rewrite <- Z.mul_assoc, <- Z.pow_add_r by lia. do 2 f_equal. lia.
  - rewrite pos_iter_xO, Z2Pos.id by nia.
    replace (k * 2 ^ j * 2 ^ Z.pos d) with (k * 2 ^ (23 - Z.log2 k) * 2 ^ 0).
    + rewrite round_aux_exact by lia. f_equal. lia.
    + rewrite Z.pow_0_r, Z.mul_1_r, <- Z.mul_assoc, <- Z.pow_add_r by lia.
      do 2 f_equal. lia.
Qed.

Lemma of_Z_canon k : 0 < k < 2 ^ 24 → of_Z k = canon k.
Proof.
  intros Hk. unfold of_Z. destruct k as [|p|p]; try lia.
  cbn [binary_normalize].
  rewrite <- (binary_round_canon (Z.pos p) 0) by lia.
  by rewrite Z.pow_0_r, Z.mul_1_r.
Qed.

Lemma shl_align_fst m e e' :
  e' ≤ e → Z.pos (fst (shl_align m e e')) = Z.pos m * 2 ^ (e - e').
Proof.
  intros He. unfold shl_align. destruct (e' - e) as [|d|d] eqn:Hd; simpl.
  - replace (e - e') with 0 by lia. lia.
  - lia.
  - rewrite pos_iter_xO. do 2 f_equal. lia.
Qed.

Lemma add_canon a b :
  0 < a → 0 < b → a + b < 2 ^ 24 → add (canon a) (canon b) = canon (a + b).
Proof.
  intros Ha Hb Hab.
  destruct (canon_mantissa a) as [HLa Hma]; [lia|].
  destruct (canon_mantissa b) as [HLb Hmb]; [lia|].
  unfold add, canon at 1 2, SFadd. cbn [cond_Zopp].
  set (ez := Z.min (Z.log2 a - 23) (Z.log2 b - 23)).
  rewrite !shl_align_fst, !Z2Pos.id by lia.
  rewrite <- !Z.mul_assoc, <- !Z.pow_add_r by lia.
  replace (23 - Z.log2 a + (Z.log2 a - 23 - ez)) with (- ez) by lia.
  replace (23 - Z.log2 b + (Z.log2 b - 23 - ez)) with (- ez) by lia.
  rewrite <- Z.mul_add_distr_r.
  assert (0 < 2 ^ (- ez)) by (apply Z.pow_pos_nonneg; lia).
  destruct ((a + b) * 2 ^ (- ez)) as [|p|p] eqn:Hp; try nia.
  cbn [binary_normalize].
  rewrite <- (binary_round_canon (a + b) (- ez)) by lia.
  rewrite Hp. simpl. f_equal. lia.
Qed.

(** Adding two non-negative integers is exact below [2^24]. *)
Lemma add_of_Z a b :
  0 ≤ a → 0 ≤ b → a + b < 2 ^ 24 → add (of_Z a) (of_Z b) = of_Z (a + b).
Proof.
  intros Ha Hb Hab.
  destruct (decide (a = 0)) as [->|]; [|destruct (decide (b = 0)) as [->|]].
  - destruct (decide (b = 0)) as [->|]; [done|].
    rewrite Z.add_0_l, (of_Z_canon b) by lia. done.
  - rewrite Z.add_0_r, (of_Z_canon a) by lia. done.
  - rewrite !of_Z_canon by lia. apply add_canon; lia.
Qed.
End Float32Integers.

(** ** Cells of the count accumulators *)

Section Counts.
Context {F : Type} `{Scalar F}.
Implicit Types (m : matrix F) (exs : list (Z * Z * F)).

Lemma hits_ones n r c exs :
  Forall (λ ex, ex.2 = s_one) exs →
  hits n r c exs = replicate (length (hits n r c exs)) s_one.
Proof.
  induction 1 as [|[[i j] v] exs Hv _ IH]; [done|].
  rewrite hits_cons. case_decide; [|done].
  simpl in *. by rewrite Hv, <- IH.
Qed.

Lemma org_updates_ones targets biases :
  Forall (λ ex : Z * Z * F, ex.2 = s_one) (org_updates targets biases).
Proof. unfold org_updates. apply Forall_fmap, Forall_true. done. Qed.

Lemma by_updates_ones targets biases :
  Forall (λ ex : Z * Z * F, ex.2 = s_one) (by_updates targets biases).
Proof. unfold by_updates. apply Forall_fmap, Forall_true. done. Qed.

(** The second accumulator is hit at the mirrored cell. *)
Lemma hits_by_updates n r c targets biases :
  hits n r c (by_updates targets biases) = hits n c r (org_updates targets biases).
Proof.
  unfold by_updates, org_updates.
  induction (zip targets biases) as [|[t p] l IH]; [done|].
  rewrite !fmap_cons, !hits_cons. simpl. rewrite IH.
  repeat case_decide; intuition congruence.
Qed.

Lemma valid_by_updates n targets biases :
  Forall (valid n) (by_updates targets biases)
  ↔ Forall (valid n) (org_updates targets biases).
Proof.
  unfold by_updates, org_updates, valid. rewrite !Forall_fmap.
  apply Forall_iff. intros [t p]. simpl. tauto.
Qed.

(** In-range labels address the cell they name. *)
Lemma valid_org_updates (n : Z) targets biases :
  Forall (in_range n) targets → Forall (in_range n) biases →
  Forall (valid (Z.to_nat n)) (org_updates targets biases).
Proof.
  intros Ht. revert biases. unfold org_updates.
  induction Ht as [|t ts Hr _ IH]; intros [|p ps] Hb; simpl; try constructor.
  - inversion_clear Hb as [|?? Hp _]. unfold valid, in_range in *. simpl.
    rewrite !index_in_range by lia. split; by eexists.
  - apply IH. by inversion_clear Hb.
Qed.

Lemma length_hits_org_updates (n b t : Z) targets biases :
  in_range n b → in_range n t →
  Forall (in_range n) targets → Forall (in_range n) biases →
  length (hits (Z.to_nat n) (Z.to_nat b) (Z.to_nat t) (org_updates (F:=F) targets biases))
  = count b t targets biases.
Proof.
  intros Hb Ht Hts. revert biases. unfold org_updates, count.
  induction Hts as [|t' ts Hr _ IH]; intros [|p ps] Hps; simpl; try done.
  inversion_clear Hps as [|?? Hp Hps'].
  rewrite hits_cons, filter_cons. simpl. unfold in_range in *.
  rewrite !index_in_range by lia.
  destruct (decide (p = b ∧ t' = t)) as [[-> ->]|Hne].
  - rewrite decide_True by done. simpl. f_equal. by apply IH.
  - rewrite decide_False; [by apply IH|].
    intros [[=]%(inj Some) [=]%(inj Some)]. lia.
Qed.

(** The value of [get_confusion_matrix] on a valid input, cell by cell. *)
Lemma confusion_value_cells (n : Z) targets biases :
  0 ≤ n → Forall (valid (Z.to_nat n)) (org_updates targets biases) →
  ∃ raw raw_by,
    confusion_value n targets biases
      = Some (raw, row_normalize raw, row_normalize raw_by)
    ∧ square (Z.to_nat n) raw ∧ square (Z.to_nat n) raw_by
    ∧ (∀ r c, (r < Z.to_nat n)%nat → (c < Z.to_nat n)%nat →
        cell raw r c
        = Some (count_float (length (hits (Z.to_nat n) r c (org_updates targets biases)))))
    ∧ (∀ r c, (r < Z.to_nat n)%nat → (c < Z.to_nat n)%nat →
        cell raw_by r c = cell raw c r).
Proof.
  intros Hn Hv. unfold confusion_value. rewrite decide_True by done.
  destruct (accumulate_is_Some _ _ _ (square_zeros (Z.to_nat n)) Hv) as [raw Hraw].
  destruct (accumulate_is_Some _ _ _ (square_zeros (Z.to_nat n))
              (proj2 (valid_by_updates _ targets biases) Hv)) as [raw_by Hby].
  rewrite Hraw, Hby. simpl. exists raw, raw_by.
  destruct (accumulate_cell _ _ _ _ (square_zeros _) Hraw) as [Hsq Hc].
  destruct (accumulate_cell _ _ _ _ (square_zeros _) Hby) as [Hsq' Hc'].
  assert (∀ r c, (r < Z.to_nat n)%nat → (c < Z.to_nat n)%nat →
    cell raw r c
    = Some (count_float (length (hits (Z.to_nat n) r c (org_updates targets biases)))))
    as Hcells.
  { intros r c Hr Hcn. rewrite (Hc r c s_zero) by by apply cell_zeros.
    rewrite (hits_ones _ _ _ _ (org_updates_ones targets biases)) at 1. done. }
  do 4 (split; [done|]).
  intros r c Hr Hcn. rewrite (Hc' r c s_zero) by by apply cell_zeros.
  rewrite Hcells by done. rewrite hits_by_updates.
  rewrite (hits_ones _ _ _ _ (org_updates_ones targets biases)) at 1. done.
Qed.
End Counts.

(** ** Counting in float32 *)

Section Float32Counts.
Import B32.

Lemma count_float_S {F} `{Scalar F} (k : nat) :
  count_float (S k) = s_add (count_float k) s_one.
Proof. unfold count_float. by rewrite replicate_S_end, foldl_snoc. Qed.

Lemma one_of_Z : one = of_Z 1.
Proof. reflexivity. Qed.

Lemma add_one_top : add (of_Z (max_count - 1)) one = of_Z max_count.
Proof. vm_compute. reflexivity. Qed.

Lemma add_one_saturated : add (of_Z max_count) one = of_Z max_count.
Proof. vm_compute. reflexivity. Qed.

(** Up to [2^24] hits the count is exact. *)
Lemma count_float_exact (k : nat) :
  Z.of_nat k ≤ max_count → count_float k = of_Z (Z.of_nat k).
Proof.
  unfold max_count. induction k as [|k IH]; intros Hk; [done|].
  rewrite count_float_S, IH by lia. cbn [s_add s_one float32_scalar].
  destruct (decide (Z.of_nat (S k) = 2 ^ 24)) as [Htop|Hlt].
  - rewrite Htop. replace (Z.of_nat k) with (max_count - 1) by (unfold max_count; lia).
    apply add_one_top.
  - rewrite one_of_Z, add_of_Z by lia. f_equal. lia.
Qed.

(** From there on it stays at [2^24]: adding one rounds back. *)
Lemma count_float_saturated (k : nat) :
  max_count ≤ Z.of_nat k → count_float k = of_Z max_count.
Proof.
  induction k as [|k IH]; intros Hk; [unfold max_count in Hk; lia|].
  destruct (decide (Z.of_nat (S k) = max_count)) as [Htop|Hlt].
  - rewrite <- Htop. apply count_float_exact. lia.
  - rewrite count_float_S, IH by lia. apply add_one_saturated.
Qed.

Lemma count_float_min (k : nat) :
  count_float k = of_Z (Z.min (Z.of_nat k) max_count).
Proof.
  destruct (decide (Z.of_nat k ≤ max_count)).
  - rewrite Z.min_l by done. by apply count_float_exact.
  - rewrite Z.min_r by lia. apply count_float_saturated. lia.
Qed.

Lemma to_Z_canon k : 0 < k < 2 ^ 24 → to_Z (canon k) = Some k.
Proof.
  intros Hk. destruct (canon_mantissa k Hk) as [HL Hm].
  unfold to_Z, canon. rewrite Z2Pos.id by lia. cbn [cond_Zopp].
  case_decide as He.
  - replace (Z.log2 k - 23) with 0 by lia.
    replace (23 - Z.log2 k) with 0 by lia. f_equal. lia.
  - replace (- (Z.log2 k - 23)) with (23 - Z.log2 k) by lia.
    rewrite Z_mod_mult, decide_True by done.
    rewrite Z_div_mult by (apply Z.lt_gt, Z.pow_pos_nonneg; lia). done.
Qed.

Lemma to_Z_of_Z k : 0 ≤ k ≤ max_count → to_Z (of_Z k) = Some k.
Proof.
  unfold max_count. intros Hk.
  destruct (decide (k = 0)) as [->|]; [done|].
  destruct (decide (k = 2 ^ 24)) as [->|]; [by vm_compute|].
  rewrite of_Z_canon by lia. apply to_Z_canon. lia.
Qed.

(** A cell that was hit is not zero. *)
Lemma count_float_nonzero (k : nat) : (0 < k)%nat → eqb (count_float k) zero = false.
Proof.
  intros Hk. rewrite count_float_min.
  destruct (decide (Z.of_nat k < max_count)).
  - rewrite Z.min_l, of_Z_canon by (unfold max_count in *; lia). done.
  - rewrite Z.min_r by lia. by vm_compute.
Qed.
End Float32Counts.

(** ** The entries of the count tensor and their sum *)

Section Totals.
Import B32.

Lemma sum_Z_app xs ys :
  sum_Z (xs ++ ys) = z1 ← sum_Z xs; z2 ← sum_Z ys; Some (z1 + z2).
Proof.
  induction xs as [|x xs IH]; simpl.
  - destruct (sum_Z ys); simpl; f_equal; lia.
  - rewrite IH. destruct (to_Z x), (sum_Z xs), (sum_Z ys); simpl; f_equal; lia.
Qed.

Lemma sum_Z_counts {A} (f : A → nat) (l : list A) :
  (∀ x, x ∈ l → Z.of_nat (f x) ≤ max_count) →
  sum_Z ((λ x, of_Z (Z.of_nat (f x))) <$> l) = Some (Z.of_nat (sum_list (f <$> l))).
Proof.
  induction l as [|x l IH]; intros Hle; [done|].
  rewrite !fmap_cons. cbn [sum_Z foldr sum_list sum_list_with].
  fold (sum_Z ((λ x, of_Z (Z.of_nat (f x))) <$> l)).
  rewrite to_Z_of_Z by (split; [lia|apply Hle; left]).
  rewrite IH by (intros y Hy; apply Hle; by right). simpl. f_equal. lia.
Qed.

(** A square matrix is the table of its cells. *)
Lemma matrix_tabulate {A} n (m : matrix A) (g : nat → nat → A) :
  length m = n → (∀ row, row ∈ m → length row = n) →
  (∀ r c, (r < n)%nat → (c < n)%nat → cell m r c = Some (g r c)) →
  m = (λ r, g r <$> seq 0 n) <$> seq 0 n.
Proof.
  intros Hlen Hrows Hcell. apply (matrix_eq n); try done.
  - by rewrite length_fmap, length_seq.
  - intros row (r & -> & _)%list_elem_of_fmap. by rewrite length_fmap, length_seq.
  - intros r c Hr Hc. rewrite Hcell by done. unfold cell.
    rewrite list_lookup_fmap, lookup_seq_lt by done. simpl.
    by rewrite list_lookup_fmap, lookup_seq_lt by done.
Qed.

Lemma total_Z_counts n (cnt : nat → nat → nat) (rows : list nat) :
  (∀ r c, Z.of_nat (cnt r c) ≤ max_count) →
  total_Z ((λ r, (λ c, of_Z (Z.of_nat (cnt r c))) <$> seq 0 n) <$> rows)
  = Some (Z.of_nat (sum_list ((λ r, sum_list (cnt r <$> seq 0 n)) <$> rows))).
Proof.
  intros Hle. unfold total_Z. induction rows as [|r rows IH]; [done|].
  rewrite !fmap_cons. cbn [concat sum_list sum_list_with].
  rewrite sum_Z_app, IH, sum_Z_counts by (intros; apply Hle). simpl. f_equal. lia.
Qed.

Lemma sum_list_indicator (k0 a s n : nat) :
  sum_list ((λ k, if decide (k = k0) then a else 0%nat) <$> seq s n)
  = if decide (s ≤ k0 < s + n)%nat then a else 0%nat.
Proof.
  revert s. induction n as [|n IH]; intros s.
  - simpl. rewrite decide_False by lia. done.
  - cbn [seq fmap list_fmap sum_list sum_list_with].
    change (list_fmap nat nat ?f ?l) with (f <$> l). rewrite IH. unfold id.
    repeat case_decide; lia.
Qed.

Lemma sum_list_fmap_add {A} (f g : A → nat) (l : list A) :
  sum_list ((λ x, f x + g x)%nat <$> l)
  = (sum_list (f <$> l) + sum_list (g <$> l))%nat.
Proof.
  induction l as [|x l IH]; [done|].
  rewrite !fmap_cons. cbn [sum_list_with]. rewrite IH. unfold id. lia.
Qed.

Lemma sum_list_fmap_ext {A} (f g : A → nat) (l : list A) :
  (∀ x, x ∈ l → f x = g x) → sum_list (f <$> l) = sum_list (g <$> l).
Proof.
  intros Hfg. f_equal. apply list_fmap_ext. intros i x Hx. apply Hfg.
  by eapply list_elem_of_lookup_2.
Qed.

Lemma sum_list_fmap_zero {A} (l : list A) : sum_list ((λ _, 0%nat) <$> l) = 0%nat.
Proof. induction l as [|x l IH]; [done|]. rewrite fmap_cons. cbn [sum_list_with]. by rewrite IH. Qed.

Lemma in_range_zip n targets biases :
  Forall (in_range n) targets → Forall (in_range n) biases →
  Forall (λ x : Z * Z, in_range n x.1 ∧ in_range n x.2) (zip targets biases).
Proof.
  intros Hts. revert biases.
  induction Hts as [|t ts Ht _ IH]; intros [|p ps] Hps; simpl; try constructor.
  - split; [done|]. by inversion_clear Hps.
  - apply IH. by inversion_clear Hps.
Qed.

Lemma count_partition_pairs (n : nat) (l : list (Z * Z)) :
  Forall (λ x : Z * Z, in_range (Z.of_nat n) x.1 ∧ in_range (Z.of_nat n) x.2) l →
  sum_list ((λ r, sum_list ((λ c,
      length (filter (λ x : Z * Z, x.2 = Z.of_nat r ∧ x.1 = Z.of_nat c) l))
    <$> seq 0 n)) <$> seq 0 n)
  = length l.
Proof.
  induction 1 as [|[t p] l [Ht Hp] _ IH]; simpl length.
  { rewrite (sum_list_fmap_ext _ (λ _, 0%nat)); [apply sum_list_fmap_zero|].
    intros r _. apply sum_list_fmap_zero. }
  unfold in_range in *. simpl in Ht, Hp.
  rewrite (sum_list_fmap_ext _ (λ r,
    (if decide (r = Z.to_nat p) then 1 else 0)
    + sum_list ((λ c, length (filter (λ x : Z * Z, x.2 = Z.of_nat r ∧ x.1 = Z.of_nat c) l))
                  <$> seq 0 n))%nat).
  - rewrite sum_list_fmap_add, sum_list_indicator, decide_True, IH by lia. done.
  - intros r _.
    rewrite (sum_list_fmap_ext _ (λ c,
      (if decide (c = Z.to_nat t) then if decide (r = Z.to_nat p) then 1 else 0 else 0)
      + length (filter (λ x : Z * Z, x.2 = Z.of_nat r ∧ x.1 = Z.of_nat c) l))%nat).
    + rewrite sum_list_fmap_add, sum_list_indicator, decide_True by lia. done.
    + intros c _. rewrite filter_cons. simpl. repeat case_decide; simpl; lia.
Qed.

(** Every example falls in exactly one cell: the counts add up to the
    number of examples. *)
Lemma count_partition (n : nat) targets biases :
  Forall (in_range (Z.of_nat n)) targets → Forall (in_range (Z.of_nat n)) biases →
  sum_list ((λ r, sum_list ((λ c, count (Z.of_nat r) (Z.of_nat c) targets biases)
                              <$> seq 0 n)) <$> seq 0 n)
  = length (zip targets biases).
Proof.
  intros Hts Hbs. unfold count. apply count_partition_pairs. by apply in_range_zip.
Qed.
End Totals.

(** ** Cells of the derived tensors *)

Section Derived.
Context {F : Type} `{Scalar F}.
Implicit Types (m : matrix F) (exs : list (Z * Z * F)).

Lemma cell_fmap {A B} (f : A → B) (m : matrix A) r c :
  cell ((λ row : list A, f <$> row) <$> m) r c = f <$> cell m r c.
Proof.
  unfold cell. rewrite list_lookup_fmap.
  destruct (m !! r) as [row|]; [simpl|done]. by rewrite list_lookup_fmap.
Qed.

Lemma cell_zip_with {A B C} (f : A → B → C) (a : matrix A) (b : matrix B) r c :
  cell (zip_with (zip_with f) a b) r c
  = x ← cell a r c; y ← cell b r c; Some (f x y).
Proof.
  unfold cell. rewrite lookup_zip_with.
  destruct (a !! r) as [ra|]; [simpl|done].
  destruct (b !! r) as [rb|]; simpl.
  - by rewrite lookup_zip_with.
  - by destruct (ra !! c).
Qed.

Lemma div_row_same_length (ra rb : list F) :
  length ra = length rb → div_row ra rb = zip_with s_div ra rb.
Proof.
  intros Hlen. destruct rb as [|d [|]]; try done.
  by destruct ra as [|a [|]].
Qed.

Lemma div_matrix_square n (a b : matrix F) :
  square n a → square n b → div_matrix a b = zip_with (zip_with s_div) a b.
Proof.
  intros [La Ra%list.Forall_forall] [Lb Rb%list.Forall_forall]. unfold div_matrix.
  clear La Lb. revert b Rb.
  induction Ra as [|ra a Hra _ IH]; intros b Rb; [done|].
  destruct Rb as [|rb b Hrb Rb]; [done|]. simpl.
  rewrite div_row_same_length by congruence. f_equal. by apply IH.
Qed.

Lemma square_fmap {A B} n (f : A → B) (m : matrix A) :
  square n m → square n ((λ row : list A, f <$> row) <$> m).
Proof.
  intros [Hl Hr]. split; [by rewrite length_fmap|].
  intros row (row' & -> & Hin)%list_elem_of_fmap. rewrite length_fmap. by apply Hr.
Qed.

Lemma square_zip_with {A B C} n (f : A → B → C) (a : matrix A) (b : matrix B) :
  square n a → square n b → square n (zip_with (zip_with f) a b).
Proof.
  intros [La Ra] [Lb Rb]. split; [rewrite length_zip_with; lia|].
  intros row (ra & rb & -> & Hra & Hrb)%elem_of_zip_with.
  rewrite length_zip_with, (Ra _ Hra), (Rb _ Hrb). lia.
Qed.

Lemma square_surprise n (wsum cnt : matrix F) :
  square n wsum → square n cnt →
  square n (safe_count cnt) ∧ square n (surprise wsum cnt).
Proof.
  intros Hw Hk.
  assert (square n (safe_count cnt)) as Hsafe
    by (apply square_zip_with; [done|by apply square_fmap]).
  split; [done|].
  unfold surprise, mean_weight, zero_mask. rewrite (div_matrix_square n) by done.
  repeat first [apply square_zip_with | apply square_fmap]; done.
Qed.

(** The surprise tensor, cell by cell: the mask decides, then two
    divisions. *)
Lemma cell_surprise n (wsum cnt : matrix F) r c w k :
  square n wsum → square n cnt →
  cell wsum r c = Some w → cell cnt r c = Some k →
  cell (surprise wsum cnt) r c
  = Some (if s_eqb w s_zero then s_zero
          else s_div s_one (s_div w (if s_eqb k s_zero then s_one else k))).
Proof.
  intros Hw Hk Hcw Hck.
  destruct (square_surprise n wsum cnt Hw Hk) as [Hsafe _].
  unfold surprise, mean_weight, fill_matrix, fill_row, rdiv_matrix, zero_mask.
  rewrite (div_matrix_square n) by done.
  rewrite cell_zip_with, cell_fmap, cell_zip_with, cell_zip_with.
  unfold safe_count, fill_matrix, fill_row, eq_matrix.
  rewrite cell_zip_with, !cell_fmap, Hcw, Hck. simpl.
  by destruct (s_eqb w s_zero).
Qed.

(** A row whose total every entry is divided by. *)
Lemma lookup_row_normalize m r row :
  m !! r = Some row →
  row_normalize m !! r = Some ((λ x, s_div x (sum_row row)) <$> row).
Proof.
  intros Hrow. unfold row_normalize, div_matrix, sum_rows.
  by rewrite lookup_zip_with, list_lookup_fmap, Hrow.
Qed.
End Derived.

(** ** Cells of the weighted accumulators *)

Section Weighted.
Context {F : Type} `{Scalar F}.

Lemma hits_fmap_in_range {A} (n b t : Z) (l : list A) (fb ft : A → Z) (fv : A → F) :
  Forall (λ x, in_range n (fb x) ∧ in_range n (ft x)) l →
  in_range n b → in_range n t →
  hits (Z.to_nat n) (Z.to_nat b) (Z.to_nat t) ((λ x, (fb x, ft x, fv x)) <$> l)
  = fv <$> filter (λ x, fb x = b ∧ ft x = t) l.
Proof.
  unfold in_range. intros Hl Hb Ht.
  induction Hl as [|x l [Hx1 Hx2] _ IH]; [done|].
  rewrite fmap_cons, hits_cons, filter_cons, !index_in_range by lia.
  destruct (decide (fb x = b ∧ ft x = t)) as [[<- <-]|Hne].
  - rewrite decide_True by done. by rewrite fmap_cons, IH.
  - rewrite decide_False; [done|].
    intros [[=]%(inj Some) [=]%(inj Some)]. lia.
Qed.

Lemma valid_fmap_in_range {A} (n : Z) (l : list A) (fb ft : A → Z) (fv : A → F) :
  Forall (λ x, in_range n (fb x) ∧ in_range n (ft x)) l →
  Forall (valid (Z.to_nat n)) ((λ x, (fb x, ft x, fv x)) <$> l).
Proof.
  intros Hl. apply Forall_fmap. eapply Forall_impl; [|exact Hl].
  unfold in_range, valid. intros x [Hb Ht]. simpl.
  rewrite !index_in_range by lia. split; by eexists.
Qed.

Lemma in_range_zip3 n targets biases (marginals : list F) :
  Forall (in_range n) targets → Forall (in_range n) biases →
  Forall (λ x : Z * (Z * F), in_range n x.2.1 ∧ in_range n x.1)
    (zip targets (zip biases marginals)).
Proof.
  intros Hts. revert biases marginals.
  induction Hts as [|t ts Ht _ IH]; intros [|p ps] [|m ms] Hps; simpl;
    try constructor.
  - split; [|done]. by inversion_clear Hps.
  - apply IH. by inversion_clear Hps.
Qed.

(** The value of [get_unsup_confusion_matrix] on a valid input: the two
    accumulators cell by cell, and the results computed from them. *)
Lemma unsup_value_cells (n : Z) targets biases (marginals : list F) :
  0 ≤ n → Forall (in_range n) targets → Forall (in_range n) biases →
  ∃ wsum cnt,
    unsup_value n targets biases marginals
      = Some (surprise wsum cnt, row_normalize (surprise wsum cnt))
    ∧ square (Z.to_nat n) wsum ∧ square (Z.to_nat n) cnt
    ∧ ∀ b t, in_range n b → in_range n t →
        cell wsum (Z.to_nat b) (Z.to_nat t)
          = Some (weighted_sum b t targets biases marginals)
        ∧ cell cnt (Z.to_nat b) (Z.to_nat t)
          = Some (count_float (occurrences b t targets biases marginals)).
Proof.
  intros Hn Hts Hbs. unfold unsup_value. rewrite decide_True by done.
  pose proof (in_range_zip3 n targets biases marginals Hts Hbs) as Hzip.
  pose proof (valid_fmap_in_range n _ (λ x, x.2.1) (λ x, x.1) (λ x, x.2.2) Hzip) as Hv.
  pose proof (valid_fmap_in_range n _ (λ x, x.2.1) (λ x, x.1) (λ _, s_one) Hzip) as Hv'.
  unfold sum_updates, cnt_updates.
  destruct (accumulate_is_Some _ _ _ (square_zeros (Z.to_nat n)) Hv) as [wsum Hw].
  destruct (accumulate_is_Some _ _ _ (square_zeros (Z.to_nat n)) Hv') as [cnt Hc].
  rewrite Hw, Hc. simpl. exists wsum, cnt.
  destruct (accumulate_cell _ _ _ _ (square_zeros _) Hw) as [Hsq Hcw].
  destruct (accumulate_cell _ _ _ _ (square_zeros _) Hc) as [Hsq' Hcc].
  do 3 (split; [done|]).
  intros b t Hb Ht.
  rewrite (Hcw _ _ s_zero), (Hcc _ _ s_zero)
    by (apply cell_zeros; unfold in_range in *; lia).
  rewrite !hits_fmap_in_range by done.
  unfold weighted_sum, count_float, occurrences, cell_marginals.
  split; [done|]. do 2 f_equal.
  rewrite length_fmap.
  induction (filter _ _) as [|x l IH]; [done|]. simpl. by rewrite <- IH.
Qed.

Lemma unsup_call_cells (n : Z) targets biases (marginals : list F) :
  0 ≤ n → Forall (in_range n) targets → Forall (in_range n) biases →
  ∃ sur,
    call2 (get_unsup_confusion_matrix n targets biases marginals)
      = Some (sur, row_normalize sur)
    ∧ square (Z.to_nat n) sur
    ∧ ∀ b t, in_range n b → in_range n t →
        cell sur (Z.to_nat b) (Z.to_nat t)
        = Some (surprise_of (weighted_sum b t targets biases marginals)
                  (count_float (occurrences b t targets biases marginals))).
Proof.
  intros Hn Hts Hbs. rewrite call_get_unsup_confusion_matrix.
  destruct (unsup_value_cells n targets biases marginals Hn Hts Hbs)
    as (wsum & cnt & -> & Hw & Hc & Hcells).
  exists (surprise wsum cnt). split; [done|].
  destruct (square_surprise _ wsum cnt Hw Hc) as [_ Hsq].
  split; [done|].
  intros b t Hb Ht. destruct (Hcells b t Hb Ht) as [Hcw Hcc].
  by rewrite (cell_surprise _ _ _ _ _ _ _ Hw Hc Hcw Hcc).
Qed.
End Weighted.

(** ** The count tensor of [get_confusion_matrix] (C1) *)

Section RawCounts.
Import B32.

(** On a valid input the call returns, and cell [(b, t)] of the first
    result is the float32 count of the examples with bias [b] and target
    [t], which stops growing at [2^24]. *)
Lemma confusion_matrix_cells (n : Z) targets biases :
  0 ≤ n → Forall (in_range n) targets → Forall (in_range n) biases →
  ∃ raw raw_by,
    call3 (get_confusion_matrix (F:=float32) n targets biases)
      = Some (raw, row_normalize raw, row_normalize raw_by)
    ∧ square (Z.to_nat n) raw ∧ square (Z.to_nat n) raw_by
    ∧ (∀ b t, in_range n b → in_range n t →
        cell raw (Z.to_nat b) (Z.to_nat t)
        = Some (of_Z (Z.min (Z.of_nat (count b t targets biases)) max_count)))
    ∧ (∀ r c, (r < Z.to_nat n)%nat → (c < Z.to_nat n)%nat →
        cell raw_by r c = cell raw c r).
Proof.
  intros Hn Hts Hbs. rewrite call_get_confusion_matrix.
  destruct (confusion_value_cells (F:=float32) n targets biases Hn
              (valid_org_updates n targets biases Hts Hbs))
    as (raw & raw_by & Hval & Hsq & Hsq' & Hcells & Hby).
  exists raw, raw_by. do 3 (split; [done|]). split; [|done].
  intros b t Hb Ht. unfold in_range in *.
  rewrite Hcells by lia.
  by rewrite length_hits_org_updates, count_float_min.
Qed.

Lemma count_le_length b t targets biases :
  (count b t targets biases ≤ length targets)%nat.
Proof.
  unfold count. etrans; [apply length_filter|].
  rewrite length_zip_with. lia.
Qed.

Lemma square_1 {A} (m : matrix A) :
  length m = 1%nat → (∀ row, row ∈ m → length row = 1%nat) →
  ∃ x, m = [[x]] ∧ cell m 0 0 = Some x.
Proof.
  intros Hlen Hrows.
  destruct m as [|row [|??]]; try done.
  specialize (Hrows row ltac:(left)).
  destruct row as [|x [|??]]; try done. by exists x.
Qed.

Lemma count_replicate (k : nat) (b t : Z) :
  count b t (replicate k t) (replicate k b) = k.
Proof.
  unfold count. rewrite zip_with_replicate.
  induction k as [|k IH]; [done|].
  rewrite replicate_S, filter_cons_True by done. simpl. by rewrite IH.
Qed.

(** With more than [2^24] examples in one cell the count reads [2^24]. *)
Lemma confusion_matrix_saturated (k : nat) :
  max_count ≤ Z.of_nat k →
  call3 (get_confusion_matrix (F:=float32) 1 (replicate k 0) (replicate k 0))
  = Some ([[of_Z max_count]], [[one]], [[one]]).
Proof.
  intros Hk.
  destruct (confusion_matrix_cells 1 (replicate k 0) (replicate k 0))
    as (raw & raw_by & -> & [Hl Hr] & [Hl' Hr'] & Hcells & Hby);
    [lia|by apply Forall_replicate..|].
  specialize (Hcells 0 0 ltac:(done) ltac:(done)).
  specialize (Hby 0%nat 0%nat ltac:(simpl; lia) ltac:(simpl; lia)).
  rewrite count_replicate, Z.min_r in Hcells by done.
  destruct (square_1 raw Hl Hr) as (x & -> & Hx).
  destruct (square_1 raw_by Hl' Hr') as (y & -> & Hy).
  change (Z.to_nat 0) with 0%nat in Hcells.
  rewrite Hy, Hx in Hby. rewrite Hx in Hcells.
  injection Hby as ->. injection Hcells as ->.
  by vm_compute.
Qed.
End RawCounts.

(** C1, as the code has it.  For [num_classes >= 0] and equal-length
    sequences of in-range targets and biases, [get_confusion_matrix]
    returns, and cell [(b, t)] of its first result [raw] is the float32 of
    [min (count, 2^24)], where [count] is the number of examples with bias [b]
    and target [t].  When there are at most [2^24] examples, every entry
    is exactly its count and the entries of [raw] sum to the number of
    examples.  On [num_classes = 2], [targets = [0,0,1,1]],
    [biases = [0,1,0,1]] the results are [[1,1],[1,1]] and
    [[0.5,0.5],[0.5,0.5]]. *)
Theorem confusion_matrix_counts (num_classes : Z) (targets biases : list Z) :
  0 ≤ num_classes → length targets = length biases →
  Forall (in_range num_classes) targets → Forall (in_range num_classes) biases →
  (∃ raw normalized normalized_by,
    call3 (get_confusion_matrix (F:=B32.float32) num_classes targets biases)
      = Some (raw, normalized, normalized_by)
    ∧ (∀ b t, in_range num_classes b → in_range num_classes t →
        cell raw (Z.to_nat b) (Z.to_nat t)
        = Some (B32.of_Z (Z.min (Z.of_nat (count b t targets biases)) B32.max_count)))
    ∧ (Z.of_nat (length targets) ≤ B32.max_count →
        (∀ b t, in_range num_classes b → in_range num_classes t →
          ∃ x, cell raw (Z.to_nat b) (Z.to_nat t) = Some x
               ∧ B32.to_Z x = Some (Z.of_nat (count b t targets biases)))
        ∧ total_Z raw = Some (Z.of_nat (length targets))))
  ∧ call3 (get_confusion_matrix (F:=B32.float32) 2 [0; 0; 1; 1] [0; 1; 0; 1])
    = Some ([[B32.of_Z 1; B32.of_Z 1]; [B32.of_Z 1; B32.of_Z 1]],
            [[B32.of_bits 1 (-1); B32.of_bits 1 (-1)];
             [B32.of_bits 1 (-1); B32.of_bits 1 (-1)]],
            [[B32.of_bits 1 (-1); B32.of_bits 1 (-1)];
             [B32.of_bits 1 (-1); B32.of_bits 1 (-1)]]).
Proof.
  intros Hn Hlen Hts Hbs. split; [|by vm_compute].
  destruct (confusion_matrix_cells num_classes targets biases Hn Hts Hbs)
    as (raw & raw_by & Hcall & Hsq & _ & Hcells & _).
  exists raw, (row_normalize raw), (row_normalize raw_by).
  split; [done|]. split; [done|]. intros Hmax.
  assert (∀ b t, Z.of_nat (count b t targets biases) ≤ B32.max_count) as Hle.
  { intros b t. pose proof (count_le_length b t targets biases). lia. }
  split.
  - intros b t Hb Ht. eexists. split; [by apply Hcells|].
    rewrite Z.min_l by done. apply to_Z_of_Z. split; [lia|done].
  - set (n := Z.to_nat num_classes).
    rewrite (matrix_tabulate n raw
               (λ r c, B32.of_Z (Z.of_nat (count (Z.of_nat r) (Z.of_nat c) targets biases)))).
    + rewrite (total_Z_counts n (λ r c, count (Z.of_nat r) (Z.of_nat c) targets biases))
        by (intros; apply Hle).
      rewrite count_partition by (unfold n; by rewrite Z2Nat.id).
      rewrite length_zip_with. do 2 f_equal. lia.
    + apply Hsq.
    + apply Hsq.
    + intros r c Hr Hc.
      pose proof (Hcells (Z.of_nat r) (Z.of_nat c)) as Hrc.
      rewrite !Nat2Z.id in Hrc. rewrite Hrc by (unfold in_range; lia).
      by rewrite Z.min_l.
Qed.

(** The hypotheses of [confusion_matrix_counts] hold on the scenario of the
    specification, where the four entries add up to the four examples. *)
Lemma confusion_matrix_counts_witness :
  (0 ≤ 2 ∧ length [0; 0; 1; 1] = length [0; 1; 0; 1]
   ∧ Forall (in_range 2) [0; 0; 1; 1] ∧ Forall (in_range 2) [0; 1; 0; 1])
  ∧ ∃ raw normalized normalized_by,
      call3 (get_confusion_matrix (F:=B32.float32) 2 [0; 0; 1; 1] [0; 1; 0; 1])
        = Some (raw, normalized, normalized_by)
      ∧ total_Z raw = Some 4.
Proof.
  assert (Forall (in_range 2) [0; 0; 1; 1]) as Hts
    by (repeat constructor; unfold in_range; lia).
  assert (Forall (in_range 2) [0; 1; 0; 1]) as Hbs
    by (repeat constructor; unfold in_range; lia).
  split; [repeat split; (lia || done)|].
  destruct (confusion_matrix_counts 2 [0; 0; 1; 1] [0; 1; 0; 1]
              ltac:(lia) eq_refl Hts Hbs)
    as [(raw & nm & nb & Hcall & _ & Hsum) _].
  exists raw, nm, nb. split; [exact Hcall|].
  apply Hsum. unfold B32.max_count. simpl. lia.
Defined.

(** C1 fails as stated: a float32 count stops at [2^24].  With
    [2^24 + 1] examples of bias [0] and target [0] and one class, the
    single entry of [raw] is [16777216], not the number [16777217] of
    examples. *)
Lemma confusion_matrix_counts_saturate :
  call3 (get_confusion_matrix (F:=B32.float32) 1
           (replicate over_max_count 0) (replicate over_max_count 0))
  = Some ([[B32.of_Z 16777216]], [[B32.one]], [[B32.one]])
  ∧ B32.to_Z (B32.of_Z 16777216) = Some 16777216
  ∧ Z.of_nat (count 0 0 (replicate over_max_count 0) (replicate over_max_count 0))
    = 16777217
  ∧ Z.of_nat (length (replicate over_max_count 0 : list Z)) = 16777217.
Proof.
  assert (Z.of_nat over_max_count = 16777217) as Hsize.
  { unfold over_max_count. rewrite Z2Nat.id; [reflexivity|].
    unfold B32.max_count. lia. }
  split; [|split; [by vm_compute|split]].
  - apply confusion_matrix_saturated. rewrite Hsize. unfold B32.max_count. lia.
  - by rewrite count_replicate.
  - by rewrite length_replicate.
Qed.

(** ** The zero mask of [get_unsup_confusion_matrix] (C2, C8) *)

Section ZeroMask.
Import B32.

Lemma eqb_zero_inv (x : float32) : eqb x zero = true → ∃ s, x = S754_zero s.
Proof.
  destruct x as [s|s| |s m e]; try done;
    [by exists s|by destruct s|by destruct s].
Qed.

Lemma add_zeros (x y : float32) :
  eqb x zero = true → eqb y zero = true → eqb (add x y) zero = true.
Proof.
  intros [s ->]%eqb_zero_inv [s' ->]%eqb_zero_inv. by destruct s, s'.
Qed.

(** A sum of zeros is zero. *)
Lemma foldl_add_zeros (xs : list float32) (acc : float32) :
  eqb acc zero = true → Forall (λ x, eqb x zero = true) xs →
  eqb (foldl add acc xs) zero = true.
Proof.
  intros Hacc Hxs. revert acc Hacc.
  induction Hxs as [|x xs Hx _ IH]; intros acc Hacc; [done|].
  simpl. apply IH. by apply add_zeros.
Qed.

Lemma occurrences_0_weighted_sum b t targets biases (marginals : list float32) :
  occurrences b t targets biases marginals = 0%nat →
  weighted_sum b t targets biases marginals = zero.
Proof.
  unfold occurrences, weighted_sum. intros Hocc%nil_length_inv. by rewrite Hocc.
Qed.

Lemma not_elem_of_occurrences b t targets biases (marginals : list float32) :
  b ∉ biases → occurrences b t targets biases marginals = 0%nat.
Proof.
  intros Hb. unfold occurrences, cell_marginals. rewrite length_fmap.
  revert biases marginals Hb.
  induction targets as [|t' ts IH]; intros [|p ps] [|m ms] Hb; try done.
  simpl zip. rewrite filter_cons_False.
  - apply IH. by apply not_elem_of_cons in Hb as [_ ?].
  - simpl. intros [-> _]. apply Hb. left.
Qed.
End ZeroMask.

(** C2.  In [get_unsup_confusion_matrix], on [num_classes >= 0] and
    in-range labels, every cell [(b, t)] into which no example falls has
    surprise [+0.0], whatever the marginals of the other examples are (they
    may be any float32, NaN and infinities included); in particular, if
    bias label [1] never occurs with [num_classes = 2], row [1] of surprise
    is [[0, 0]]. *)
Theorem unsup_zero_mask (num_classes : Z) (targets biases : list Z)
    (marginals : list B32.float32) :
  0 ≤ num_classes →
  Forall (in_range num_classes) targets → Forall (in_range num_classes) biases →
  ∃ surprise normalized,
    call2 (get_unsup_confusion_matrix num_classes targets biases marginals)
      = Some (surprise, normalized)
    ∧ (∀ b t, in_range num_classes b → in_range num_classes t →
        occurrences b t targets biases marginals = 0%nat →
        cell surprise (Z.to_nat b) (Z.to_nat t) = Some B32.zero)
    ∧ (num_classes = 2 → 1 ∉ biases →
        surprise !! 1%nat = Some [B32.zero; B32.zero]).
Proof.
  intros Hn Hts Hbs.
  destruct (unsup_call_cells num_classes targets biases marginals Hn Hts Hbs)
    as (sur & Hcall & Hsq & Hcells).
  exists sur, (row_normalize sur). split; [done|].
  assert (∀ b t, in_range num_classes b → in_range num_classes t →
    occurrences b t targets biases marginals = 0%nat →
    cell sur (Z.to_nat b) (Z.to_nat t) = Some B32.zero) as Hzero.
  { intros b t Hb Ht Hocc. rewrite Hcells by done.
    by rewrite (occurrences_0_weighted_sum _ _ _ _ _ Hocc). }
  split; [done|]. intros -> Hnot.
  pose proof (Hzero 1 0 ltac:(unfold in_range; lia) ltac:(unfold in_range; lia)
                (not_elem_of_occurrences 1 0 _ _ _ Hnot)) as H0.
  pose proof (Hzero 1 1 ltac:(unfold in_range; lia) ltac:(unfold in_range; lia)
                (not_elem_of_occurrences 1 1 _ _ _ Hnot)) as H1.
  unfold cell in H0, H1. change (Z.to_nat 1) with 1%nat in *.
  change (Z.to_nat 0) with 0%nat in *.
  destruct (sur !! 1%nat) as [row|] eqn:Hrow; [|done]. simpl in H0, H1.
  pose proof (square_lookup _ _ _ _ Hsq Hrow) as Hlen.
  destruct row as [|x [|y [|??]]]; try done.
  simpl in H0, H1. congruence.
Qed.

(** The hypotheses of [unsup_zero_mask] hold on two classes where only bias
    [0] occurs. *)
Lemma unsup_zero_mask_witness :
  ∃ surprise normalized,
    call2 (get_unsup_confusion_matrix 2 [0; 1; 1] [0; 0; 0]
             [B32.of_bits 1 (-1); B32.of_bits 3 (-2); B32.nan])
      = Some (surprise, normalized)
    ∧ surprise !! 1%nat = Some [B32.zero; B32.zero].
Proof.
  destruct (unsup_zero_mask 2 [0; 1; 1] [0; 0; 0]
              [B32.of_bits 1 (-1); B32.of_bits 3 (-2); B32.nan])
    as (sur & nm & Hcall & _ & Hrow).
  - lia.
  - repeat constructor; unfold in_range; lia.
  - repeat constructor; unfold in_range; lia.
  - exists sur, nm. split; [exact Hcall|]. apply Hrow; [reflexivity|].
    intros Hin. repeat (apply elem_of_cons in Hin as [Hin|Hin]; [discriminate|]).
    by apply elem_of_nil in Hin.
Defined.

(** C8.  The zero mask of [get_unsup_confusion_matrix] is keyed on the
    weighted sum: on a valid input, every cell whose accumulated weighted sum
    compares equal to [0] has surprise [+0.0], however often the cell
    occurred; this is so in particular when all the marginals of the cell are
    zero.  For instance two examples of marginal [0.0] in the one cell of a
    one-class call give surprise [[0]] although the count is [2]. *)
Theorem unsup_zero_weight_mask (num_classes : Z) (targets biases : list Z)
    (marginals : list B32.float32) :
  0 ≤ num_classes →
  Forall (in_range num_classes) targets → Forall (in_range num_classes) biases →
  (∃ surprise normalized,
    call2 (get_unsup_confusion_matrix num_classes targets biases marginals)
      = Some (surprise, normalized)
    ∧ ∀ b t, in_range num_classes b → in_range num_classes t →
        (B32.eqb (weighted_sum b t targets biases marginals) B32.zero = true →
         cell surprise (Z.to_nat b) (Z.to_nat t) = Some B32.zero)
        ∧ (Forall (λ m, B32.eqb m B32.zero = true)
             (cell_marginals b t targets biases marginals) →
           cell surprise (Z.to_nat b) (Z.to_nat t) = Some B32.zero))
  ∧ occurrences 0 0 [0; 0] [0; 0] [B32.zero; B32.zero] = 2%nat
  ∧ call2 (get_unsup_confusion_matrix 1 [0; 0] [0; 0] [B32.zero; B32.zero])
    = Some ([[B32.zero]], [[B32.nan]]).
Proof.
  intros Hn Hts Hbs. split; [|by vm_compute].
  destruct (unsup_call_cells num_classes targets biases marginals Hn Hts Hbs)
    as (sur & Hcall & Hsq & Hcells).
  exists sur, (row_normalize sur). split; [done|].
  intros b t Hb Ht.
  assert (B32.eqb (weighted_sum b t targets biases marginals) B32.zero = true →
          cell sur (Z.to_nat b) (Z.to_nat t) = Some B32.zero) as Hmask.
  { intros Hw. rewrite Hcells by done. unfold surprise_of.
    cbn [s_eqb s_zero float32_scalar]. by rewrite Hw. }
  split; [done|]. intros Hall. apply Hmask.
  unfold weighted_sum. cbn [s_add s_zero float32_scalar].
  by apply foldl_add_zeros.
Qed.

(** The hypotheses of [unsup_zero_weight_mask] hold where a cell occurs
    twice with marginals [+0.0] and [-0.0]. *)
Lemma unsup_zero_weight_mask_witness :
  ∃ surprise normalized,
    call2 (get_unsup_confusion_matrix 2 [1; 1; 0] [0; 0; 1]
             [B32.zero; S754_zero true; B32.one])
      = Some (surprise, normalized)
    ∧ occurrences 0 1 [1; 1; 0] [0; 0; 1] [B32.zero; S754_zero true; B32.one] = 2%nat
    ∧ cell surprise 0 1 = Some B32.zero.
Proof.
  destruct (unsup_zero_weight_mask 2 [1; 1; 0] [0; 0; 1]
              [B32.zero; S754_zero true; B32.one])
    as [(sur & nm & Hcall & Hcells) _].
  - lia.
  - repeat constructor; unfold in_range; lia.
  - repeat constructor; unfold in_range; lia.
  - exists sur, nm. split; [exact Hcall|]. split; [reflexivity|].
    apply (Hcells 0 1); [unfold in_range; lia..|].
    repeat constructor.
Defined.

(** ** Exact arithmetic *)

Section ExactArith.
Import Exact.

Lemma of_nat_S (k : nat) : of_nat (S k) = (of_nat k + 1)%Qc.
Proof.
  unfold of_nat. apply Qc_is_canon. simpl. rewrite !Qred_correct.
  rewrite Nat2Z.inj_succ, <- Z.add_1_r, inject_Z_plus. reflexivity.
Qed.

Lemma of_nat_nonzero (k : nat) : (0 < k)%nat → of_nat k ≠ 0%Qc.
Proof.
  intros Hk Heq. apply (f_equal this) in Heq. unfold of_nat in Heq. simpl in Heq.
  assert (inject_Z (Z.of_nat k) == 0)%Q as Hq by (by rewrite <- Qred_correct, Heq).
  unfold Qeq in Hq. simpl in Hq. lia.
Qed.

Lemma exact_count_float (k : nat) : count_float k = Some (of_nat k).
Proof.
  induction k as [|k IH]; [by apply (f_equal Some), Qc_is_canon|].
  rewrite count_float_S, IH. cbn [s_add s_one exact_scalar add].
  by rewrite of_nat_S.
Qed.

(** The reciprocal of the mean is the count over the sum. *)
Lemma div_div_exact (w : num) (k : Qc) :
  k ≠ 0%Qc → eqb w (Some 0%Qc) = false →
  div (Some 1%Qc) (div w (Some k)) = div (Some k) w.
Proof.
  intros Hk Hw. destruct w as [w|]; [|done]. simpl in *.
  apply bool_decide_eq_false in Hw.
  rewrite !decide_False; try done.
  - f_equal. field. done.
  - intros Hz. apply Hw.
    rewrite <- (Qcmult_div_r w k Hk), Hz. ring.
Qed.
End ExactArith.

(** ** The surprise of a cell that is not masked (C3) *)

Section Reciprocal.

(** A cell whose weighted sum is not zero has occurred. *)
Lemma weighted_sum_nonzero_occurs {F} `{Scalar F} b t targets biases
    (marginals : list F) :
  s_eqb (s_zero : F) s_zero = true →
  s_eqb (weighted_sum b t targets biases marginals) s_zero = false →
  (0 < occurrences b t targets biases marginals)%nat.
Proof.
  intros Hzero Hw. unfold occurrences, weighted_sum in *.
  destruct (cell_marginals b t targets biases marginals); simpl in *; [congruence|lia].
Qed.

Lemma surprise_of_float32 (w : B32.float32) (k : nat) :
  (0 < k)%nat → B32.eqb w B32.zero = false →
  surprise_of w (count_float k) = B32.div B32.one (B32.div w (count_float k)).
Proof.
  intros Hk Hw. unfold surprise_of. cbn [s_eqb s_zero s_div s_one float32_scalar].
  by rewrite Hw, count_float_nonzero.
Qed.

Lemma surprise_of_exact (w : Exact.num) (k : nat) :
  (0 < k)%nat → Exact.eqb w (Some 0%Qc) = false →
  surprise_of w (count_float k) = Exact.div (count_float k) w.
Proof.
  intros Hk Hw. unfold surprise_of. cbn [s_eqb s_zero s_div s_one exact_scalar].
  rewrite Hw, exact_count_float. cbn [Exact.eqb].
  rewrite bool_decide_eq_false_2 by by apply of_nat_nonzero.
  apply div_div_exact; [by apply of_nat_nonzero|done].
Qed.
End Reciprocal.

(** C3, as the code has it.  On a valid input, for every cell whose
    accumulated weighted sum is nonzero, the cell has occurred and its
    surprise is the reciprocal of the mean marginal, computed by two rounded
    float32 divisions: [1 / (weighted_sum / count)], where [count] is the
    float32 count of the cell (the number of its examples, up to [2^24]).
    With exact rational arithmetic in place of float32 the same program gives
    [count / weighted_sum]. *)
Theorem unsup_surprise_reciprocal (num_classes : Z) (targets biases : list Z) :
  0 ≤ num_classes →
  Forall (in_range num_classes) targets → Forall (in_range num_classes) biases →
  (∀ marginals : list B32.float32,
    ∃ surprise normalized,
      call2 (get_unsup_confusion_matrix num_classes targets biases marginals)
        = Some (surprise, normalized)
      ∧ ∀ b t, in_range num_classes b → in_range num_classes t →
          B32.eqb (weighted_sum b t targets biases marginals) B32.zero = false →
          (0 < occurrences b t targets biases marginals)%nat
          ∧ cell surprise (Z.to_nat b) (Z.to_nat t)
            = Some (B32.div B32.one
                      (B32.div (weighted_sum b t targets biases marginals)
                         (B32.of_Z
                            (Z.min (Z.of_nat (occurrences b t targets biases marginals))
                               B32.max_count)))))
  ∧ (∀ marginals : list Exact.num,
    ∃ surprise normalized,
      call2 (get_unsup_confusion_matrix num_classes targets biases marginals)
        = Some (surprise, normalized)
      ∧ ∀ b t, in_range num_classes b → in_range num_classes t →
          Exact.eqb (weighted_sum b t targets biases marginals) (Some 0%Qc) = false →
          cell surprise (Z.to_nat b) (Z.to_nat t)
          = Some (Exact.div
                    (Some (Exact.of_nat (occurrences b t targets biases marginals)))
                    (weighted_sum b t targets biases marginals))).
Proof.
  intros Hn Hts Hbs. split; intros marginals.
  - destruct (unsup_call_cells num_classes targets biases marginals Hn Hts Hbs)
      as (sur & Hcall & Hsq & Hcells).
    exists sur, (row_normalize sur). split; [done|].
    intros b t Hb Ht Hw.
    pose proof (weighted_sum_nonzero_occurs b t targets biases marginals
                  eq_refl Hw) as Hocc.
    split; [done|]. rewrite Hcells by done. f_equal.
    rewrite <- count_float_min. by apply surprise_of_float32.
  - destruct (unsup_call_cells num_classes targets biases marginals Hn Hts Hbs)
      as (sur & Hcall & Hsq & Hcells).
    exists sur, (row_normalize sur). split; [done|].
    intros b t Hb Ht Hw.
    pose proof (weighted_sum_nonzero_occurs b t targets biases marginals
                  eq_refl Hw) as Hocc.
    rewrite Hcells by done. f_equal.
    rewrite <- exact_count_float. by apply surprise_of_exact.
Qed.

(** The hypotheses of [unsup_surprise_reciprocal] hold on three examples in
    one cell with marginals [1/4], [1/4] and [5/16]: in exact arithmetic the
    surprise is [3 / (13/16) = 48/13]. *)
Lemma unsup_surprise_reciprocal_witness :
  ∃ surprise normalized,
    call2 (get_unsup_confusion_matrix 1 [0; 0; 0] [0; 0; 0]
             [Some (Q2Qc (1 # 4)); Some (Q2Qc (1 # 4)); Some (Q2Qc (5 # 16))])
      = Some (surprise, normalized)
    ∧ cell surprise 0 0 = Some (Some (Q2Qc (48 # 13))).
Proof.
  destruct (unsup_surprise_reciprocal 1 [0; 0; 0] [0; 0; 0])
    as [_ Hexact].
  - lia.
  - repeat constructor; unfold in_range; lia.
  - repeat constructor; unfold in_range; lia.
  - destruct (Hexact [Some (Q2Qc (1 # 4)); Some (Q2Qc (1 # 4)); Some (Q2Qc (5 # 16))])
      as (sur & nm & Hcall & Hcells).
    exists sur, nm. split; [exact Hcall|].
    change (cell sur 0 0) with (cell sur (Z.to_nat 0) (Z.to_nat 0)).
    rewrite (Hcells 0 0); [|unfold in_range; lia..|by vm_compute].
    reflexivity.
Defined.

(** C3 fails as stated in float32: with three examples of marginals
    [1/4], [1/4] and [5/16] in one cell, the weighted sum is [13/16] and the
    count [3]; the program returns [1 / (0.8125 / 3) = 15486660 * 2^-22]
    (3.6923075), while [3 / 0.8125] is [15486661 * 2^-22] (3.6923077). *)
Lemma unsup_surprise_double_rounding :
  call2 (get_unsup_confusion_matrix 1 [0; 0; 0] [0; 0; 0]
           [B32.of_bits 1 (-2); B32.of_bits 1 (-2); B32.of_bits 5 (-4)])
  = Some ([[S754_finite false 15486660 (-22)]], [[B32.one]])
  ∧ weighted_sum 0 0 [0; 0; 0] [0; 0; 0]
      [B32.of_bits 1 (-2); B32.of_bits 1 (-2); B32.of_bits 5 (-4)]
    = B32.of_bits 13 (-4)
  ∧ occurrences 0 0 [0; 0; 0] [0; 0; 0]
      [B32.of_bits 1 (-2); B32.of_bits 1 (-2); B32.of_bits 5 (-4)] = 3%nat
  ∧ B32.div (B32.of_Z 3) (B32.of_bits 13 (-4)) = S754_finite false 15486661 (-22)
  ∧ S754_finite false 15486660 (-22) ≠ S754_finite false 15486661 (-22).
Proof. repeat split; by vm_compute. Qed.

(** ** Rows of the normalized tensors *)

Section Rows.
Context {F : Type} `{Scalar F}.

(** A row of a square matrix is the list of its cells. *)
Lemma row_of_cells n (m : matrix F) r (g : nat → F) :
  square n m → (r < n)%nat →
  (∀ c, (c < n)%nat → cell m r c = Some (g c)) →
  m !! r = Some (g <$> seq 0 n).
Proof.
  intros Hsq Hr Hcells.
  destruct (lookup_lt_is_Some_2 m r) as [row Hrow]; [by rewrite (proj1 Hsq)|].
  rewrite Hrow. f_equal. apply (list_eq_same_length _ _ n).
  - by rewrite length_fmap, length_seq.
  - by eapply square_lookup.
  - intros c x y Hc Hx Hy. specialize (Hcells c Hc). unfold cell in Hcells.
    rewrite Hrow in Hcells. simpl in Hcells.
    rewrite list_lookup_fmap, lookup_seq_lt in Hy by done. simpl in Hy. congruence.
Qed.

Lemma fmap_const_seq (x : F) n : (λ _, x) <$> seq 0 n = replicate n x.
Proof.
  generalize 0%nat. induction n as [|n IH]; intros k; [done|].
  simpl. f_equal. apply IH.
Qed.
End Rows.

Section NaNRows.
Import B32.

Lemma sum_row_zeros n : sum_row (replicate n zero) = zero.
Proof.
  unfold sum_row. induction n as [|n IH]; [done|].
  by rewrite replicate_S_end, foldl_snoc, IH.
Qed.

(** A row of zeros is normalized to a row of NaN: [0 / 0]. *)
Lemma row_normalize_zeros n (m : matrix float32) r :
  m !! r = Some (replicate n zero) →
  row_normalize m !! r = Some (replicate n nan).
Proof.
  intros Hrow. rewrite (lookup_row_normalize _ _ _ Hrow).
  by rewrite sum_row_zeros, fmap_replicate.
Qed.

Lemma not_elem_of_count_bias b t targets biases :
  b ∉ biases → count b t targets biases = 0%nat.
Proof.
  intros Hb. unfold count. revert biases Hb.
  induction targets as [|t' ts IH]; intros [|p ps] Hb; try done.
  simpl zip. rewrite filter_cons_False.
  - apply IH. by apply not_elem_of_cons in Hb as [_ ?].
  - simpl. intros [-> _]. apply Hb. left.
Qed.

Lemma not_elem_of_count_target b t targets biases :
  t ∉ targets → count b t targets biases = 0%nat.
Proof.
  intros Ht. unfold count. revert biases.
  induction targets as [|t' ts IH]; intros [|p ps]; try done.
  simpl zip. rewrite filter_cons_False.
  - apply IH. by apply not_elem_of_cons in Ht as [_ ?].
  - simpl. intros [_ ->]. apply Ht. left.
Qed.
End NaNRows.

(** C5, as the code has it.  In [get_confusion_matrix], on a valid input, a
    class [b] that never appears as a bias has an all-zero row in [raw]
    and that row of [normalized] is all NaN ([0 / 0], nothing guards the
    division); likewise a class that never appears as a target has an
    all-NaN row in [normalized_by]. *)
Theorem confusion_zero_row_nan (num_classes : Z) (targets biases : list Z) :
  0 ≤ num_classes →
  Forall (in_range num_classes) targets → Forall (in_range num_classes) biases →
  ∃ raw normalized normalized_by,
    call3 (get_confusion_matrix num_classes targets biases)
      = Some (raw, normalized, normalized_by)
    ∧ (∀ b, in_range num_classes b → b ∉ biases →
        raw !! Z.to_nat b = Some (replicate (Z.to_nat num_classes) B32.zero)
        ∧ normalized !! Z.to_nat b
          = Some (replicate (Z.to_nat num_classes) B32.nan))
    ∧ (∀ t, in_range num_classes t → t ∉ targets →
        normalized_by !! Z.to_nat t
        = Some (replicate (Z.to_nat num_classes) B32.nan)).
Proof.
  intros Hn Hts Hbs.
  destruct (confusion_matrix_cells num_classes targets biases Hn Hts Hbs)
    as (raw & raw_by & Hcall & Hsq & Hsq' & Hcells & Hby).
  exists raw, (row_normalize raw), (row_normalize raw_by). split; [done|].
  split.
  - intros b Hb Hnot.
    assert (raw !! Z.to_nat b = Some (replicate (Z.to_nat num_classes) B32.zero))
      as Hrow.
    { rewrite <- fmap_const_seq.
      apply row_of_cells; [done|unfold in_range in *; lia|].
      intros c Hc. pose proof (Hcells b (Z.of_nat c)) as Hbc.
      rewrite Nat2Z.id in Hbc. rewrite Hbc by (unfold in_range in *; lia).
      by rewrite not_elem_of_count_bias. }
    split; [done|]. by apply row_normalize_zeros.
  - intros t Ht Hnot. apply row_normalize_zeros.
    rewrite <- fmap_const_seq.
    apply row_of_cells; [done|unfold in_range in *; lia|].
    intros c Hc. rewrite Hby by (unfold in_range in *; lia).
    pose proof (Hcells (Z.of_nat c) t) as Hct.
    rewrite Nat2Z.id in Hct. rewrite Hct by (unfold in_range in *; lia).
    by rewrite not_elem_of_count_target.
Qed.

(** The hypotheses of [confusion_zero_row_nan] hold on three classes where
    class [2] is never a bias. *)
Lemma confusion_zero_row_nan_witness :
  ∃ raw normalized normalized_by,
    call3 (get_confusion_matrix 3 [0; 2; 1] [0; 1; 1])
      = Some (raw, normalized, normalized_by)
    ∧ normalized !! 2%nat = Some [B32.nan; B32.nan; B32.nan].
Proof.
  destruct (confusion_zero_row_nan 3 [0; 2; 1] [0; 1; 1])
    as (raw & nm & nby & Hcall & Hrows & _).
  - lia.
  - repeat constructor; unfold in_range; lia.
  - repeat constructor; unfold in_range; lia.
  - exists raw, nm, nby. split; [exact Hcall|].
    apply (Hrows 2); [unfold in_range; lia|].
    intros Hin. repeat (apply elem_of_cons in Hin as [Hin|Hin]; [discriminate|]).
    by apply elem_of_nil in Hin.
Defined.

(** C5 fails as stated: with two classes and the single example
    (target [0], bias [0]), row [1] of [raw] sums to zero and row [1] of
    [normalized] (and of [normalized_by]) is [[NaN, NaN]], not [[0, 0]]. *)
Lemma confusion_zero_row_not_zero :
  call3 (get_confusion_matrix 2 [0] [0])
  = Some ([[B32.one; B32.zero]; [B32.zero; B32.zero]],
          [[B32.one; B32.zero]; [B32.nan; B32.nan]],
          [[B32.one; B32.zero]; [B32.nan; B32.nan]])
  ∧ sum_row [B32.zero; B32.zero] = B32.zero
  ∧ [B32.nan; B32.nan] ≠ [B32.zero; B32.zero].
Proof. repeat split; by vm_compute. Qed.

(** C6.  On a valid input the third result of [get_confusion_matrix] is the
    row normalization of a second accumulator [raw_by] that the loop fills at
    the swapped orientation, [raw_by[t][b] = raw[b][t]], as the second result
    is the row normalization of [raw].  It is not the transpose of the second
    result: on [targets = [0,0,1]], [biases = [0,1,1]] with two classes,
    [normalized = [[1,0],[0.5,0.5]]], whose transpose is [[1,0.5],[0,0.5]],
    and [normalized_by = [[0.5,0.5],[0,1]]]. *)
Theorem normalized_by_swapped (num_classes : Z) (targets biases : list Z) :
  0 ≤ num_classes →
  Forall (in_range num_classes) targets → Forall (in_range num_classes) biases →
  (∃ raw raw_by : matrix B32.float32,
    call3 (get_confusion_matrix num_classes targets biases)
      = Some (raw, row_normalize raw, row_normalize raw_by)
    ∧ ∀ b t, in_range num_classes b → in_range num_classes t →
        cell raw_by (Z.to_nat t) (Z.to_nat b) = cell raw (Z.to_nat b) (Z.to_nat t)
        ∧ cell raw (Z.to_nat b) (Z.to_nat t)
          = Some (B32.of_Z (Z.min (Z.of_nat (count b t targets biases))
                              B32.max_count)))
  ∧ call3 (get_confusion_matrix 2 [0; 0; 1] [0; 1; 1])
    = Some ([[B32.one; B32.zero]; [B32.one; B32.one]],
            [[B32.one; B32.zero]; [B32.of_bits 1 (-1); B32.of_bits 1 (-1)]],
            [[B32.of_bits 1 (-1); B32.of_bits 1 (-1)]; [B32.zero; B32.one]])
  ∧ transpose [[B32.one; B32.zero]; [B32.of_bits 1 (-1); B32.of_bits 1 (-1)]]
    = [[B32.one; B32.of_bits 1 (-1)]; [B32.zero; B32.of_bits 1 (-1)]]
  ∧ [[B32.of_bits 1 (-1); B32.of_bits 1 (-1)]; [B32.zero; B32.one]]
    ≠ [[B32.one; B32.of_bits 1 (-1)]; [B32.zero; B32.of_bits 1 (-1)]].
Proof.
  intros Hn Hts Hbs. split; [|repeat split; by vm_compute].
  destruct (confusion_matrix_cells num_classes targets biases Hn Hts Hbs)
    as (raw & raw_by & Hcall & Hsq & Hsq' & Hcells & Hby).
  exists raw, raw_by. split; [done|].
  intros b t Hb Ht. split; [|by apply Hcells].
  apply Hby; unfold in_range in *; lia.
Qed.

(** The hypotheses of [normalized_by_swapped] hold on the asymmetric
    example. *)
Lemma normalized_by_swapped_witness :
  ∃ raw raw_by : matrix B32.float32,
    call3 (get_confusion_matrix 2 [0; 0; 1] [0; 1; 1])
      = Some (raw, row_normalize raw, row_normalize raw_by)
    ∧ cell raw_by 0 1 = cell raw 1 0.
Proof.
  destruct (normalized_by_swapped 2 [0; 0; 1] [0; 1; 1])
    as [(raw & raw_by & Hcall & Hcells) _].
  - lia.
  - repeat constructor; unfold in_range; lia.
  - repeat constructor; unfold in_range; lia.
  - exists raw, raw_by. split; [exact Hcall|].
    apply (Hcells 1 0); unfold in_range; lia.
Defined.

(** ** Sequences of unequal length (C9) *)

Section Truncation.
Context {F : Type} `{Scalar F}.

Lemma zip_take_min {A B} (l : list A) (k : list B) :
  zip (take (length l `min` length k) l) (take (length l `min` length k) k)
  = zip l k.
Proof. by apply zip_with_take_both'. Qed.

Lemma zip3_take_min {A B C} (l : list A) (k : list B) (j : list C) :
  let n := ((length l `min` length k) `min` length j)%nat in
  zip (take n l) (zip (take n k) (take n j)) = zip l (zip k j).
Proof.
  intros n. rewrite <- zip_with_take.
  apply zip_with_take_both'; rewrite length_zip_with; lia.
Qed.

Lemma confusion_value_truncate n targets biases :
  confusion_value n targets biases
  = confusion_value n (take (length targets `min` length biases) targets)
      (take (length targets `min` length biases) biases).
Proof. unfold confusion_value, org_updates, by_updates. by rewrite zip_take_min. Qed.

Lemma unsup_value_truncate n targets biases (marginals : list F) :
  let k := ((length targets `min` length biases) `min` length marginals)%nat in
  unsup_value n targets biases marginals
  = unsup_value n (take k targets) (take k biases) (take k marginals).
Proof.
  intros k. unfold unsup_value, sum_updates, cnt_updates.
  pose proof (zip3_take_min targets biases marginals) as Hzip. simpl in Hzip.
  fold k in Hzip. by rewrite Hzip.
Qed.
End Truncation.

(** C9.  With sequences of unequal lengths both functions behave as on the
    sequences cut to the shortest length ([zip] stops there): the results are
    those of the truncated call, so the tail of a longer sequence has no
    effect, and when the labels of the examples that are left are in range
    (and [num_classes >= 0]) the call returns without an error, whatever the
    tail holds.  The examples that are left are all processed: [raw[b][t]] is
    the float32 count of the examples with bias [b] and target [t] among the
    first [k2], and the surprise of a cell is that of the marginals of its
    examples among the first [k3]. *)
Theorem zip_truncates (num_classes : Z) (targets biases : list Z)
    (marginals : list B32.float32) :
  let k2 := (length targets `min` length biases)%nat in
  let k3 := (k2 `min` length marginals)%nat in
  call3 (F:=B32.float32) (get_confusion_matrix num_classes targets biases)
  = call3 (get_confusion_matrix num_classes (take k2 targets) (take k2 biases))
  ∧ call2 (get_unsup_confusion_matrix num_classes targets biases marginals)
    = call2 (get_unsup_confusion_matrix num_classes
               (take k3 targets) (take k3 biases) (take k3 marginals))
  ∧ (0 ≤ num_classes →
     Forall (in_range num_classes) (take k2 targets) →
     Forall (in_range num_classes) (take k2 biases) →
     is_Some (call3 (F:=B32.float32)
                (get_confusion_matrix num_classes targets biases)))
  ∧ (0 ≤ num_classes →
     Forall (in_range num_classes) (take k3 targets) →
     Forall (in_range num_classes) (take k3 biases) →
     is_Some (call2 (get_unsup_confusion_matrix num_classes targets biases
                       marginals)))
  ∧ (0 ≤ num_classes →
     Forall (in_range num_classes) (take k2 targets) →
     Forall (in_range num_classes) (take k2 biases) →
     ∃ raw normalized normalized_by,
       call3 (get_confusion_matrix num_classes targets biases)
         = Some (raw, normalized, normalized_by)
       ∧ ∀ b t, in_range num_classes b → in_range num_classes t →
           cell raw (Z.to_nat b) (Z.to_nat t)
           = Some (B32.of_Z (Z.min (Z.of_nat (count b t (take k2 targets)
                                                 (take k2 biases)))
                               B32.max_count)))
  ∧ (0 ≤ num_classes →
     Forall (in_range num_classes) (take k3 targets) →
     Forall (in_range num_classes) (take k3 biases) →
     ∃ surprise normalized,
       call2 (get_unsup_confusion_matrix num_classes targets biases marginals)
         = Some (surprise, normalized)
       ∧ ∀ b t, in_range num_classes b → in_range num_classes t →
           cell surprise (Z.to_nat b) (Z.to_nat t)
           = Some (surprise_of
                     (weighted_sum b t (take k3 targets) (take k3 biases)
                        (take k3 marginals))
                     (count_float
                        (occurrences b t (take k3 targets) (take k3 biases)
                           (take k3 marginals))))).
Proof.
  intros k2 k3.
  assert (call3 (F:=B32.float32) (get_confusion_matrix num_classes targets biases)
          = call3 (get_confusion_matrix num_classes (take k2 targets) (take k2 biases)))
    as Hsup.
  { rewrite !call_get_confusion_matrix. apply confusion_value_truncate. }
  assert (call2 (get_unsup_confusion_matrix num_classes targets biases marginals)
          = call2 (get_unsup_confusion_matrix num_classes
                     (take k3 targets) (take k3 biases) (take k3 marginals)))
    as Hunsup.
  { rewrite !call_get_unsup_confusion_matrix. apply unsup_value_truncate. }
  split; [done|]. split; [done|]. split; [|split; [|split]].
  - intros Hn Hts Hbs. rewrite Hsup.
    destruct (confusion_matrix_cells num_classes _ _ Hn Hts Hbs)
      as (raw & raw_by & -> & _). by eexists.
  - intros Hn Hts Hbs. rewrite Hunsup.
    destruct (unsup_call_cells num_classes _ _ (take k3 marginals) Hn Hts Hbs)
      as (sur & -> & _). by eexists.
  - intros Hn Hts Hbs. rewrite Hsup.
    destruct (confusion_matrix_cells num_classes _ _ Hn Hts Hbs)
      as (raw & raw_by & Hcall & _ & _ & Hcells & _).
    by exists raw, (row_normalize raw), (row_normalize raw_by).
  - intros Hn Hts Hbs. rewrite Hunsup.
    destruct (unsup_call_cells num_classes _ _ (take k3 marginals) Hn Hts Hbs)
      as (sur & Hcall & _ & Hcells).
    by exists sur, (row_normalize sur).
Qed.

(** [zip_truncates] at targets longer than the biases, with an out-of-range
    label in the tail: the call returns, returns the result of the first
    two examples, and has counted both of them. *)
Lemma zip_truncates_witness :
  is_Some (call3 (F:=B32.float32) (get_confusion_matrix 2 [0; 1; 7; 9] [1; 1]))
  ∧ call3 (F:=B32.float32) (get_confusion_matrix 2 [0; 1; 7; 9] [1; 1])
    = call3 (get_confusion_matrix 2 [0; 1] [1; 1])
  ∧ ∃ raw normalized normalized_by,
      call3 (F:=B32.float32) (get_confusion_matrix 2 [0; 1; 7; 9] [1; 1])
        = Some (raw, normalized, normalized_by)
      ∧ cell raw 1 0 = Some B32.one ∧ cell raw 1 1 = Some B32.one
      ∧ cell raw 0 0 = Some B32.zero ∧ cell raw 0 1 = Some B32.zero.
Proof.
  destruct (zip_truncates 2 [0; 1; 7; 9] [1; 1] [])
    as (Heq & _ & Hsome & _ & Hcount & _).
  split; [|split; [exact Heq|]].
  { apply Hsome; [lia|repeat constructor; unfold in_range; lia..]. }
  destruct Hcount as (raw & nm & nby & Hcall & Hcells);
    [lia|repeat constructor; unfold in_range; lia..|].
  exists raw, nm, nby. split; [exact Hcall|].
  split; [|split; [|split]].
  - apply (Hcells 1 0); unfold in_range; lia.
  - apply (Hcells 1 1); unfold in_range; lia.
  - apply (Hcells 0 0); unfold in_range; lia.
  - apply (Hcells 0 1); unfold in_range; lia.
Defined.

(** ** Reordering the examples (C7) *)

Section Reorder.
Context {F : Type} `{Scalar F}.
Implicit Types (exs : list (Z * Z * F)).

(** Two loops that add the same total to every cell give the same tensor. *)
Lemma accumulate_eq_cells n exs exs' :
  exs ≡ₚ exs' →
  (∀ r c, foldl s_add s_zero (hits n r c exs) = foldl s_add s_zero (hits n r c exs')) →
  accumulate (zeros n) exs = accumulate (zeros n) exs'.
Proof.
  intros Hperm Hsame.
  destruct (decide (Forall (valid n) exs)) as [Hv|Hv].
  - assert (Forall (valid n) exs') as Hv' by by eapply Permutation_Forall.
    destruct (accumulate_is_Some _ _ _ (square_zeros n) Hv) as [m Hm].
    destruct (accumulate_is_Some _ _ _ (square_zeros n) Hv') as [m' Hm'].
    destruct (accumulate_cell _ _ _ _ (square_zeros n) Hm) as [[Hl Hr] Hc].
    destruct (accumulate_cell _ _ _ _ (square_zeros n) Hm') as [[Hl' Hr'] Hc'].
    rewrite Hm, Hm'. f_equal. apply (matrix_eq n); try done.
    intros r c Hrn Hcn.
    rewrite (Hc r c s_zero), (Hc' r c s_zero) by by apply cell_zeros.
    by rewrite Hsame.
  - rewrite (accumulate_None n _ exs (square_zeros n) Hv).
    rewrite (accumulate_None n _ exs' (square_zeros n)); [done|].
    intros Hv'. apply Hv. eapply Permutation_Forall; [|exact Hv']. by symmetry.
Qed.

Lemma hits_Permutation n r c exs exs' :
  exs ≡ₚ exs' → hits n r c exs ≡ₚ hits n r c exs'.
Proof. intros Hperm. unfold hits. by rewrite Hperm. Qed.

(** A loop of [+= 1] does not depend on the order of the examples at all. *)
Lemma accumulate_ones_Permutation n exs exs' :
  Forall (λ ex, ex.2 = s_one) exs → exs ≡ₚ exs' →
  accumulate (zeros n) exs = accumulate (zeros n) exs'.
Proof.
  intros Hones Hperm. apply accumulate_eq_cells; [done|].
  intros r c.
  assert (Forall (λ ex, ex.2 = s_one) exs') as Hones' by by eapply Permutation_Forall.
  rewrite (hits_ones n r c exs Hones), (hits_ones n r c exs' Hones').
  by rewrite (hits_Permutation n r c exs exs' Hperm).
Qed.

Lemma foldl_Permutation {A B} (f : A → B → A) (a : A) (l l' : list B) :
  (∀ a x y, f (f a x) y = f (f a y) x) →
  l ≡ₚ l' → foldl f a l = foldl f a l'.
Proof.
  intros Hf Hperm. revert a.
  induction Hperm as [|x l l' _ IH|x y l|l l' l'' _ IH1 _ IH2]; intros a; simpl.
  - done.
  - apply IH.
  - by rewrite Hf.
  - by rewrite IH1.
Qed.

Lemma confusion_value_Permutation n targets biases targets' biases' :
  zip targets' biases' ≡ₚ zip targets biases →
  confusion_value n targets' biases' = confusion_value n targets biases.
Proof.
  intros Hperm. unfold confusion_value. case_decide; [|done].
  rewrite (accumulate_ones_Permutation _ (org_updates targets' biases')
             (org_updates targets biases)).
  - rewrite (accumulate_ones_Permutation _ (by_updates targets' biases')
               (by_updates targets biases)); [done| |].
    + apply by_updates_ones.
    + unfold by_updates. by rewrite Hperm.
  - apply org_updates_ones.
  - unfold org_updates. by rewrite Hperm.
Qed.
End Reorder.

Section ReorderExact.
Import Exact.

Lemma add_swap (a x y : num) : add (add a x) y = add (add a y) x.
Proof. destruct a, x, y; simpl; try done. f_equal. ring. Qed.

Lemma unsup_value_Permutation n targets biases (marginals : list num)
    targets' biases' marginals' :
  zip targets' (zip biases' marginals') ≡ₚ zip targets (zip biases marginals) →
  unsup_value n targets' biases' marginals'
  = unsup_value n targets biases marginals.
Proof.
  intros Hperm. unfold unsup_value. case_decide; [|done].
  rewrite (accumulate_eq_cells _ (sum_updates targets' biases' marginals')
             (sum_updates targets biases marginals)).
  - rewrite (accumulate_ones_Permutation _ (cnt_updates targets' biases' marginals')
               (cnt_updates targets biases marginals)); [done| |].
    + unfold cnt_updates. apply Forall_fmap, Forall_true. done.
    + unfold cnt_updates. by rewrite Hperm.
  - unfold sum_updates. by rewrite Hperm.
  - intros r c. apply foldl_Permutation; [apply add_swap|].
    apply hits_Permutation. unfold sum_updates. by rewrite Hperm.
Qed.
End ReorderExact.

(** C7, as the code has it.  [get_confusion_matrix] returns exactly the same
    float32 results on every permutation of its examples (each cell is a
    number of steps of [+= 1]).  [get_unsup_confusion_matrix] returns the same
    results on every permutation of its examples in exact arithmetic; in
    float32 its weighted sums are rounded after each addition and depend on
    the order. *)
Theorem reorder_examples (num_classes : Z) (targets biases targets' biases' : list Z) :
  (zip targets' biases' ≡ₚ zip targets biases →
   call3 (F:=B32.float32) (get_confusion_matrix num_classes targets' biases')
   = call3 (get_confusion_matrix num_classes targets biases))
  ∧ ∀ marginals marginals' : list Exact.num,
      zip targets' (zip biases' marginals') ≡ₚ zip targets (zip biases marginals) →
      call2 (get_unsup_confusion_matrix num_classes targets' biases' marginals')
      = call2 (get_unsup_confusion_matrix num_classes targets biases marginals).
Proof.
  split.
  - intros Hperm.
    rewrite !call_get_confusion_matrix. by apply confusion_value_Permutation.
  - intros marginals marginals' Hperm3.
    rewrite !call_get_unsup_confusion_matrix. by apply unsup_value_Permutation.
Qed.

(** [reorder_examples] at a rotation of three examples. *)
Lemma reorder_examples_witness :
  call3 (F:=B32.float32) (get_confusion_matrix 2 [1; 0; 0] [1; 0; 1])
  = call3 (get_confusion_matrix 2 [0; 0; 1] [0; 1; 1])
  ∧ call2 (F:=Exact.num)
      (get_unsup_confusion_matrix 2 [1; 0; 0] [1; 0; 1]
         [Some (Q2Qc (1 # 3)); Some (Q2Qc (1 # 5)); Some (Q2Qc (1 # 7))])
    = call2 (get_unsup_confusion_matrix 2 [0; 0; 1] [0; 1; 1]
               [Some (Q2Qc (1 # 5)); Some (Q2Qc (1 # 7)); Some (Q2Qc (1 # 3))]).
Proof.
  assert (∀ {A} (x y z : A), [z; x; y] ≡ₚ [x; y; z]) as Hrot.
  { intros A x y z. change ([z] ++ [x; y] ≡ₚ [x; y] ++ [z]). apply Permutation_app_comm. }
  destruct (reorder_examples 2 [0; 0; 1] [0; 1; 1] [1; 0; 0] [1; 0; 1]) as [Hsup Hunsup].
  split; [apply Hsup|apply Hunsup]; apply Hrot.
Defined.

(** C7 fails as stated for [get_unsup_confusion_matrix] in float32: three
    examples in one cell with marginals [1], [2^-24], [2^-24] give the
    weighted sum [1] and surprise [3]; in the order [2^-24], [2^-24], [1]
    they give the weighted sum [1 + 2^-23] and surprise [12582911 * 2^-22]
    (2.9999998). *)
Lemma reorder_unsup_float32 :
  call2 (get_unsup_confusion_matrix 1 [0; 0; 0] [0; 0; 0]
           [B32.one; B32.of_bits 1 (-24); B32.of_bits 1 (-24)])
  = Some ([[B32.of_Z 3]], [[B32.one]])
  ∧ call2 (get_unsup_confusion_matrix 1 [0; 0; 0] [0; 0; 0]
             [B32.of_bits 1 (-24); B32.of_bits 1 (-24); B32.one])
    = Some ([[S754_finite false 12582911 (-22)]], [[B32.one]])
  ∧ [B32.of_bits 1 (-24); B32.of_bits 1 (-24); B32.one]
    ≡ₚ [B32.one; B32.of_bits 1 (-24); B32.of_bits 1 (-24)]
  ∧ B32.of_Z 3 ≠ S754_finite false 12582911 (-22).
Proof.
  split; [by vm_compute|]. split; [by vm_compute|]. split; [|by vm_compute].
  change ([B32.of_bits 1 (-24); B32.of_bits 1 (-24)] ++ [B32.one]
          ≡ₚ [B32.one] ++ [B32.of_bits 1 (-24); B32.of_bits 1 (-24)]).
  apply Permutation_app_comm.
Qed.

(** ** Row sums of the normalized tensors (C4) *)

(** C4 fails as stated in float32.  With counts [5], [12], [20] in row
    [0] (total [37]) the normalized row sums to [16777215 * 2^-24]
    (0.99999994), in every order of summation; and in the unsupervised
    estimator one example of marginal [2^-140] gives surprise [+inf], a
    nonzero row total, and the normalized entry [inf / inf = NaN]. *)
Lemma normalized_row_sum_float32 :
  call3 (get_confusion_matrix 3
           (replicate 5 0 ++ replicate 12 1 ++ replicate 20 2) (replicate 37 0))
  = Some ([[B32.of_Z 5; B32.of_Z 12; B32.of_Z 20];
           [B32.zero; B32.zero; B32.zero]; [B32.zero; B32.zero; B32.zero]],
          [[S754_finite false 9068765 (-26); S754_finite false 10882518 (-25);
            S754_finite false 9068765 (-24)];
           [B32.nan; B32.nan; B32.nan]; [B32.nan; B32.nan; B32.nan]],
          [[B32.one; B32.zero; B32.zero]; [B32.one; B32.zero; B32.zero];
           [B32.one; B32.zero; B32.zero]])
  ∧ sum_row [B32.of_Z 5; B32.of_Z 12; B32.of_Z 20] = B32.of_Z 37
  ∧ sum_row <$> permutations [S754_finite false 9068765 (-26);
                              S754_finite false 10882518 (-25);
                              S754_finite false 9068765 (-24)]
    = replicate 6 (B32.of_bits 16777215 (-24))
  ∧ B32.of_bits 16777215 (-24) ≠ B32.one
  ∧ call2 (get_unsup_confusion_matrix 1 [0] [0] [B32.of_bits 1 (-140)])
    = Some ([[S754_infinity false]], [[B32.nan]]).
Proof.
  repeat split; by vm_compute.
Qed.

(** ** The count accumulator after the normalization (C10) *)

(** C10.  From any store, when the loop of [get_confusion_matrix] has run,
    the rest of the function (the two normalizations) returns the location of
    the count accumulator as its first result, allocates its other two results
    at fresh, distinct locations, and leaves every tensor that existed at the
    end of the loop as it was: the first result still holds the value
    accumulated by the loop, the unnormalized counts. *)
Theorem normalization_keeps_counts (num_classes : Z) (targets biases : list Z)
    (h h1 : store B32.float32) (org org_by : loc) :
  get_confusion_matrix_loop num_classes targets biases h = Some ((org, org_by), h1) →
  ∃ normalized normalized_by h2,
    get_confusion_matrix num_classes targets biases h
      = Some ((org, normalized, normalized_by), h2)
    ∧ (∀ l t, h1 !! l = Some t → h2 !! l = Some t)
    ∧ h1 !! normalized = None ∧ h1 !! normalized_by = None
    ∧ normalized ≠ normalized_by
    ∧ read h2 org = read h1 org
    ∧ read h2 org = accumulate (zeros (Z.to_nat num_classes))
                      (org_updates targets biases).
Proof.
  rewrite get_confusion_matrix_loop_run, get_confusion_matrix_run.
  case_decide; [|done].
  destruct (accumulate _ (org_updates _ _)) as [raw|]; [|done].
  destruct (accumulate _ (by_updates _ _)) as [raw_by|]; [|done].
  intros [= <- <- <-].
  eexists _, _, _. split; [reflexivity|].
  split; [|split; [|split; [|split; [|split]]]].
  - intros l t Hl.
    change [TNum raw; TNum raw_by; TNum (sum_rows raw); TNum (row_normalize raw);
            TNum (sum_rows raw_by); TNum (row_normalize raw_by)]
      with ([TNum raw; TNum raw_by]
            ++ [TNum (sum_rows raw); TNum (row_normalize raw);
                TNum (sum_rows raw_by); TNum (row_normalize raw_by)]).
    rewrite app_assoc. by apply lookup_app_l_Some.
  - apply lookup_ge_None_2. rewrite length_app. simpl. lia.
  - apply lookup_ge_None_2. rewrite length_app. simpl. lia.
  - lia.
  - unfold read. by rewrite !lookup_ext0.
  - unfold read. by rewrite lookup_ext0.
Qed.

(** The hypothesis of [normalization_keeps_counts] holds on two examples
    run from the empty store. *)
Lemma normalization_keeps_counts_witness :
  ∃ org org_by h1 normalized normalized_by h2,
    get_confusion_matrix_loop (F:=B32.float32) 2 [0; 1] [1; 1] []
      = Some ((org, org_by), h1)
    ∧ get_confusion_matrix 2 [0; 1] [1; 1] []
      = Some ((org, normalized, normalized_by), h2)
    ∧ read h2 org = read h1 org
    ∧ read h2 org = Some [[B32.zero; B32.zero]; [B32.one; B32.one]].
Proof.
  destruct (get_confusion_matrix_loop (F:=B32.float32) 2 [0; 1] [1; 1] [])
    as [[[org org_by] h1]|] eqn:Hloop; [|by vm_compute in Hloop].
  destruct (normalization_keeps_counts 2 [0; 1] [1; 1] [] h1 org org_by Hloop)
    as (nm & nby & h2 & Hcall & _ & _ & _ & _ & Heq & Hval).
  exists org, org_by, h1, nm, nby, h2. repeat split; done.
Defined.

(** * Further properties of the two functions *)

(** ** When the calls return *)

Section Returns.
Context {F : Type} `{Scalar F}.

Lemma index_is_Some (n : nat) (i : Z) :
  is_Some (index n i) ↔ valid_label (Z.of_nat n) i.
Proof.
  unfold index, valid_label.
  destruct (decide (0 ≤ i < Z.of_nat n)); [split; [lia|by eexists]|].
  destruct (decide (- Z.of_nat n ≤ i < 0)); [split; [lia|by eexists]|].
  split; [by intros [? [=]]|lia].
Qed.

Lemma accumulate_is_Some_iff n (m : matrix F) exs :
  square n m → is_Some (accumulate m exs) ↔ Forall (valid n) exs.
Proof.
  intros Hsq. split.
  - intros Hsome. destruct (decide (Forall (valid n) exs)) as [|Hn]; [done|].
    rewrite (accumulate_None n) in Hsome by done. by destruct Hsome.
  - by apply accumulate_is_Some.
Qed.

Lemma confusion_value_is_Some (n : Z) targets biases :
  is_Some (confusion_value n targets biases)
  ↔ 0 ≤ n ∧ Forall (λ x : Z * Z, valid_label n x.1 ∧ valid_label n x.2)
              (zip targets biases).
Proof.
  unfold confusion_value. case_decide as Hn.
  2: { split; [by intros []|intros [? _]; lia]. }
  assert (Forall (valid (Z.to_nat n)) (org_updates targets biases)
          ↔ Forall (λ x : Z * Z, valid_label n x.1 ∧ valid_label n x.2)
              (zip targets biases)) as Hvalid.
  { unfold org_updates, valid. rewrite Forall_fmap. apply Forall_iff.
    intros [t p]. simpl. rewrite !index_is_Some, Z2Nat.id by done. tauto. }
  rewrite <- Hvalid.
  rewrite <- (accumulate_is_Some_iff _ (zeros (Z.to_nat n)) _ (square_zeros _)).
  split.
  - intros Hsome. split; [done|].
    destruct (accumulate _ (org_updates _ _)); [by eexists|by destruct Hsome].
  - intros [_ Hsome].
    pose proof (proj1 (accumulate_is_Some_iff _ _ _ (square_zeros _)) Hsome) as Hv.
    apply valid_by_updates in Hv.
    destruct Hsome as [raw ->].
    destruct (accumulate_is_Some _ _ _ (square_zeros (Z.to_nat n)) Hv) as [raw_by ->].
    by eexists.
Qed.

Lemma unsup_value_is_Some (n : Z) targets biases (marginals : list F) :
  is_Some (unsup_value n targets biases marginals)
  ↔ 0 ≤ n ∧ Forall (λ x : Z * (Z * F), valid_label n x.1 ∧ valid_label n x.2.1)
              (zip targets (zip biases marginals)).
Proof.
  unfold unsup_value. case_decide as Hn.
  2: { split; [by intros []|intros [? _]; lia]. }
  assert (∀ fv : Z * (Z * F) → F,
    Forall (valid (Z.to_nat n))
      ((λ x : Z * (Z * F), (x.2.1, x.1, fv x)) <$> zip targets (zip biases marginals))
    ↔ Forall (λ x : Z * (Z * F), valid_label n x.1 ∧ valid_label n x.2.1)
        (zip targets (zip biases marginals))) as Hvalid.
  { intros fv. unfold valid. rewrite Forall_fmap. apply Forall_iff.
    intros [t [p m]]. simpl. rewrite !index_is_Some, Z2Nat.id by done. tauto. }
  rewrite <- (Hvalid (λ x, x.2.2)).
  fold (sum_updates targets biases marginals).
  rewrite <- (accumulate_is_Some_iff _ (zeros (Z.to_nat n)) _ (square_zeros _)).
  split.
  - intros Hsome. split; [done|].
    destruct (accumulate _ (sum_updates _ _ _)); [by eexists|by destruct Hsome].
  - intros [_ Hsome].
    pose proof (proj1 (accumulate_is_Some_iff _ _ _ (square_zeros _)) Hsome) as Hv.
    apply (Hvalid (λ x, x.2.2)) in Hv. apply (Hvalid (λ _, s_one)) in Hv.
    fold (cnt_updates targets biases marginals) in Hv.
    destruct Hsome as [wsum ->].
    destruct (accumulate_is_Some _ _ _ (square_zeros (Z.to_nat n)) Hv) as [cnt ->].
    by eexists.
Qed.
End Returns.

(** X1.  Each function returns exactly when [num_classes] is not negative
    and every label of the zipped examples is an index torch accepts, that
    is, lies in [[-num_classes, num_classes)]; otherwise it raises. *)
Theorem calls_return_iff (num_classes : Z) (targets biases : list Z)
    (marginals : list B32.float32) :
  (is_Some (call3 (F:=B32.float32) (get_confusion_matrix num_classes targets biases))
   ↔ 0 ≤ num_classes
     ∧ Forall (λ x : Z * Z, valid_label num_classes x.1 ∧ valid_label num_classes x.2)
         (zip targets biases))
  ∧ (is_Some (call2 (get_unsup_confusion_matrix num_classes targets biases marginals))
     ↔ 0 ≤ num_classes
       ∧ Forall (λ x : Z * (Z * B32.float32),
                   valid_label num_classes x.1 ∧ valid_label num_classes x.2.1)
           (zip targets (zip biases marginals))).
Proof.
  rewrite call_get_confusion_matrix, call_get_unsup_confusion_matrix.
  split; [apply confusion_value_is_Some|apply unsup_value_is_Some].
Qed.

(** [calls_return_iff] on a label equal to [num_classes] (an error) and on
    the label [-1] (accepted). *)
Lemma calls_return_iff_witness :
  call3 (F:=B32.float32) (get_confusion_matrix 2 [0; 2] [0; 1]) = None
  ∧ is_Some (call3 (F:=B32.float32) (get_confusion_matrix 2 [0; -1] [0; 1])).
Proof.
  split.
  - destruct (call3 (F:=B32.float32) (get_confusion_matrix 2 [0; 2] [0; 1]))
      as [r|] eqn:Hcall; [exfalso|reflexivity].
    assert (is_Some (call3 (F:=B32.float32) (get_confusion_matrix 2 [0; 2] [0; 1])))
      as Hsome by (rewrite Hcall; by eexists).
    apply (proj1 (calls_return_iff 2 [0; 2] [0; 1] [])) in Hsome as [_ Hall].
    inversion_clear Hall as [|?? _ Hall'].
    inversion_clear Hall' as [|?? [Hbad _] _].
    unfold valid_label in Hbad. simpl in Hbad. lia.
  - apply (proj1 (calls_return_iff 2 [0; -1] [0; 1] [])).
    split; [lia|]. repeat constructor; unfold valid_label; simpl; lia.
Defined.

(** ** Negative labels *)

Section Wrap.
Context {F : Type} `{Scalar F}.

Lemma index_wrap (n : nat) (i : Z) :
  valid_label (Z.of_nat n) i → index n (wrap (Z.of_nat n) i) = index n i.
Proof.
  unfold index, wrap, valid_label. intros Hi.
  repeat case_decide; try lia; done.
Qed.

Lemma in_range_wrap (n i : Z) : valid_label n i → in_range n (wrap n i).
Proof. unfold valid_label, in_range, wrap. intros Hi. case_decide; lia. Qed.

Lemma iadd_matrix_index_ext n (m : matrix F) i j i' j' v :
  square n m → index n i = index n i' → index n j = index n j' →
  iadd_matrix m i j v = iadd_matrix m i' j' v.
Proof. intros Hsq Hi Hj. by rewrite !(iadd_matrix_square n), Hi, Hj by done. Qed.

(** Two loops whose updates address the same cells with the same values
    give the same tensor. *)
Lemma accumulate_index_ext n (m : matrix F) exs exs' :
  square n m →
  Forall2 (λ ex ex' : Z * Z * F,
             index n ex.1.1 = index n ex'.1.1 ∧ index n ex.1.2 = index n ex'.1.2
             ∧ ex.2 = ex'.2) exs exs' →
  accumulate m exs = accumulate m exs'.
Proof.
  intros Hsq Hall. revert m Hsq.
  induction Hall as [|[[i j] v] [[i' j'] v'] exs exs' (Hi & Hj & Hv) _ IH];
    intros m Hsq; [done|].
  simpl in *. subst v'. rewrite (iadd_matrix_index_ext n m i j i' j') by done.
  destruct (iadd_matrix m i' j' v) as [m'|] eqn:Hm; [simpl|done].
  apply IH.
  apply (accumulate_cell n m [(i', j', v)] m' Hsq). simpl. by rewrite Hm.
Qed.

Lemma wrap_updates (n : nat) (l l' : list (Z * Z)) (fv : F) :
  Forall2 (λ x x' : Z * Z, index n x.1 = index n x'.1 ∧ index n x.2 = index n x'.2) l l' →
  Forall2 (λ ex ex' : Z * Z * F,
             index n ex.1.1 = index n ex'.1.1 ∧ index n ex.1.2 = index n ex'.1.2
             ∧ ex.2 = ex'.2)
    ((λ x : Z * Z, (x.1, x.2, fv)) <$> l) ((λ x : Z * Z, (x.1, x.2, fv)) <$> l')
  ∧ Forall2 (λ ex ex' : Z * Z * F,
               index n ex.1.1 = index n ex'.1.1 ∧ index n ex.1.2 = index n ex'.1.2
               ∧ ex.2 = ex'.2)
      ((λ x : Z * Z, (x.2, x.1, fv)) <$> l) ((λ x : Z * Z, (x.2, x.1, fv)) <$> l').
Proof.
  intros Hall. split; apply Forall2_fmap; (eapply Forall2_impl; [|exact Hall]);
    intros [a b] [a' b'] [Ha Hb]; simpl in *; done.
Qed.

Lemma zip_wrap (n : nat) targets biases :
  Forall (valid_label (Z.of_nat n)) targets → Forall (valid_label (Z.of_nat n)) biases →
  Forall2 (λ x x' : Z * Z, index n x.1 = index n x'.1 ∧ index n x.2 = index n x'.2)
    (zip (wrap (Z.of_nat n) <$> targets) (wrap (Z.of_nat n) <$> biases))
    (zip targets biases).
Proof.
  intros Hts. revert biases.
  induction Hts as [|t ts Ht _ IH]; intros [|p ps] Hps; simpl; try constructor.
  - inversion_clear Hps as [|?? Hp _]. simpl. by rewrite !index_wrap.
  - apply IH. by inversion_clear Hps.
Qed.

Lemma confusion_value_wrap (n : Z) targets biases :
  Forall (valid_label n) targets → Forall (valid_label n) biases →
  confusion_value n (wrap n <$> targets) (wrap n <$> biases)
  = confusion_value n targets biases.
Proof.
  intros Hts Hbs. unfold confusion_value. case_decide as Hn; [|done].
  rewrite <- (Z2Nat.id n Hn) in Hts, Hbs |- * at 1.
  pose proof (zip_wrap _ _ _ Hts Hbs) as Hzip.
  destruct (wrap_updates _ _ _ s_one Hzip) as [Hby Horg].
  rewrite !Z2Nat.id in * by done.
  unfold org_updates, by_updates.
  rewrite (accumulate_index_ext _ _ _ _ (square_zeros _) Horg).
  by rewrite (accumulate_index_ext _ _ _ _ (square_zeros _) Hby).
Qed.
Lemma zip3_wrap (n : nat) targets biases (marginals : list F) (fv : F → F) :
  Forall (valid_label (Z.of_nat n)) targets → Forall (valid_label (Z.of_nat n)) biases →
  Forall2 (λ ex ex' : Z * Z * F,
             index n ex.1.1 = index n ex'.1.1 ∧ index n ex.1.2 = index n ex'.1.2
             ∧ ex.2 = ex'.2)
    ((λ x : Z * (Z * F), (x.2.1, x.1, fv x.2.2))
       <$> zip (wrap (Z.of_nat n) <$> targets)
             (zip (wrap (Z.of_nat n) <$> biases) marginals))
    ((λ x : Z * (Z * F), (x.2.1, x.1, fv x.2.2))
       <$> zip targets (zip biases marginals)).
Proof.
  intros Hts. revert biases marginals.
  induction Hts as [|t ts Ht _ IH]; intros [|p ps] [|m ms] Hps; simpl;
    try constructor.
  - inversion_clear Hps as [|?? Hp _]. simpl. by rewrite !index_wrap.
  - apply IH. by inversion_clear Hps.
Qed.

Lemma unsup_value_wrap (n : Z) targets biases (marginals : list F) :
  Forall (valid_label n) targets → Forall (valid_label n) biases →
  unsup_value n (wrap n <$> targets) (wrap n <$> biases) marginals
  = unsup_value n targets biases marginals.
Proof.
  intros Hts Hbs. unfold unsup_value. case_decide as Hn; [|done].
  rewrite <- (Z2Nat.id n Hn) in Hts, Hbs.
  pose proof (zip3_wrap _ _ _ marginals (λ m, m) Hts Hbs) as Hsum.
  pose proof (zip3_wrap _ _ _ marginals (λ _, s_one) Hts Hbs) as Hcnt.
  rewrite !Z2Nat.id in * by done.
  unfold sum_updates, cnt_updates.
  rewrite (accumulate_index_ext _ _ _ _ (square_zeros _) Hsum).
  by rewrite (accumulate_index_ext _ _ _ _ (square_zeros _) Hcnt).
Qed.
End Wrap.

(** X2.  A negative label counts from the end, as a torch index does: when
    every label lies in [[-num_classes, num_classes)], both functions return
    what they return on the labels [label + num_classes] for the negative
    ones, which are all in [[0, num_classes)]. *)
Theorem negative_labels_wrap (num_classes : Z) (targets biases : list Z)
    (marginals : list B32.float32) :
  Forall (valid_label num_classes) targets →
  Forall (valid_label num_classes) biases →
  call3 (F:=B32.float32)
    (get_confusion_matrix num_classes
       (wrap num_classes <$> targets) (wrap num_classes <$> biases))
  = call3 (get_confusion_matrix num_classes targets biases)
  ∧ call2 (get_unsup_confusion_matrix num_classes
             (wrap num_classes <$> targets) (wrap num_classes <$> biases) marginals)
    = call2 (get_unsup_confusion_matrix num_classes targets biases marginals)
  ∧ Forall (in_range num_classes) (wrap num_classes <$> targets)
  ∧ Forall (in_range num_classes) (wrap num_classes <$> biases).
Proof.
  intros Hts Hbs.
  rewrite !call_get_confusion_matrix, !call_get_unsup_confusion_matrix.
  split; [by apply confusion_value_wrap|]. split; [by apply unsup_value_wrap|].
  split; apply Forall_fmap; (eapply Forall_impl; [|eassumption]);
    intros i Hi; by apply in_range_wrap.
Qed.

(** [negative_labels_wrap] on three classes: the labels [-1] and [-3] are
    the classes [2] and [0]. *)
Lemma negative_labels_wrap_witness :
  call3 (F:=B32.float32) (get_confusion_matrix 3 [2; 1; 0] [0; 0; 2])
  = call3 (get_confusion_matrix 3 [-1; 1; -3] [0; -3; 2]).
Proof.
  apply (negative_labels_wrap 3 [-1; 1; -3] [0; -3; 2] []);
    repeat constructor; unfold valid_label; lia.
Defined.

(** ** Shapes, and calls without examples *)

Section Shapes.
Context {F : Type} `{Scalar F}.

Lemma square_row_normalize n (m : matrix F) : square n m → square n (row_normalize m).
Proof.
  intros [Hl Hr]. unfold row_normalize, div_matrix, sum_rows. split.
  - rewrite length_zip_with, length_fmap. lia.
  - intros row (ra & rb & -> & Hra & (r' & -> & _)%list_elem_of_fmap)%elem_of_zip_with.
    simpl. rewrite length_fmap. by apply Hr.
Qed.

Lemma confusion_value_square (n : Z) targets biases raw normalized normalized_by :
  confusion_value n targets biases = Some (raw, normalized, normalized_by) →
  square (Z.to_nat n) raw ∧ square (Z.to_nat n) normalized
  ∧ square (Z.to_nat n) normalized_by.
Proof.
  unfold confusion_value. case_decide; [|done].
  destruct (accumulate _ (org_updates _ _)) as [raw'|] eqn:Hraw; [simpl|done].
  destruct (accumulate _ (by_updates _ _)) as [raw_by|] eqn:Hby; [simpl|done].
  intros [= <- <- <-].
  destruct (accumulate_cell _ _ _ _ (square_zeros _) Hraw) as [Hsq _].
  destruct (accumulate_cell _ _ _ _ (square_zeros _) Hby) as [Hsq' _].
  auto using square_row_normalize.
Qed.

Lemma unsup_value_square (n : Z) targets biases (marginals : list F) sur normalized :
  unsup_value n targets biases marginals = Some (sur, normalized) →
  square (Z.to_nat n) sur ∧ square (Z.to_nat n) normalized.
Proof.
  unfold unsup_value. case_decide; [|done].
  destruct (accumulate _ (sum_updates _ _ _)) as [wsum|] eqn:Hw; [simpl|done].
  destruct (accumulate _ (cnt_updates _ _ _)) as [cnt|] eqn:Hc; [simpl|done].
  intros [= <- <-].
  destruct (accumulate_cell _ _ _ _ (square_zeros _) Hw) as [Hsq _].
  destruct (accumulate_cell _ _ _ _ (square_zeros _) Hc) as [Hsq' _].
  destruct (square_surprise _ _ _ Hsq Hsq') as [_ Hsur].
  auto using square_row_normalize.
Qed.
End Shapes.

(** X3.  Whatever either function returns is [num_classes] by [num_classes]:
    the count tensor, the surprise tensor and every normalized tensor. *)
Theorem results_are_square (num_classes : Z) (targets biases : list Z)
    (marginals : list B32.float32) :
  (∀ raw normalized normalized_by,
    call3 (F:=B32.float32) (get_confusion_matrix num_classes targets biases)
      = Some (raw, normalized, normalized_by) →
    square (Z.to_nat num_classes) raw ∧ square (Z.to_nat num_classes) normalized
    ∧ square (Z.to_nat num_classes) normalized_by)
  ∧ (∀ surprise normalized,
      call2 (get_unsup_confusion_matrix num_classes targets biases marginals)
        = Some (surprise, normalized) →
      square (Z.to_nat num_classes) surprise
      ∧ square (Z.to_nat num_classes) normalized).
Proof.
  split.
  - intros raw nm nby. rewrite call_get_confusion_matrix.
    apply confusion_value_square.
  - intros sur nm. rewrite call_get_unsup_confusion_matrix.
    apply unsup_value_square.
Qed.

(** [results_are_square] on a call with three classes. *)
Lemma results_are_square_witness :
  ∃ raw normalized normalized_by : matrix B32.float32,
    call3 (F:=B32.float32) (get_confusion_matrix 3 [0; 2] [1; 1])
      = Some (raw, normalized, normalized_by)
    ∧ square 3 normalized_by.
Proof.
  destruct (call3 (F:=B32.float32) (get_confusion_matrix 3 [0; 2] [1; 1]))
    as [[[raw nm] nby]|] eqn:Hcall; [|by vm_compute in Hcall].
  exists raw, nm, nby. split; [reflexivity|].
  pose proof (proj1 (results_are_square 3 [0; 2] [1; 1] []) raw nm nby) as Hsq.
  rewrite Hcall in Hsq. apply (Hsq eq_refl).
Defined.

Section NoExamples.
Import B32.

Lemma row_normalize_zeros_matrix (n : nat) :
  row_normalize (zeros n) = replicate n (replicate n nan).
Proof.
  apply list_eq. intros r. destruct (decide (r < n)%nat) as [Hr|Hr].
  - rewrite (row_normalize_zeros n) by (by apply lookup_replicate_2).
    by rewrite lookup_replicate_2.
  - destruct (square_row_normalize n (zeros n) (square_zeros (F:=float32) n))
      as [Hl _].
    rewrite !lookup_ge_None_2; [done|rewrite length_replicate; lia|lia].
Qed.

Lemma surprise_zeros (n : nat) :
  surprise (F:=float32) (zeros n) (zeros n) = zeros n.
Proof.
  destruct (square_surprise (F:=float32) n _ _ (square_zeros n) (square_zeros n))
    as [_ [Hl Hr]].
  destruct (square_zeros (F:=float32) n) as [Hl' Hr'].
  apply (matrix_eq n); try done.
  intros r c Hrn Hcn.
  pose proof (cell_zeros (F:=float32) n r c Hrn Hcn) as Hz.
  by rewrite (cell_surprise n _ _ r c _ _ (square_zeros n) (square_zeros n) Hz Hz), Hz.
Qed.
End NoExamples.

(** X4.  Without examples (an empty [targets], [biases] or, for the
    unsupervised estimator, [marginals]) and for every number of classes, the
    count and surprise tensors are all zero and every row of the normalized
    tensors is all NaN; the labels left in the other sequences are never
    looked at. *)
Theorem no_examples (n : nat) (targets biases : list Z)
    (marginals : list B32.float32) :
  call3 (get_confusion_matrix (Z.of_nat n) [] biases)
    = Some (zeros n, replicate n (replicate n B32.nan),
            replicate n (replicate n B32.nan))
  ∧ call3 (get_confusion_matrix (Z.of_nat n) targets [])
    = Some (zeros n, replicate n (replicate n B32.nan),
            replicate n (replicate n B32.nan))
  ∧ call2 (get_unsup_confusion_matrix (Z.of_nat n) [] biases marginals)
    = Some (zeros n, replicate n (replicate n B32.nan))
  ∧ call2 (get_unsup_confusion_matrix (Z.of_nat n) targets [] marginals)
    = Some (zeros n, replicate n (replicate n B32.nan))
  ∧ call2 (get_unsup_confusion_matrix (Z.of_nat n) targets biases [])
    = Some (zeros n, replicate n (replicate n B32.nan)).
Proof.
  rewrite !call_get_confusion_matrix, !call_get_unsup_confusion_matrix.
  unfold confusion_value, unsup_value, org_updates, by_updates, sum_updates,
    cnt_updates.
  rewrite !decide_True by lia.
  rewrite !zip_with_nil_r. simpl. rewrite !zip_with_nil_r. simpl.
  rewrite Nat2Z.id, surprise_zeros, row_normalize_zeros_matrix. done.
Qed.

(** ** The two orientations *)

Section Orientation.
Context {F : Type} `{Scalar F}.

Lemma omap_lookup_total {A B} (f : A → option B) (l : list A) r :
  (∀ x, x ∈ l → is_Some (f x)) → omap f l !! r = l !! r ≫= f.
Proof.
  revert r. induction l as [|x l IH]; intros r Hf; [done|].
  destruct (Hf x) as [y Hy]; [left|].
  cbn [omap list_omap]. rewrite Hy.
  destruct r as [|r]; [by simpl|]. simpl. apply IH.
  intros x' Hx'. apply Hf. by right.
Qed.

Lemma length_omap_total {A B} (f : A → option B) (l : list A) :
  (∀ x, x ∈ l → is_Some (f x)) → length (omap f l) = length l.
Proof.
  induction l as [|x l IH]; intros Hf; [done|].
  destruct (Hf x) as [y Hy]; [left|].
  cbn [omap list_omap]. rewrite Hy. simpl. f_equal. apply IH.
  intros x' Hx'. apply Hf. by right.
Qed.

Lemma square_transpose {A} n (m : matrix A) :
  length m = n → (∀ row, row ∈ m → length row = n) →
  length (transpose m) = n
  ∧ (∀ row, row ∈ transpose m → length row = n)
  ∧ ∀ r c, (r < n)%nat → (c < n)%nat → cell (transpose m) r c = cell m c r.
Proof.
  intros Hl Hr. unfold transpose. rewrite Hl.
  assert (∀ c, (c < n)%nat → ∀ row, row ∈ m → is_Some (row !! c)) as Htot.
  { intros c Hc row Hrow. apply lookup_lt_is_Some. rewrite (Hr row Hrow). lia. }
  split; [by rewrite length_fmap, length_seq|]. split.
  - intros row (c & -> & Hc%elem_of_seq)%list_elem_of_fmap.
    rewrite length_omap_total, Hl; [done|]. apply Htot. lia.
  - intros r c Hrn Hcn. unfold cell.
    rewrite list_lookup_fmap, lookup_seq_lt by done. simpl.
    by rewrite omap_lookup_total by by apply Htot.
Qed.

Lemma by_updates_swap targets biases :
  by_updates (F:=F) targets biases = org_updates biases targets.
Proof.
  unfold by_updates, org_updates. revert biases.
  induction targets as [|t targets IH]; intros [|p biases]; try done.
  simpl. by rewrite <- IH.
Qed.

Lemma org_updates_swap targets biases :
  org_updates (F:=F) targets biases = by_updates biases targets.
Proof.
  unfold by_updates, org_updates. revert biases.
  induction targets as [|t targets IH]; intros [|p biases]; try done.
  simpl. by rewrite <- IH.
Qed.

Lemma accumulate_by_transpose n targets biases (raw raw_by : matrix F) :
  accumulate (zeros n) (org_updates targets biases) = Some raw →
  accumulate (zeros n) (by_updates targets biases) = Some raw_by →
  raw_by = transpose raw.
Proof.
  intros Hraw Hby.
  destruct (accumulate_cell _ _ _ _ (square_zeros _) Hraw) as [[Hl Hr] Hc].
  destruct (accumulate_cell _ _ _ _ (square_zeros _) Hby) as [[Hl' Hr'] Hc'].
  destruct (square_transpose n raw Hl Hr) as (Htl & Htr & Htc).
  apply (matrix_eq n); try done.
  intros r c Hrn Hcn. rewrite Htc by done.
  rewrite (Hc' r c s_zero), (Hc c r s_zero) by by apply cell_zeros.
  by rewrite hits_by_updates.
Qed.

Lemma confusion_value_transpose (n : Z) targets biases :
  confusion_value (F:=F) n targets biases
  = '(raw, _, _) ← confusion_value n targets biases;
    Some (raw, row_normalize raw, row_normalize (transpose raw)).
Proof.
  unfold confusion_value. case_decide; [|done].
  destruct (accumulate _ (org_updates _ _)) as [raw|] eqn:Hraw; [simpl|done].
  destruct (accumulate _ (by_updates _ _)) as [raw_by|] eqn:Hby; [simpl|done].
  by rewrite (accumulate_by_transpose _ _ _ _ _ Hraw Hby).
Qed.

Lemma confusion_value_swap (n : Z) targets biases :
  confusion_value (F:=F) n biases targets
  = '(raw, normalized, normalized_by) ← confusion_value n targets biases;
    Some (transpose raw, normalized_by, normalized).
Proof.
  unfold confusion_value. case_decide; [|done].
  rewrite <- by_updates_swap, <- org_updates_swap.
  destruct (accumulate _ (org_updates _ _)) as [raw|] eqn:Hraw; simpl.
  - destruct (accumulate _ (by_updates _ _)) as [raw_by|] eqn:Hby; [simpl|done].
    by rewrite (accumulate_by_transpose _ _ _ _ _ Hraw Hby).
  - destruct (accumulate _ (by_updates _ _)) as [raw_by|] eqn:Hby; [exfalso|done].
    assert (is_Some (accumulate (zeros (Z.to_nat n)) (org_updates targets biases)))
      as [? ?]; [|congruence].
    apply (accumulate_is_Some_iff (Z.to_nat n)); [apply square_zeros|].
    apply valid_by_updates.
    apply (accumulate_is_Some_iff (Z.to_nat n) (zeros (Z.to_nat n)));
      [apply square_zeros|done].
Qed.
End Orientation.

(** X5.  The third result of [get_confusion_matrix] is the row normalization
    of the transpose of the first one, and the call with [targets] and
    [biases] exchanged returns the transposed counts and the two normalized
    tensors in the other order (and fails exactly when the original call
    does). *)
Theorem swapped_arguments (num_classes : Z) (targets biases : list Z) :
  call3 (F:=B32.float32) (get_confusion_matrix num_classes targets biases)
  = ('(raw, _, _) ← call3 (get_confusion_matrix num_classes targets biases);
     Some (raw, row_normalize raw, row_normalize (transpose raw)))
  ∧ call3 (F:=B32.float32) (get_confusion_matrix num_classes biases targets)
    = ('(raw, normalized, normalized_by)
         ← call3 (get_confusion_matrix num_classes targets biases);
       Some (transpose raw, normalized_by, normalized)).
Proof.
  rewrite !call_get_confusion_matrix. split.
  - apply confusion_value_transpose.
  - apply confusion_value_swap.
Qed.

(** ** The store around a call *)

(** X6.  From any store, a call that returns leaves every tensor that existed
    before as it was, returns tensors that did not exist before and are
    pairwise distinct, and returns in them the values that the call returns
    from the empty store; a call that raises does so from every store. *)
Theorem results_are_fresh (num_classes : Z) (targets biases : list Z)
    (marginals : list B32.float32) (h : store B32.float32) :
  match get_confusion_matrix num_classes targets biases h with
  | Some (l0, l1, l2, h') =>
      take (length h) h' = h
      ∧ (length h ≤ l0)%nat ∧ (l0 < l1)%nat ∧ (l1 < l2)%nat ∧ (l2 < length h')%nat
      ∧ (m0 ← read h' l0; m1 ← read h' l1; m2 ← read h' l2; Some (m0, m1, m2))
        = call3 (get_confusion_matrix num_classes targets biases)
  | None => call3 (F:=B32.float32)
              (get_confusion_matrix num_classes targets biases) = None
  end
  ∧ match get_unsup_confusion_matrix num_classes targets biases marginals h with
    | Some (l0, l1, h') =>
        take (length h) h' = h
        ∧ (length h ≤ l0)%nat ∧ (l0 < l1)%nat ∧ (l1 < length h')%nat
        ∧ (m0 ← read h' l0; m1 ← read h' l1; Some (m0, m1))
          = call2 (get_unsup_confusion_matrix num_classes targets biases marginals)
    | None => call2 (get_unsup_confusion_matrix num_classes targets biases marginals)
              = None
    end.
Proof.
  unfold call3, call2.
  rewrite !get_confusion_matrix_run, !get_unsup_confusion_matrix_run.
  case_decide; [|done]. split.
  - destruct (accumulate _ (org_updates _ _)) as [raw|]; [|done].
    destruct (accumulate _ (by_updates _ _)) as [raw_by|]; [|done].
    split; [by rewrite take_app_length|].
    rewrite length_app. simpl length.
    do 4 (split; [lia|]).
    unfold read. rewrite !lookup_app_r by lia.
    by replace (length h - length h)%nat with 0%nat by lia;
       replace (length h + 3 - length h)%nat with 3%nat by lia;
       replace (length h + 5 - length h)%nat with 5%nat by lia.
  - destruct (accumulate _ (sum_updates _ _ _)) as [wsum|]; [|done].
    destruct (accumulate _ (cnt_updates _ _ _)) as [cnt|]; [|done].
    split; [by rewrite take_app_length|].
    rewrite length_app. simpl length.
    do 3 (split; [lia|]).
    unfold read. rewrite !lookup_app_r by lia.
    by replace (length h + 5 - length h)%nat with 5%nat by lia;
       replace (length h + 7 - length h)%nat with 7%nat by lia.
Qed.

(** ** Rows with a single target *)

Section Division.
Import B32.

Lemma div_eucl_pair a b : Z.div_eucl a b = (a / b, a mod b).
Proof. unfold Z.div, Z.modulo. by destruct (Z.div_eucl a b). Qed.

(** A finite float32 divided by itself is exactly one. *)
Lemma div_self s m e : div (S754_finite s m e) (S754_finite s m e) = one.
Proof.
  assert (SFdiv_core_binary prec emax (Z.pos m) e (Z.pos m) e
          = (2 ^ 24, -24, loc_Exact)) as Hcore.
  { unfold SFdiv_core_binary. rewrite !Z.sub_diag.
    change (Z.min (fexp prec emax 0) 0) with (-24).
    change (0 - -24) with 24. cbv iota.
    rewrite div_eucl_pair, Z.shiftl_mul_pow2 by lia.
    rewrite (Z.mul_comm (Z.pos m)), Z.div_mul, Z.mod_mul by lia.
    unfold new_location, new_location_even, new_location_odd.
    by destruct (Z.even (Z.pos m)). }
  unfold div, SFdiv. rewrite Hcore, xorb_nilpotent. reflexivity.
Qed.

Lemma count_float_finite (k : nat) :
  (0 < k)%nat → ∃ m e, count_float (F:=float32) k = S754_finite false m e.
Proof.
  intros Hk. rewrite count_float_min.
  destruct (decide (Z.of_nat k < max_count)) as [Hlt|Hge].
  - rewrite Z.min_l by lia. rewrite of_Z_canon by (unfold max_count in Hlt; lia).
    unfold canon. by eexists _, _.
  - rewrite Z.min_r by lia. by eexists _, _.
Qed.

Lemma foldl_add_indicator (x : float32) m e (t0 len s : nat) :
  x = S754_finite false m e →
  foldl add zero ((λ c, if decide (c = t0) then x else zero) <$> seq s len)
  = if decide (s ≤ t0 < s + len)%nat then x else zero.
Proof.
  intros ->. induction len as [|len IH].
  { simpl. by rewrite decide_False by lia. }
  rewrite seq_S, fmap_app, foldl_app, IH. simpl.
  repeat case_decide; try lia; reflexivity.
Qed.

Lemma one_hot_seq (x : float32) (t0 n : nat) :
  (λ c, if decide (c = t0) then x else zero) <$> seq 0 n = one_hot n t0 x.
Proof.
  unfold one_hot. apply list_eq. intros c.
  rewrite list_lookup_fmap.
  destruct (decide (c < n)%nat) as [Hc|Hc].
  - rewrite lookup_seq_lt by done. simpl. case_decide as Heq.
    + subst c. by rewrite list_lookup_insert_eq by (rewrite length_replicate; lia).
    + rewrite list_lookup_insert_ne by done. by rewrite lookup_replicate_2.
  - rewrite lookup_seq_ge by lia. simpl. symmetry.
    apply lookup_ge_None_2. rewrite length_insert, length_replicate. lia.
Qed.

Lemma single_target_row (n : nat) (raw : matrix float32) (r t0 : nat)
    (cnt : nat → nat) :
  square n raw → (r < n)%nat → (t0 < n)%nat → (0 < cnt t0)%nat →
  (∀ c, c ≠ t0 → cnt c = 0%nat) →
  (∀ c, (c < n)%nat → cell raw r c = Some (count_float (cnt c))) →
  raw !! r = Some (one_hot n t0 (count_float (cnt t0)))
  ∧ row_normalize raw !! r = Some (one_hot n t0 one).
Proof.
  intros Hsq Hr Ht0 Hpos Hothers Hcells.
  destruct (count_float_finite (cnt t0) Hpos) as (m & e & Hx).
  assert (raw !! r = Some (one_hot n t0 (count_float (cnt t0)))) as Hrow.
  { rewrite <- one_hot_seq. apply (row_of_cells n); [done..|].
    intros c Hc. rewrite Hcells by done. case_decide as Heq; [by subst|].
    by rewrite Hothers. }
  split; [done|].
  rewrite (lookup_row_normalize _ _ _ Hrow). f_equal.
  rewrite <- !one_hot_seq. unfold sum_row.
  change (foldl s_add s_zero) with (foldl add zero).
  rewrite (foldl_add_indicator _ m e) by done.
  rewrite decide_True by lia.
  rewrite <- list_fmap_compose. apply list_fmap_ext. intros _ c _. simpl.
  case_decide; [|by rewrite Hx].
  rewrite Hx. apply div_self.
Qed.
End Division.

(** X7.  In [get_confusion_matrix], on a valid input of any length, a bias
    class [b] all of whose examples have the same target [t0] has a one-hot
    row in [normalized]: exactly [1.0] at [t0] and [+0.0] elsewhere (the count
    divided by itself, also when the count has saturated). *)
Theorem single_target_one_hot (num_classes : Z) (targets biases : list Z)
    (b t0 : Z) :
  0 ≤ num_classes →
  Forall (in_range num_classes) targets → Forall (in_range num_classes) biases →
  in_range num_classes b → in_range num_classes t0 →
  (0 < count b t0 targets biases)%nat →
  (∀ t, t ≠ t0 → count b t targets biases = 0%nat) →
  ∃ raw normalized normalized_by,
    call3 (get_confusion_matrix num_classes targets biases)
      = Some (raw, normalized, normalized_by)
    ∧ normalized !! Z.to_nat b
      = Some (one_hot (Z.to_nat num_classes) (Z.to_nat t0) B32.one).
Proof.
  intros Hn Hts Hbs Hb Ht0 Hpos Hothers.
  destruct (confusion_matrix_cells num_classes targets biases Hn Hts Hbs)
    as (raw & raw_by & Hcall & Hsq & _ & Hcells & _).
  exists raw, (row_normalize raw), (row_normalize raw_by). split; [done|].
  unfold in_range in *.
  apply (single_target_row (Z.to_nat num_classes) raw (Z.to_nat b) (Z.to_nat t0)
           (λ c, count b (Z.of_nat c) targets biases)); try done; try lia.
  - by rewrite Z2Nat.id by lia.
  - intros c Hc. apply Hothers. lia.
  - intros c Hc. pose proof (Hcells b (Z.of_nat c)) as Hbc.
    rewrite Nat2Z.id in Hbc. rewrite Hbc by (unfold in_range; lia).
    by rewrite count_float_min.
Qed.

(** [single_target_one_hot] on three classes: the two examples with bias [1]
    both have target [2]. *)
Lemma single_target_one_hot_witness :
  ∃ raw normalized normalized_by,
    call3 (F:=B32.float32) (get_confusion_matrix 3 [2; 0; 2; 1] [1; 0; 1; 0])
      = Some (raw, normalized, normalized_by)
    ∧ normalized !! 1%nat = Some [B32.zero; B32.zero; B32.one].
Proof.
  apply (single_target_one_hot 3 [2; 0; 2; 1] [1; 0; 1; 0] 1 2).
  - lia.
  - repeat constructor; vm_compute; intuition congruence.
  - repeat constructor; vm_compute; intuition congruence.
  - unfold in_range; lia.
  - unfold in_range; lia.
  - vm_compute. lia.
  - intros t Ht. unfold count. simpl zip.
    rewrite !filter_cons, filter_nil. simpl.
    repeat case_decide; simpl; try done; intuition lia.
Defined.

(** ** The normalized entries as quotients *)

Section Quotients.
Import B32.

Lemma zero_of_Z : zero = of_Z 0.
Proof. reflexivity. Qed.

(** A row of counts adds up without rounding below [2^24]. *)
Lemma foldl_add_of_Z {A} (f : A → nat) (l : list A) (a : Z) :
  0 ≤ a → a + Z.of_nat (sum_list (f <$> l)) < 2 ^ 24 →
  foldl add (of_Z a) ((λ x, of_Z (Z.of_nat (f x))) <$> l)
  = of_Z (a + Z.of_nat (sum_list (f <$> l))).
Proof.
  revert a. induction l as [|x l IH]; intros a Ha Hlt.
  { simpl. by rewrite Z.add_0_r. }
  rewrite !fmap_cons in *. cbn [sum_list sum_list_with] in *. cbn [foldl].
  unfold id in *. rewrite add_of_Z by lia. rewrite IH by lia. f_equal. lia.
Qed.

(** The examples of one bias class fall in exactly one column each. *)
Lemma count_row_partition (n : nat) (b : Z) (l : list (Z * Z)) :
  Forall (λ x : Z * Z, in_range (Z.of_nat n) x.1) l →
  sum_list ((λ c, length (filter (λ x : Z * Z, x.2 = b ∧ x.1 = Z.of_nat c) l))
              <$> seq 0 n)
  = length (filter (λ x : Z * Z, x.2 = b) l).
Proof.
  induction 1 as [|[t p] l Ht _ IH].
  { rewrite filter_nil. apply sum_list_fmap_zero. }
  unfold in_range in Ht. simpl in Ht.
  rewrite (sum_list_fmap_ext _ (λ c,
    (if decide (c = Z.to_nat t) then if decide (p = b) then 1 else 0 else 0)
    + length (filter (λ x : Z * Z, x.2 = b ∧ x.1 = Z.of_nat c) l))%nat).
  - rewrite sum_list_fmap_add, sum_list_indicator, decide_True, IH by lia.
    rewrite filter_cons. simpl. by case_decide.
  - intros c _. rewrite filter_cons. simpl. repeat case_decide; simpl; lia.
Qed.

Lemma count_le_count_bias b t targets biases :
  (count b t targets biases ≤ count_bias b targets biases)%nat.
Proof.
  unfold count, count_bias.
  induction (zip targets biases) as [|[t' p] l IH]; [done|].
  rewrite !filter_cons. simpl. repeat case_decide; simpl; intuition lia.
Qed.
End Quotients.

(** X8.  In [get_confusion_matrix], on a valid input, for a bias class [b]
    with fewer than [2^24] examples, the row total that divides row [b] is the
    number of examples of the class without rounding, and
    [normalized[b][t]] is the float32 quotient of the number of examples with
    bias [b] and target [t] by the number of examples with bias [b]: one
    rounding, that of the division. *)
Theorem normalized_is_quotient (num_classes : Z) (targets biases : list Z) (b : Z) :
  0 ≤ num_classes →
  Forall (in_range num_classes) targets → Forall (in_range num_classes) biases →
  in_range num_classes b →
  Z.of_nat (count_bias b targets biases) < 2 ^ 24 →
  ∃ raw normalized normalized_by row,
    call3 (get_confusion_matrix num_classes targets biases)
      = Some (raw, normalized, normalized_by)
    ∧ raw !! Z.to_nat b = Some row
    ∧ sum_row row = B32.of_Z (Z.of_nat (count_bias b targets biases))
    ∧ ∀ t, in_range num_classes t →
        cell normalized (Z.to_nat b) (Z.to_nat t)
        = Some (B32.div (B32.of_Z (Z.of_nat (count b t targets biases)))
                        (B32.of_Z (Z.of_nat (count_bias b targets biases)))).
Proof.
  intros Hn Hts Hbs Hb Hlt.
  destruct (confusion_matrix_cells num_classes targets biases Hn Hts Hbs)
    as (raw & raw_by & Hcall & Hsq & _ & Hcells & _).
  set (n := Z.to_nat num_classes) in *.
  set (f := λ c : nat, count b (Z.of_nat c) targets biases).
  assert (raw !! Z.to_nat b = Some ((λ c, B32.of_Z (Z.of_nat (f c))) <$> seq 0 n))
    as Hrow.
  { apply (row_of_cells n); [done|unfold in_range in *; lia|].
    intros c Hc. pose proof (Hcells b (Z.of_nat c)) as Hbc.
    rewrite Nat2Z.id in Hbc. rewrite Hbc by (unfold in_range in *; lia).
    unfold f. rewrite Z.min_l; [done|].
    pose proof (count_le_count_bias b (Z.of_nat c) targets biases).
    unfold B32.max_count. lia. }
  assert (sum_list (f <$> seq 0 n) = count_bias b targets biases) as Hsum.
  { unfold f, count, count_bias. apply count_row_partition.
    eapply Forall_impl; [|apply (in_range_zip num_classes); eassumption].
    intros [t p] [Ht _]. simpl in *. unfold n. by rewrite Z2Nat.id by lia. }
  assert (sum_row ((λ c, B32.of_Z (Z.of_nat (f c))) <$> seq 0 n)
          = B32.of_Z (Z.of_nat (count_bias b targets biases))) as Htotal.
  { unfold sum_row. change (foldl s_add s_zero) with (foldl B32.add (B32.of_Z 0)).
    rewrite foldl_add_of_Z by (rewrite ?Hsum; lia). by rewrite Hsum. }
  eexists raw, (row_normalize raw), (row_normalize raw_by), _.
  split; [done|]. split; [exact Hrow|]. split; [done|].
  intros t Ht. unfold cell.
  rewrite (lookup_row_normalize _ _ _ Hrow), Htotal. simpl.
  rewrite <- list_fmap_compose, list_lookup_fmap, lookup_seq_lt
    by (unfold in_range in *; lia).
  simpl. unfold f. by rewrite Z2Nat.id by (unfold in_range in *; lia).
Qed.

(** [normalized_is_quotient] on two classes: of the three examples with bias
    [0], two have target [1]; the entry is the float32 nearest to [2/3]. *)
Lemma normalized_is_quotient_witness :
  ∃ raw normalized normalized_by row,
    call3 (F:=B32.float32) (get_confusion_matrix 2 [1; 0; 1; 1] [0; 0; 0; 1])
      = Some (raw, normalized, normalized_by)
    ∧ raw !! 0%nat = Some row
    ∧ sum_row row = B32.of_Z 3
    ∧ cell normalized 0 1 = Some (B32.of_bits 11184811 (-24)).
Proof.
  destruct (normalized_is_quotient 2 [1; 0; 1; 1] [0; 0; 0; 1] 0)
    as (raw & nm & nby & row & Hcall & Hrow & Hsum & Hcell).
  - lia.
  - repeat constructor; vm_compute; intuition congruence.
  - repeat constructor; vm_compute; intuition congruence.
  - unfold in_range; lia.
  - vm_compute. reflexivity.
  - exists raw, nm, nby, row. do 3 (split; [done|]).
    apply (Hcell 1). unfold in_range; lia.
Defined.

(** ** Marginals that are NaN, and marginals that are all one *)

Section Marginals.
Import B32.

Lemma foldl_add_nan_acc (xs : list float32) : foldl add nan xs = nan.
Proof. induction xs as [|x xs IH]; [done|]. simpl. apply IH. Qed.

Lemma foldl_add_nan (acc : float32) (xs : list float32) :
  nan ∈ xs → foldl add acc xs = nan.
Proof.
  revert acc. induction xs as [|x xs IH]; intros acc Hin.
  { by apply not_elem_of_nil in Hin. }
  apply elem_of_cons in Hin as [<-|Hin]; simpl.
  - replace (add acc nan) with nan by by destruct acc.
    apply foldl_add_nan_acc.
  - by apply IH.
Qed.

Lemma div_nan_r (x : float32) : div x nan = nan.
Proof. by destruct x. Qed.

Lemma surprise_of_nan (k : float32) : surprise_of nan k = nan.
Proof. reflexivity. Qed.

Lemma row_normalize_nan (m : matrix float32) r c row :
  m !! r = Some row → row !! c = Some nan →
  row_normalize m !! r = Some (replicate (length row) nan).
Proof.
  intros Hrow Hc. rewrite (lookup_row_normalize _ _ _ Hrow). f_equal.
  unfold sum_row. change (foldl s_add s_zero) with (foldl add zero).
  rewrite foldl_add_nan by by eapply list_elem_of_lookup_2.
  clear. induction row as [|x row IH]; [done|].
  rewrite fmap_cons, IH. simpl. by rewrite div_nan_r.
Qed.

Lemma zip3_ones (targets biases : list Z) (marginals : list float32) :
  Forall (λ m, m = one) marginals →
  Forall (λ x : Z * (Z * float32), x.2.2 = one) (zip targets (zip biases marginals)).
Proof.
  intros Hms. revert biases marginals Hms.
  induction targets as [|t targets IH]; intros [|p biases] [|m marginals] Hms;
    try by constructor.
  inversion_clear Hms. simpl. constructor; [done|by apply IH].
Qed.

Lemma cell_marginals_ones b t targets biases (marginals : list float32) :
  Forall (λ m, m = one) marginals →
  cell_marginals b t targets biases marginals
  = replicate (occurrences b t targets biases marginals) one.
Proof.
  intros Hms%(zip3_ones targets biases).
  unfold occurrences, cell_marginals. rewrite length_fmap.
  induction Hms as [|x l Hx _ IH]; [done|].
  rewrite filter_cons. case_decide; [|done].
  rewrite fmap_cons, IH. simpl. by rewrite Hx.
Qed.

Lemma surprise_of_count_float (k : nat) :
  surprise_of (F:=float32) (count_float k) (count_float k)
  = if decide (k = 0%nat) then zero else one.
Proof.
  case_decide as Hk; [by subst|].
  rewrite surprise_of_float32 by (lia || apply count_float_nonzero; lia).
  destruct (count_float_finite k) as (m & e & ->); [lia|].
  by rewrite div_self.
Qed.
End Marginals.

(** X9.  In [get_unsup_confusion_matrix], on valid labels, a NaN among the
    marginals of the examples of a cell [(b, t)] is not masked: the surprise
    of the cell is NaN, and so is the whole row [b] of the normalized
    tensor. *)
Theorem nan_marginal_spreads (num_classes : Z) (targets biases : list Z)
    (marginals : list B32.float32) (b t : Z) :
  0 ≤ num_classes →
  Forall (in_range num_classes) targets → Forall (in_range num_classes) biases →
  in_range num_classes b → in_range num_classes t →
  B32.nan ∈ cell_marginals b t targets biases marginals →
  ∃ surprise normalized,
    call2 (get_unsup_confusion_matrix num_classes targets biases marginals)
      = Some (surprise, normalized)
    ∧ cell surprise (Z.to_nat b) (Z.to_nat t) = Some B32.nan
    ∧ normalized !! Z.to_nat b = Some (replicate (Z.to_nat num_classes) B32.nan).
Proof.
  intros Hn Hts Hbs Hb Ht Hnan.
  destruct (unsup_call_cells num_classes targets biases marginals Hn Hts Hbs)
    as (sur & Hcall & [Hl Hr] & Hcells).
  exists sur, (row_normalize sur). split; [done|].
  assert (cell sur (Z.to_nat b) (Z.to_nat t) = Some B32.nan) as Hcell.
  { rewrite (Hcells b t Hb Ht). unfold weighted_sum.
    change (foldl s_add s_zero) with (foldl B32.add B32.zero).
    by rewrite foldl_add_nan. }
  split; [done|].
  unfold cell in Hcell.
  destruct (sur !! Z.to_nat b) as [row|] eqn:Hrow; [simpl in Hcell|done].
  rewrite (row_normalize_nan sur _ _ row Hrow Hcell).
  rewrite (Hr row); [done|]. by eapply list_elem_of_lookup_2.
Qed.

(** [nan_marginal_spreads] on two classes: the first of two examples with
    bias [0] has a NaN marginal. *)
Lemma nan_marginal_spreads_witness :
  ∃ surprise normalized,
    call2 (get_unsup_confusion_matrix 2 [0; 1] [0; 0] [B32.nan; B32.one])
      = Some (surprise, normalized)
    ∧ cell surprise 0 0 = Some B32.nan
    ∧ normalized !! 0%nat = Some [B32.nan; B32.nan].
Proof.
  apply (nan_marginal_spreads 2 [0; 1] [0; 0] [B32.nan; B32.one] 0 0).
  - lia.
  - repeat constructor; vm_compute; intuition congruence.
  - repeat constructor; vm_compute; intuition congruence.
  - unfold in_range; lia.
  - unfold in_range; lia.
  - vm_compute. left.
Defined.

(** X10.  In [get_unsup_confusion_matrix], on valid labels and with every
    marginal equal to [1.0], the surprise tensor is the indicator of the cells
    that occur: [1.0] where an example falls and [+0.0] elsewhere, for any
    number of examples. *)
Theorem unit_marginals_indicator (num_classes : Z) (targets biases : list Z)
    (marginals : list B32.float32) :
  0 ≤ num_classes →
  Forall (in_range num_classes) targets → Forall (in_range num_classes) biases →
  Forall (λ m, m = B32.one) marginals →
  ∃ surprise normalized,
    call2 (get_unsup_confusion_matrix num_classes targets biases marginals)
      = Some (surprise, normalized)
    ∧ ∀ b t, in_range num_classes b → in_range num_classes t →
        cell surprise (Z.to_nat b) (Z.to_nat t)
        = Some (if decide (occurrences b t targets biases marginals = 0%nat)
                then B32.zero else B32.one).
Proof.
  intros Hn Hts Hbs Hms.
  destruct (unsup_call_cells num_classes targets biases marginals Hn Hts Hbs)
    as (sur & Hcall & _ & Hcells).
  exists sur, (row_normalize sur). split; [done|].
  intros b t Hb Ht. rewrite (Hcells b t Hb Ht). f_equal.
  unfold weighted_sum. rewrite cell_marginals_ones at 1 by done.
  apply surprise_of_count_float.
Qed.

(** [unit_marginals_indicator] on two classes with three examples: the cell
    [(1, 0)] does not occur. *)
Lemma unit_marginals_indicator_witness :
  ∃ surprise normalized,
    call2 (get_unsup_confusion_matrix 2 [0; 1; 1] [0; 0; 1]
             [B32.one; B32.one; B32.one])
      = Some (surprise, normalized)
    ∧ cell surprise 0 1 = Some B32.one ∧ cell surprise 1 0 = Some B32.zero.
Proof.
  destruct (unit_marginals_indicator 2 [0; 1; 1] [0; 0; 1] [B32.one; B32.one; B32.one])
    as (sur & nm & Hcall & Hcells).
  - lia.
  - repeat constructor; vm_compute; intuition congruence.
  - repeat constructor; vm_compute; intuition congruence.
  - by repeat constructor.
  - exists sur, nm. split; [done|]. split.
    + apply (Hcells 0 1); unfold in_range; lia.
    + apply (Hcells 1 0); unfold in_range; lia.
Defined.

(** ** Counting over batches *)

Section Batches.
Import B32.

Lemma count_app b t targets1 biases1 targets2 biases2 :
  length targets1 = length biases1 →
  count b t (targets1 ++ targets2) (biases1 ++ biases2)
  = (count b t targets1 biases1 + count b t targets2 biases2)%nat.
Proof.
  intros Hlen. unfold count.
  by rewrite zip_with_app, list.filter_app, length_app.
Qed.
End Batches.

(** X11.  The counts of [get_confusion_matrix] add over batches: on valid
    labels, for two batches with fewer than [2^24] examples together (the
    first with as many targets as biases), the count tensor of the
    concatenated batches is the float32 sum, entry by entry, of the count
    tensors of the two batches. *)
Theorem counts_add_over_batches (num_classes : Z)
    (targets1 biases1 targets2 biases2 : list Z) :
  0 ≤ num_classes →
  Forall (in_range num_classes) targets1 → Forall (in_range num_classes) biases1 →
  Forall (in_range num_classes) targets2 → Forall (in_range num_classes) biases2 →
  length targets1 = length biases1 →
  Z.of_nat (length targets1 + length targets2) < 2 ^ 24 →
  ∃ raw1 raw2 normalized1 by1 normalized2 by2 normalized normalized_by,
    call3 (get_confusion_matrix num_classes targets1 biases1)
      = Some (raw1, normalized1, by1)
    ∧ call3 (get_confusion_matrix num_classes targets2 biases2)
      = Some (raw2, normalized2, by2)
    ∧ call3 (get_confusion_matrix num_classes
               (targets1 ++ targets2) (biases1 ++ biases2))
      = Some (zip_with (zip_with B32.add) raw1 raw2, normalized, normalized_by).
Proof.
  intros Hn Hts1 Hbs1 Hts2 Hbs2 Hlen Hlt.
  destruct (confusion_matrix_cells num_classes targets1 biases1 Hn Hts1 Hbs1)
    as (raw1 & by1 & Hcall1 & Hsq1 & _ & Hcells1 & _).
  destruct (confusion_matrix_cells num_classes targets2 biases2 Hn Hts2 Hbs2)
    as (raw2 & by2 & Hcall2 & Hsq2 & _ & Hcells2 & _).
  destruct (confusion_matrix_cells num_classes
              (targets1 ++ targets2) (biases1 ++ biases2) Hn)
    as (raw & raw_by & Hcall & Hsq & _ & Hcells & _);
    [by apply Forall_app..|].
  exists raw1, raw2, (row_normalize raw1), (row_normalize by1),
    (row_normalize raw2), (row_normalize by2),
    (row_normalize raw), (row_normalize raw_by).
  do 2 (split; [done|]). rewrite Hcall. do 3 f_equal.
  destruct (square_zip_with (Z.to_nat num_classes) B32.add raw1 raw2 Hsq1 Hsq2)
    as [Hl' Hr'].
  destruct Hsq as [Hl Hr].
  apply (matrix_eq (Z.to_nat num_classes)); try done.
  intros r c Hrn Hcn. rewrite cell_zip_with.
  pose proof (Hcells (Z.of_nat r) (Z.of_nat c)) as Hrc.
  pose proof (Hcells1 (Z.of_nat r) (Z.of_nat c)) as Hrc1.
  pose proof (Hcells2 (Z.of_nat r) (Z.of_nat c)) as Hrc2.
  rewrite !Nat2Z.id in Hrc, Hrc1, Hrc2.
  rewrite Hrc, Hrc1, Hrc2 by (unfold in_range; lia). simpl.
  rewrite count_app by done.
  pose proof (count_le_length (Z.of_nat r) (Z.of_nat c) targets1 biases1).
  pose proof (count_le_length (Z.of_nat r) (Z.of_nat c) targets2 biases2).
  unfold B32.max_count. rewrite !Z.min_l by lia.
  rewrite Nat2Z.inj_add. by rewrite add_of_Z by lia.
Qed.

(** [counts_add_over_batches] on a batch of two examples followed by a batch
    of one. *)
Lemma counts_add_over_batches_witness :
  ∃ raw1 raw2 normalized1 by1 normalized2 by2 normalized normalized_by,
    call3 (F:=B32.float32) (get_confusion_matrix 2 [0; 1] [1; 1])
      = Some (raw1, normalized1, by1)
    ∧ call3 (get_confusion_matrix 2 [1] [1]) = Some (raw2, normalized2, by2)
    ∧ call3 (get_confusion_matrix 2 ([0; 1] ++ [1]) ([1; 1] ++ [1]))
      = Some (zip_with (zip_with B32.add) raw1 raw2, normalized, normalized_by).
Proof.
  apply (counts_add_over_batches 2 [0; 1] [1; 1] [1] [1]).
  - lia.
  - repeat constructor; vm_compute; intuition congruence.
  - repeat constructor; vm_compute; intuition congruence.
  - repeat constructor; vm_compute; intuition congruence.
  - repeat constructor; vm_compute; intuition congruence.
  - reflexivity.
  - vm_compute. reflexivity.
Defined.

(** ** Masked rows of the unsupervised estimator *)

(** X12.  In [get_unsup_confusion_matrix], on valid labels, the zero mask
    guards the surprise tensor only: a bias class [b] whose cells all have a
    zero weighted sum (no example of the class, or only zero weights) has an
    all-zero row in the surprise tensor and an all-NaN row in the normalized
    tensor. *)
Theorem unsup_masked_row_nan (num_classes : Z) (targets biases : list Z)
    (marginals : list B32.float32) (b : Z) :
  0 ≤ num_classes →
  Forall (in_range num_classes) targets → Forall (in_range num_classes) biases →
  in_range num_classes b →
  (∀ t, in_range num_classes t →
     B32.eqb (weighted_sum b t targets biases marginals) B32.zero = true) →
  ∃ surprise normalized,
    call2 (get_unsup_confusion_matrix num_classes targets biases marginals)
      = Some (surprise, normalized)
    ∧ surprise !! Z.to_nat b = Some (replicate (Z.to_nat num_classes) B32.zero)
    ∧ normalized !! Z.to_nat b = Some (replicate (Z.to_nat num_classes) B32.nan).
Proof.
  intros Hn Hts Hbs Hb Hzero.
  destruct (unsup_call_cells num_classes targets biases marginals Hn Hts Hbs)
    as (sur & Hcall & Hsq & Hcells).
  exists sur, (row_normalize sur). split; [done|].
  assert (sur !! Z.to_nat b = Some (replicate (Z.to_nat num_classes) B32.zero))
    as Hrow.
  { rewrite <- fmap_const_seq.
    apply row_of_cells; [done|unfold in_range in *; lia|].
    intros c Hc. pose proof (Hcells b (Z.of_nat c)) as Hbc.
    rewrite Nat2Z.id in Hbc. rewrite Hbc by (unfold in_range in *; lia).
    unfold surprise_of. simpl s_eqb. simpl s_zero.
    by rewrite Hzero by (unfold in_range in *; lia). }
  split; [done|]. by apply row_normalize_zeros.
Qed.

(** [unsup_masked_row_nan] on two classes: the examples with bias [1] have
    the weights [+0.0] and [-0.0]. *)
Lemma unsup_masked_row_nan_witness :
  ∃ surprise normalized,
    call2 (get_unsup_confusion_matrix 2 [0; 1; 1] [0; 1; 1]
             [B32.one; B32.zero; S754_zero true])
      = Some (surprise, normalized)
    ∧ surprise !! 1%nat = Some [B32.zero; B32.zero]
    ∧ normalized !! 1%nat = Some [B32.nan; B32.nan].
Proof.
  apply (unsup_masked_row_nan 2 [0; 1; 1] [0; 1; 1]
           [B32.one; B32.zero; S754_zero true] 1).
  - lia.
  - repeat constructor; vm_compute; intuition congruence.
  - repeat constructor; vm_compute; intuition congruence.
  - unfold in_range; lia.
  - intros t [Ht0 Ht2].
    assert (t = 0 ∨ t = 1) as [-> | ->] by lia; reflexivity.
Defined.

(** ** Row sums of the normalized tensors, up to rounding (C4) *)

(** *** Rounding to nearest *)

Section Nearest.
Import B32.

Lemma new_location_sem m r : 0 < m → 0 ≤ r < m → loc_sem (new_location m r) r m.
Proof.
  intros Hm Hr. unfold new_location, new_location_even, new_location_odd.
  destruct (Z.even m) eqn:Heven; destruct (Z.eqb_spec r 0) as [->|Hr0];
    try done; simpl.
  - destruct (Z.compare_spec (2 * r) m); simpl; lia.
  - assert (Z.odd m = true) as [k ->]%Z.odd_spec by by rewrite <- Z.negb_even, Heven.
    destruct (Z.compare_spec (2 * r + 1) (2 * k + 1)); simpl; lia.
Qed.

Lemma shr_1_spec m r s :
  0 < m → shr_1 (Build_shr_record m r s) = Build_shr_record (m / 2) (Z.odd m) (r || s).
Proof.
  intros Hm. rewrite <- Z.div2_div. by destruct m as [|[p|p|]|].
Qed.

Lemma shr_fexp_24 m e l :
  2 ^ 23 ≤ m < 2 ^ 24 → -149 ≤ e →
  shr_fexp prec emax m e l = (shr_record_of_loc m l, e).
Proof.
  intros Hm He. unfold shr_fexp.
  rewrite Zdigits2_log2, (Z.log2_unique m 23) by lia.
  unfold fexp, emin, prec, emax.
  by replace (Z.max (23 + 1 + e - 24) (3 - 128 - 24) - e) with 0 by lia.
Qed.

Lemma shr_fexp_25 m e l :
  2 ^ 24 ≤ m < 2 ^ 25 → -150 ≤ e →
  shr_fexp prec emax m e l = (shr_1 (shr_record_of_loc m l), e + 1).
Proof.
  intros Hm He. unfold shr_fexp.
  rewrite Zdigits2_log2, (Z.log2_unique m 24) by lia.
  unfold fexp, emin, prec, emax.
  by replace (Z.max (24 + 1 + e - 24) (3 - 128 - 24) - e) with 1 by lia.
Qed.

Lemma shr_record_of_loc_m m l : shr_m (shr_record_of_loc m l) = m.
Proof. by destruct l as [|[]]. Qed.

Lemma loc_of_shr_record_of_loc m l : loc_of_shr_record (shr_record_of_loc m l) = l.
Proof. by destruct l as [|[]]. Qed.

(** The last step of the rounding: a mantissa of 24 bits is kept, the
    mantissa [2^24] is renormalized. *)
Lemma round_finish (m e : Z) :
  2 ^ 23 ≤ m ≤ 2 ^ 24 → -149 ≤ e ≤ 103 →
  ∃ M k,
    (let '(mrs, e') := shr_fexp prec emax m e loc_Exact in
     match shr_m mrs with
     | 0 => S754_zero false
     | Z.pos m' =>
         if e' <=? emax - prec then S754_finite false m' e' else S754_infinity false
     | Z.neg _ => S754_nan
     end) = S754_finite false M (e + k)
    ∧ 0 ≤ k ≤ 1 ∧ Z.pos M * 2 ^ k = m.
Proof.
  intros Hm He. destruct (decide (m < 2 ^ 24)) as [Hlt|Hge].
  - rewrite shr_fexp_24 by lia. simpl shr_m.
    destruct m as [|p|p]; try lia.
    rewrite (proj2 (Z.leb_le _ _)) by (unfold emax, prec; lia).
    exists p, 0. rewrite Z.add_0_r. split; [done|]. lia.
  - assert (m = 2 ^ 24) as -> by lia.
    rewrite shr_fexp_25 by lia. simpl.
    rewrite (proj2 (Z.leb_le _ _)) by (unfold emax, prec; lia).
    eexists _, 1. split; [done|]. split; [lia|]. reflexivity.
Qed.

(** Rounding to nearest: the rounded value of [(q + r / m) * 2^e] is within
    [2^-24] of it, relatively. *)
Lemma round_aux_near (q e : Z) (l : location) (r m : Z) :
  2 ^ 23 ≤ q < 2 ^ 25 → -149 ≤ e ≤ 102 → 0 < m → 0 ≤ r < m → loc_sem l r m →
  ∃ M k,
    binary_round_aux prec emax false q e l = S754_finite false M (e + k)
    ∧ 0 ≤ k ≤ 2 ∧ (q < 2 ^ 24 → k ≤ 1)
    ∧ 2 ^ 24 * Z.abs (Z.pos M * 2 ^ k * m - (q * m + r)) ≤ q * m + r.
Proof.
  intros Hq He Hm Hr Hl. unfold binary_round_aux.
  destruct (decide (q < 2 ^ 24)) as [Hlt|Hge].
  - rewrite shr_fexp_24 by lia.
    rewrite shr_record_of_loc_m, loc_of_shr_record_of_loc.
    assert (2 ^ 23 ≤ round_nearest_even q l ≤ 2 ^ 24
            ∧ 2 ^ 24 * Z.abs (round_nearest_even q l * m - (q * m + r)) ≤ q * m + r)
      as [HM0 Hb].
    { assert (2 ^ 23 * m ≤ q * m) by nia.
      destruct l as [|[]]; simpl in *.
      - split; [lia|]. subst r. rewrite Z.add_0_r, Z.sub_diag. simpl. lia.
      - destruct (Z.even q); [|rewrite Z.mul_add_distr_r]; lia.
      - lia.
      - rewrite Z.mul_add_distr_r. lia. }
    destruct (round_finish (round_nearest_even q l) e HM0) as (M & k & -> & Hk & HM);
      [lia|].
    exists M, k. split; [done|]. split; [lia|]. split; [lia|]. by rewrite HM.
  - rewrite shr_fexp_25 by lia.
    destruct (shr_record_of_loc q l) as [m0 r0 s0] eqn:Hrec.
    assert (m0 = q) as -> by by rewrite <- (shr_record_of_loc_m q l), Hrec.
    assert (r0 || s0 = false → r = 0) as Hexact.
    { destruct l as [|[]]; simpl in *; by injection Hrec as <- <-. }
    rewrite shr_1_spec by lia. cbn [shr_m].
    set (M0 := round_nearest_even (q / 2) _).
    assert (2 ^ 23 ≤ M0 ≤ 2 ^ 24
            ∧ 2 ^ 24 * Z.abs (M0 * 2 * m - (q * m + r)) ≤ q * m + r) as [HM0 Hb].
    { assert (2 ^ 24 * m ≤ q * m) by nia.
      pose proof (Z.div_mod q 2 ltac:(lia)) as Hdiv.
      pose proof (Z.mod_pos_bound q 2 ltac:(lia)) as Hmod.
      rewrite Zmod_odd in Hdiv. subst M0.
      destruct (Z.odd q); destruct (r0 || s0); simpl.
      - nia.
      - rewrite Hexact by done. destruct (Z.even (q / 2)); nia.
      - nia.
      - rewrite Hexact by done. nia. }
    destruct (round_finish M0 (e + 1) HM0) as (M & k & -> & Hk & HM); [lia|].
    exists M, (1 + k). split; [f_equal; lia|]. split; [lia|]. split; [lia|].
    rewrite Z.pow_add_r by lia.
    replace (Z.pos M * (2 ^ 1 * 2 ^ k)) with (Z.pos M * 2 ^ k * 2) by lia.
    by rewrite HM.
Qed.
End Nearest.

(** *** The quotient of two counts *)

Section DivCounts.
Import B32.

Lemma div_core_canon (m1 m2 e1 e2 : Z) :
  2 ^ 23 ≤ m1 < 2 ^ 24 → 2 ^ 23 ≤ m2 < 2 ^ 24 → -23 ≤ e1 - e2 ≤ 23 →
  SFdiv_core_binary prec emax m1 e1 m2 e2
  = (m1 * 2 ^ 24 / m2, e1 - e2 - 24, new_location m2 ((m1 * 2 ^ 24) mod m2)).
Proof.
  intros H1 H2 He. unfold SFdiv_core_binary.
  rewrite !Zdigits2_log2, (Z.log2_unique m1 23), (Z.log2_unique m2 23) by lia.
  unfold fexp, emin, prec, emax.
  replace (Z.min (Z.max (23 + 1 + e1 - (23 + 1 + e2) - 24) (3 - 128 - 24)) (e1 - e2))
    with (e1 - e2 - 24) by lia.
  replace (e1 - e2 - (e1 - e2 - 24)) with 24 by lia. cbv iota.
  by rewrite div_eucl_pair, Z.shiftl_mul_pow2 by lia.
Qed.

(** The float32 quotient of two counts [c < N < 2^24] is within [2^-24] of
    [c / N], relatively. *)
Lemma div_counts_near (c N : Z) :
  0 < c → c < N → N < 2 ^ 24 →
  ∃ M j,
    div (of_Z c) (of_Z N) = S754_finite false M (- j)
    ∧ 0 ≤ j
    ∧ 2 ^ 24 * Z.abs (Z.pos M * N - c * 2 ^ j) ≤ c * 2 ^ j.
Proof.
  intros Hc HcN HN. rewrite !of_Z_canon by lia. unfold canon.
  destruct (canon_mantissa c) as [Ha Hm1]; [lia|].
  destruct (canon_mantissa N) as [Hb Hm2]; [lia|].
  pose proof (Z.log2_le_mono c N ltac:(lia)) as Hlog.
  set (a := 23 - Z.log2 c) in *. set (b := 23 - Z.log2 N) in *.
  set (m1 := c * 2 ^ a) in *. set (m2 := N * 2 ^ b) in *.
  replace (Z.log2 c - 23) with (- a) by lia.
  replace (Z.log2 N - 23) with (- b) by lia.
  unfold div, SFdiv.
  destruct m1 as [|p1|p1] eqn:Hp1; try lia.
  destruct m2 as [|p2|p2] eqn:Hp2; try lia.
  cbn [Z.to_pos].
  rewrite div_core_canon by lia. cbn [xorb].
  set (q := Z.pos p1 * 2 ^ 24 / Z.pos p2).
  set (r := (Z.pos p1 * 2 ^ 24) mod Z.pos p2).
  pose proof (Z.div_mod (Z.pos p1 * 2 ^ 24) (Z.pos p2) ltac:(lia)) as Hdiv.
  pose proof (Z.mod_pos_bound (Z.pos p1 * 2 ^ 24) (Z.pos p2) ltac:(lia)) as Hmod.
  fold q r in Hdiv, Hmod.
  assert (2 ^ 23 ≤ q < 2 ^ 25) as Hq.
  { split.
    - apply Z.div_le_lower_bound; lia.
    - apply Z.div_lt_upper_bound; lia. }
  destruct (round_aux_near q (- a - - b - 24) (new_location (Z.pos p2) r) r (Z.pos p2))
    as (M & k & -> & Hk & Hk1 & Hbound); try lia.
  { by apply new_location_sem. }
  assert (a = b → k ≤ 1) as Hk'.
  { intros Hab. apply Hk1. apply Z.div_lt_upper_bound; [lia|].
    assert (Z.pos p1 < Z.pos p2); [|lia].
    rewrite <- Hp1, <- Hp2. unfold m1, m2. rewrite Hab.
    apply Z.mul_lt_mono_pos_r; lia. }
  exists M, (a - b + 24 - k). split; [f_equal; lia|]. split; [lia|].
  assert (q * Z.pos p2 + r = c * 2 ^ (a - b + 24 - k) * 2 ^ (b + k)) as HX.
  { rewrite <- Z.mul_assoc, <- Z.pow_add_r by lia.
    replace (a - b + 24 - k + (b + k)) with (a + 24) by lia.
    rewrite Z.pow_add_r by lia. rewrite Z.mul_assoc. fold m1. lia. }
  assert (Z.pos M * 2 ^ k * Z.pos p2 = Z.pos M * N * 2 ^ (b + k)) as HY.
  { rewrite <- Hp2. unfold m2. rewrite (Z.pow_add_r 2 b k) by lia. lia. }
  rewrite HX, HY, <- Z.mul_sub_distr_r, Z.abs_mul in Hbound.
  assert (0 < 2 ^ (b + k)) as HT by (apply Z.pow_pos_nonneg; lia).
  rewrite (Z.abs_eq (2 ^ (b + k))), Z.mul_assoc in Hbound by lia.
  by apply Z.mul_le_mono_pos_r in Hbound.
Qed.
End DivCounts.

(** *** The total of a row of counts in any order *)

Section AnyOrder.
Import B32.

Lemma sum_row_sums_to {F} `{Scalar F} (row : list F) : sums_to row (sum_row row).
Proof.
  unfold sum_row. induction row as [|x row IH] using rev_ind; [constructor|].
  rewrite foldl_app. simpl.
  apply (sums_to_add _ row [x]); [done|done|constructor].
Qed.

Lemma fmap_Permutation_inv {A B} (f : A → B) (l : list B) (ks : list A) :
  l ≡ₚ f <$> ks → ∃ ks', l = f <$> ks' ∧ ks ≡ₚ ks'.
Proof.
  intros (ks' & -> & Hperm)%Permutation_map_inv. by exists ks'.
Qed.

(** Below [2^24] a row of counts has the same total in every order. *)
Lemma sums_to_counts (l : list float32) (s : float32) :
  sums_to l s →
  ∀ ks : list nat,
    l = (λ k, of_Z (Z.of_nat k)) <$> ks → Z.of_nat (sum_list ks) < 2 ^ 24 →
    s = of_Z (Z.of_nat (sum_list ks)).
Proof.
  induction 1 as [|x|l l1 l2 s1 s2 Hperm _ IH1 _ IH2]; intros ks Hl Hlt.
  - symmetry in Hl. by apply fmap_nil_inv in Hl as ->.
  - destruct ks as [|k [|k' ks]]; try done. injection Hl as ->.
    simpl. by rewrite Nat.add_0_r.
  - rewrite Hl in Hperm. symmetry in Hperm.
    apply fmap_Permutation_inv in Hperm as (ks' & Happ & Hks).
    symmetry in Happ. apply fmap_app_inv in Happ as (ks1 & ks2 & -> & -> & ->).
    rewrite Hks, sum_list_with_app in *.
    rewrite (IH1 ks1), (IH2 ks2) by (done || lia).
    rewrite add_of_Z by lia. f_equal. lia.
Qed.
End AnyOrder.

(** *** The entries of a normalized row as rationals *)

Section ExactSums.
Import B32.

Lemma Qpower_2_neg (j : Z) : 0 ≤ j → (2 ^ (- j) * inject_Z (2 ^ j) == 1)%Q.
Proof.
  intros Hj. rewrite Qpower_opp, Zpower_Qpower by done.
  change (inject_Z 2) with 2%Q. rewrite Qmult_comm. apply Qmult_inv_r.
  apply Qpower_not_0. done.
Qed.

Lemma unit_roundoff_eq : unit_roundoff = (1 # 16777216)%Q.
Proof. reflexivity. Qed.

Lemma to_Q_div_counts (c N : Z) :
  0 ≤ c ≤ N → 0 < N < 2 ^ 24 →
  ∃ v, to_Q (div (of_Z c) (of_Z N)) = Some v
       ∧ (inject_Z c * (1 - unit_roundoff) <= inject_Z N * v)%Q
       ∧ (inject_Z N * v <= inject_Z c * (1 + unit_roundoff))%Q.
Proof.
  intros Hc HN.
  assert (∃ m e, of_Z N = S754_finite false m e) as (mN & eN & HfN).
  { rewrite of_Z_canon by lia. unfold canon. by eexists _, _. }
  destruct (decide (c = 0)) as [->|Hc0]; [|destruct (decide (c = N)) as [->|HcN]].
  - exists 0%Q. rewrite HfN. split; [done|]. rewrite unit_roundoff_eq.
    change (inject_Z 0) with 0%Q. split; lra.
  - rewrite HfN, div_self. eexists. split; [reflexivity|].
    change (cond_Zopp false (Z.pos (Z.to_pos 8388608))) with 8388608.
    assert (inject_Z 8388608 * 2 ^ (-23) == 1)%Q as -> by reflexivity.
    rewrite unit_roundoff_eq.
    assert (0 < inject_Z N)%Q by (rewrite <- (Zlt_Qlt 0); lia).
    split; nra.
  - destruct (div_counts_near c N) as (M & j & -> & Hj & Hb); try lia.
    eexists. split; [reflexivity|]. cbn [cond_Zopp].
    pose proof (Qpower_2_neg j Hj) as Hpow.
    assert (0 < 2 ^ j) as HP by (apply Z.pow_pos_nonneg; lia).
    assert (2 ^ 24 * (c * 2 ^ j - Z.pos M * N) ≤ c * 2 ^ j) as Hb1' by lia.
    assert (2 ^ 24 * (Z.pos M * N - c * 2 ^ j) ≤ c * 2 ^ j) as Hb2 by lia.
    clear Hb.
    rewrite Zle_Qle in Hb1', Hb2. rewrite Zlt_Qlt in HP.
    rewrite !inject_Z_mult in Hb1', Hb2.
    unfold Zminus in Hb1', Hb2.
    rewrite !inject_Z_plus, !inject_Z_opp, !inject_Z_mult in Hb1', Hb2.
    set (P := inject_Z (2 ^ j)) in *. set (w := (2 ^ (- j))%Q) in *.
    set (x := inject_Z N) in *. set (y := inject_Z c) in *.
    set (m := inject_Z (Z.pos M)) in *.
    change (inject_Z (2 ^ 24)) with (16777216%Q) in *.
    change (inject_Z 0) with 0%Q in *.
    rewrite unit_roundoff_eq.
    assert (0 < w)%Q as Hw by (by apply Qpower_0_lt).
    split; nra.
Qed.
End ExactSums.

Section RowSums.
Import B32.

Lemma sum_Q_normalized_counts {A} (f : A → nat) (l : list A) (N : Z) :
  0 < N < 2 ^ 24 → (∀ x, x ∈ l → Z.of_nat (f x) ≤ N) →
  ∃ total,
    sum_Q ((λ x, div (of_Z (Z.of_nat (f x))) (of_Z N)) <$> l) = Some total
    ∧ (inject_Z (Z.of_nat (sum_list (f <$> l))) * (1 - unit_roundoff)
         <= inject_Z N * total)%Q
    ∧ (inject_Z N * total
         <= inject_Z (Z.of_nat (sum_list (f <$> l))) * (1 + unit_roundoff))%Q.
Proof.
  intros HN Hle. induction l as [|x l IH].
  { exists 0%Q. split; [done|].
    change (inject_Z (Z.of_nat (sum_list (f <$> [])))) with 0%Q.
    rewrite unit_roundoff_eq. split; lra. }
  destruct IH as (total & Hsum & Hlo & Hhi).
  { intros y Hy. apply Hle. by right. }
  destruct (to_Q_div_counts (Z.of_nat (f x)) N) as (v & Hv & Hvlo & Hvhi);
    [split; [lia|apply Hle; left]|done|].
  exists (v + total)%Q. split.
  { rewrite fmap_cons. cbn [sum_Q foldr].
    fold (sum_Q ((λ x, div (of_Z (Z.of_nat (f x))) (of_Z N)) <$> l)).
    by rewrite Hv, Hsum. }
  rewrite fmap_cons. cbn [sum_list sum_list_with]. unfold id.
  rewrite Nat2Z.inj_add, inject_Z_plus.
  change (sum_list_with (λ k : nat, k) (f <$> l)) with (sum_list (f <$> l)).
  rewrite unit_roundoff_eq in *. split; lra.
Qed.

Lemma count_bias_swap t targets biases :
  count_bias t biases targets = count_target t targets biases.
Proof.
  unfold count_bias, count_target. revert biases.
  induction targets as [|t' targets IH]; intros [|p biases]; try done.
  simpl zip. rewrite !filter_cons. simpl. specialize (IH biases). simpl in IH.
  case_decide; simpl; by rewrite IH.
Qed.

(** A row of counts with total [N], [0 < N < 2^24], and its normalized row. *)
Lemma normalized_row_near (num_classes : Z) (targets biases : list Z) (b : Z) :
  0 ≤ num_classes →
  Forall (in_range num_classes) targets → Forall (in_range num_classes) biases →
  in_range num_classes b →
  (0 < count_bias b targets biases)%nat →
  Z.of_nat (count_bias b targets biases) < 2 ^ 24 →
  ∃ raw raw_by row nrow total,
    confusion_value num_classes targets biases
      = Some (raw, row_normalize raw, row_normalize raw_by)
    ∧ raw !! Z.to_nat b = Some row
    ∧ (∀ s, sums_to row s →
         s = of_Z (Z.of_nat (count_bias b targets biases))
         ∧ nrow = (λ x, div x s) <$> row)
    ∧ row_normalize raw !! Z.to_nat b = Some nrow
    ∧ sum_Q nrow = Some total
    ∧ (1 - unit_roundoff <= total)%Q ∧ (total <= 1 + unit_roundoff)%Q.
Proof.
  intros Hn Hts Hbs Hb Hpos Hlt.
  destruct (confusion_matrix_cells num_classes targets biases Hn Hts Hbs)
    as (raw & raw_by & Hcall & Hsq & _ & Hcells & _).
  rewrite call_get_confusion_matrix in Hcall.
  set (n := Z.to_nat num_classes) in *.
  set (N := count_bias b targets biases) in *.
  set (f := λ c : nat, count b (Z.of_nat c) targets biases).
  assert (raw !! Z.to_nat b = Some ((λ c, of_Z (Z.of_nat (f c))) <$> seq 0 n))
    as Hrow.
  { apply (row_of_cells n); [done|unfold in_range in *; lia|].
    intros c Hc. pose proof (Hcells b (Z.of_nat c)) as Hbc.
    rewrite Nat2Z.id in Hbc. rewrite Hbc by (unfold in_range in *; lia).
    unfold f. rewrite Z.min_l; [done|].
    pose proof (count_le_count_bias b (Z.of_nat c) targets biases).
    unfold max_count. lia. }
  assert (sum_list (f <$> seq 0 n) = N) as Hsum.
  { unfold f, count, N, count_bias. apply count_row_partition.
    eapply Forall_impl; [|apply (in_range_zip num_classes); eassumption].
    intros [t p] [Ht _]. simpl in *. unfold n. by rewrite Z2Nat.id by lia. }
  assert (∀ s, sums_to ((λ c, of_Z (Z.of_nat (f c))) <$> seq 0 n) s
               → s = of_Z (Z.of_nat N)) as Hany.
  { intros s Hs. rewrite <- Hsum.
    apply (sums_to_counts _ s Hs (f <$> seq 0 n)).
    - by rewrite <- list_fmap_compose.
    - rewrite Hsum. done. }
  destruct (sum_Q_normalized_counts f (seq 0 n) (Z.of_nat N))
    as (total & Htotal & Hlo & Hhi); [lia| |].
  { intros c _. apply inj_le. apply count_le_count_bias. }
  rewrite Hsum in Hlo, Hhi.
  eexists raw, raw_by, _, _, total. split; [done|]. split; [exact Hrow|].
  assert (row_normalize raw !! Z.to_nat b
          = Some ((λ c, div (of_Z (Z.of_nat (f c))) (of_Z (Z.of_nat N))) <$> seq 0 n))
    as Hnrow.
  { rewrite (lookup_row_normalize _ _ _ Hrow).
    rewrite (Hany _ (sum_row_sums_to _)).
    by rewrite <- list_fmap_compose. }
  split; [|split; [exact Hnrow|split; [exact Htotal|]]].
  - intros s Hs. rewrite (Hany s Hs). split; [done|].
    by rewrite <- list_fmap_compose.
  - assert (0 < inject_Z (Z.of_nat N))%Q by (rewrite <- (Zlt_Qlt 0); lia).
    rewrite unit_roundoff_eq in *. split; nra.
Qed.
End RowSums.

(** C4, as the code has it.  In [get_confusion_matrix], on a valid input,
    for every bias class [b] with at least one and fewer than [2^24]
    examples, the total of row [b] of the counts is the number of examples of
    the class in whatever order [sum] adds the row, row [b] of [normalized]
    is the row of counts divided by it, and the entries of that row of
    [normalized] add up, as real numbers, to [1] within [2^-24] (not to
    exactly [1]: each entry is a rounded quotient).  The same holds of row
    [t] of [normalized_by] for every target class [t], whose counts are
    column [t] of the counts. *)
Theorem normalized_rows_sum_to_one (num_classes : Z) (targets biases : list Z) :
  0 ≤ num_classes →
  Forall (in_range num_classes) targets → Forall (in_range num_classes) biases →
  ∃ raw normalized normalized_by,
    call3 (get_confusion_matrix num_classes targets biases)
      = Some (raw, normalized, normalized_by)
    ∧ (∀ b, in_range num_classes b →
        (0 < count_bias b targets biases)%nat →
        Z.of_nat (count_bias b targets biases) < 2 ^ 24 →
        ∃ row nrow total,
          raw !! Z.to_nat b = Some row
          ∧ (∀ s, sums_to row s →
               s = B32.of_Z (Z.of_nat (count_bias b targets biases))
               ∧ nrow = (λ x, B32.div x s) <$> row)
          ∧ normalized !! Z.to_nat b = Some nrow
          ∧ sum_Q nrow = Some total
          ∧ (1 - unit_roundoff <= total)%Q ∧ (total <= 1 + unit_roundoff)%Q)
    ∧ (∀ t, in_range num_classes t →
        (0 < count_target t targets biases)%nat →
        Z.of_nat (count_target t targets biases) < 2 ^ 24 →
        ∃ col nrow total,
          transpose raw !! Z.to_nat t = Some col
          ∧ (∀ s, sums_to col s →
               s = B32.of_Z (Z.of_nat (count_target t targets biases))
               ∧ nrow = (λ x, B32.div x s) <$> col)
          ∧ normalized_by !! Z.to_nat t = Some nrow
          ∧ sum_Q nrow = Some total
          ∧ (1 - unit_roundoff <= total)%Q ∧ (total <= 1 + unit_roundoff)%Q).
Proof.
  intros Hn Hts Hbs.
  destruct (confusion_matrix_cells num_classes targets biases Hn Hts Hbs)
    as (raw & raw_by & Hcall & _).
  exists raw, (row_normalize raw), (row_normalize raw_by). split; [done|].
  rewrite call_get_confusion_matrix in Hcall. split.
  - intros b Hb Hpos Hlt.
    destruct (normalized_row_near num_classes targets biases b Hn Hts Hbs Hb Hpos Hlt)
      as (raw' & raw_by' & row & nrow & total & Hval & Hrow & Hany & Hnrow & Hrest).
    rewrite Hcall in Hval. injection Hval as <- _ _.
    by exists row, nrow, total.
  - intros t Ht Hpos Hlt. rewrite <- count_bias_swap in Hpos, Hlt.
    destruct (normalized_row_near num_classes biases targets t Hn Hbs Hts Ht Hpos Hlt)
      as (raw' & raw_by' & col & nrow & total & Hval & Hcol & Hany & Hnrow & Hrest).
    rewrite confusion_value_swap, Hcall in Hval. simpl in Hval.
    injection Hval as <- Hnby _.
    rewrite <- Hnby in Hnrow. rewrite count_bias_swap in Hany.
    by exists col, nrow, total.
Qed.

(** [normalized_rows_sum_to_one] on counts [1] and [2] in row [0]: the row of
    [normalized] holds the float32 nearest to [1/3] and to [2/3]. *)
Lemma normalized_rows_sum_to_one_witness :
  ∃ raw normalized normalized_by nrow total,
    call3 (F:=B32.float32) (get_confusion_matrix 2 [0; 1; 1] [0; 0; 0])
      = Some (raw, normalized, normalized_by)
    ∧ normalized !! 0%nat = Some nrow
    ∧ sum_Q nrow = Some total
    ∧ (1 - unit_roundoff <= total)%Q ∧ (total <= 1 + unit_roundoff)%Q.
Proof.
  destruct (normalized_rows_sum_to_one 2 [0; 1; 1] [0; 0; 0])
    as (raw & nm & nby & Hcall & Hrows & _).
  - lia.
  - repeat constructor; unfold in_range; lia.
  - repeat constructor; unfold in_range; lia.
  - destruct (Hrows 0) as (row & nrow & total & _ & _ & Hnrow & Hsum & Hlo & Hhi).
    + unfold in_range; lia.
    + vm_compute. lia.
    + vm_compute. reflexivity.
    + by exists raw, nm, nby, nrow, total.
Defined.
